(** * YipBox: the signal/slot connection registry

    A shallow embedding of [src/YipBox.h].  Objects live in a store indexed
    by their address: a receiver ([HasSlots]) holds the set of signals that
    point at it and its [active] flag, a signal ([SignalBaseTyped]) holds the
    ordered list of its connections.  Every member function of the header is
    a function on that store; it returns [None] where the C++ code would
    dereference an object that is not alive or would never return, and where
    a constructor is given an address that is in use.

    The threading policy is the template parameter [MTPolicy].  The member
    functions are modelled at the instance [SingleThreaded], whose [lock] and
    [unlock] are empty, so a [LockBlock] has no effect in them and is left
    out; what the calls do to the mutexes of the two other policies, and
    whether they return under them, is modelled on top, from the calls they
    log ([lock_program], [locks], [call_under]). *)

From stdpp Require Import gmap list fin_maps.

(** ** Data *)

(** Addresses of receivers and of signals.  A receiver is named by the
    address of its [HasSlots] base, which is the pointer the signals compare
    and follow. *)
Definition Rid := nat.
Definition Eid := nat.

(** A pointer to a member function of a class [Destination].  Its type
    fixes the class [Destination], and with the class the offset of the
    [HasSlots] base in a [Destination]: [base_offset], which is 0 where
    [HasSlots] is the first base and is not where another base comes before
    it.  The layout is that of the classes of the client; the header does
    not know it.  [method] tells the member functions of a class apart. *)
Record Fid := mkFid { method : nat; base_offset : nat }.

#[global] Instance Fid_eq_dec : EqDecision Fid.
Proof. solve_decision. Defined.

(** [Connection<MTPolicy, Destination, Types...>]: the bound receiver and
    the bound member function.  The source holds the receiver as a
    [Destination *]; [object] is the address of the [HasSlots] base of that
    [Destination], [base_offset] further, which is the value every use of
    the pointer in the header converts it to. *)
Record Connection := mkConnection { object : Rid; function : Fid }.

#[global] Instance Connection_eq_dec : EqDecision Connection.
Proof. solve_decision. Defined.

(** [getDestination] returns the [Destination *] as a [HasSlots *]: the
    conversion to the base. *)
Definition getDestination (c : Connection) : Rid := object c.

(** [clone] copy-constructs the connection. *)
Definition clone (c : Connection) : Connection :=
  mkConnection (object c) (function c).

(** [duplicate] constructs a connection with the same member function from
    [reinterpret_cast<Destination *>(newDestination)].  The cast takes the
    address of the [HasSlots] base as the address of a [Destination], with
    no step back to the start of the object; the [HasSlots] base of what the
    new connection holds is therefore [base_offset] beyond
    [newDestination], and is [newDestination] only where the offset is 0. *)
Definition duplicate (c : Connection) (newDestination : Rid) : Connection :=
  mkConnection (newDestination + base_offset (function c)) (function c).

(** [HasSlots<MTPolicy>]: the [SenderSet] and the [active] flag. *)
Record HasSlots := mkHasSlots { senders : gset Eid; active : bool }.

(** The calls that cross from one object to another, in the order in which
    they are made.  The log is instrumentation: no function reads it. *)
Inductive Event :=
| EvSignalConnect (r : Rid) (sender : Eid)
| EvSignalDisconnect (r : Rid) (sender : Eid)
| EvDisconnectSlot (e : Eid) (slot : Rid)
| EvDuplicateSlot (e : Eid) (oldTarget newTarget : Rid)
| EvShoot (r : Rid) (f : Fid).

#[global] Instance Event_eq_dec : EqDecision Event.
Proof. solve_decision. Defined.

(** The store: the receivers and the signals that are alive, and the log. *)
Record World := mkWorld {
  receivers : gmap Rid HasSlots;
  signals : gmap Eid (list Connection);
  trace : list Event
}.

Definition empty_world : World := mkWorld ∅ ∅ [].

Definition log (ev : Event) (w : World) : World :=
  mkWorld (receivers w) (signals w) (trace w ++ [ev]).

Definition set_receiver (r : Rid) (hs : HasSlots) (w : World) : World :=
  mkWorld (<[r:=hs]> (receivers w)) (signals w) (trace w).

Definition set_signal (e : Eid) (l : list Connection) (w : World) : World :=
  mkWorld (receivers w) (<[e:=l]> (signals w)) (trace w).

(** ** HasSlots: the members that touch the receiver alone *)

(** [HasSlots()]: a receiver at a free address, no sender, active. *)
Definition HasSlots_new (this : Rid) (w : World) : option World :=
  match receivers w !! this with
  | Some _ => None
  | None => Some (set_receiver this (mkHasSlots ∅ true) w)
  end.

(** [senders.insert(sender)] and [senders.erase(sender)]. *)
Definition add_sender (sender : Eid) (hs : HasSlots) : HasSlots :=
  mkHasSlots ({[sender]} ∪ senders hs) (active hs).

Definition drop_sender (sender : Eid) (hs : HasSlots) : HasSlots :=
  mkHasSlots (senders hs ∖ {[sender]}) (active hs).

Definition signalConnect (this : Rid) (sender : Eid) (w : World)
  : option World :=
  hs ← receivers w !! this;
  Some (set_receiver this (add_sender sender hs)
          (log (EvSignalConnect this sender) w)).

Definition signalDisconnect (this : Rid) (sender : Eid) (w : World)
  : option World :=
  hs ← receivers w !! this;
  Some (set_receiver this (drop_sender sender hs)
          (log (EvSignalDisconnect this sender) w)).

Definition isActive (this : Rid) (w : World) : option bool :=
  active <$> receivers w !! this.

Definition setActive (this : Rid) (newActive : bool) (w : World)
  : option World :=
  hs ← receivers w !! this;
  Some (set_receiver this (mkHasSlots (senders hs) newActive) w).

(** ** SignalBaseTyped *)

(** [SignalBaseTyped()]: a signal at a free address with no connection. *)
Definition SignalBaseTyped_new (this : Eid) (w : World) : option World :=
  match signals w !! this with
  | Some _ => None
  | None => Some (set_signal this [] w)
  end.

(** The loop of [SignalBaseTyped::disconnect]: [kept] is the part of the list
    before the iterator, [it] the part from the iterator on.  A connection to
    [item] is erased and [item] is told; any other one is stepped over. *)
Fixpoint disconnect_loop (this : Eid) (item : Rid)
    (kept it : list Connection) (w : World)
  : option (list Connection * World) :=
  match it with
  | [] => Some (kept, w)
  | c :: it' =>
      if decide (getDestination c = item) then
        w' ← signalDisconnect item this w;
        disconnect_loop this item kept it' w'
      else disconnect_loop this item (kept ++ [c]) it' w
  end.

Definition disconnect (this : Eid) (item : Rid) (w : World) : option World :=
  l ← signals w !! this;
  '(l', w') ← disconnect_loop this item [] l w;
  Some (set_signal this l' w').

(** The loop of [SignalBaseTyped::disconnectSlot]: as above, and the
    receiver is not told. *)
Fixpoint disconnectSlot_loop (slot : Rid) (kept it : list Connection)
  : list Connection :=
  match it with
  | [] => kept
  | c :: it' =>
      if decide (getDestination c = slot)
      then disconnectSlot_loop slot kept it'
      else disconnectSlot_loop slot (kept ++ [c]) it'
  end.

Definition disconnectSlot (this : Eid) (slot : Rid) (w : World)
  : option World :=
  l ← signals w !! this;
  Some (set_signal this (disconnectSlot_loop slot [] l)
          (log (EvDisconnectSlot this slot) w)).

(** The loop of [SignalBaseTyped::duplicateSlot].  The list is
    [seen ++ it]; [push_back] appends to it, so what is pushed is met by the
    iterator later on.  The loop need not end (it does not when a copy it
    pushes is a connection to [oldTarget] again): [fuel] bounds the number of
    iterations, [None] says the bound was reached. *)
Fixpoint duplicateSlot_loop (fuel : nat) (oldTarget newTarget : Rid)
    (seen it : list Connection) : option (list Connection) :=
  match fuel with
  | O => None
  | S fuel' =>
      match it with
      | [] => Some seen
      | c :: it' =>
          if decide (getDestination c = oldTarget)
          then duplicateSlot_loop fuel' oldTarget newTarget (seen ++ [c])
                 (it' ++ [duplicate c newTarget])
          else duplicateSlot_loop fuel' oldTarget newTarget (seen ++ [c]) it'
      end
  end.

(** A loop that ends makes at most [2 * length l + 1] tests of its
    condition (lemmas [duplicateSlot_loop_ends] and
    [duplicateSlot_loop_diverges]), so with that much fuel [None] is exactly
    the case of a loop that never ends. *)
Definition duplicateSlot (this : Eid) (oldTarget newTarget : Rid) (w : World)
  : option World :=
  l ← signals w !! this;
  l' ← duplicateSlot_loop (2 * length l + 1) oldTarget newTarget [] l;
  Some (set_signal this l' (log (EvDuplicateSlot this oldTarget newTarget) w)).

(** [SignalSpecific::connect]. *)
Definition connect (this : Eid) (obj : Rid) (f : Fid) (w : World)
  : option World :=
  l ← signals w !! this;
  signalConnect obj this (set_signal this (l ++ [mkConnection obj f]) w).

(** The loop shared by [SignalBaseTyped::disconnectAll] and
    [~SignalBaseTyped]: every receiver is told, connection by connection. *)
Fixpoint forget_loop (this : Eid) (it : list Connection) (w : World)
  : option World :=
  match it with
  | [] => Some w
  | c :: it' =>
      w' ← signalDisconnect (getDestination c) this w;
      forget_loop this it' w'
  end.

Definition SignalBaseTyped_disconnectAll (this : Eid) (w : World)
  : option World :=
  l ← signals w !! this;
  w' ← forget_loop this l w;
  Some (set_signal this [] w').

(** [~SignalBaseTyped]: the same loop, then the signal is gone. *)
Definition SignalBaseTyped_destroy (this : Eid) (w : World) : option World :=
  l ← signals w !! this;
  w' ← forget_loop this l w;
  Some (mkWorld (receivers w') (delete this (signals w')) (trace w')).

(** The loop of the copy constructor of [SignalBaseTyped]: [mine] is the
    list of the signal under construction. *)
Fixpoint SignalBaseTyped_copy_loop (this : Eid) (it mine : list Connection)
    (w : World) : option (list Connection * World) :=
  match it with
  | [] => Some (mine, w)
  | c :: it' =>
      w' ← signalConnect (getDestination c) this w;
      SignalBaseTyped_copy_loop this it' (mine ++ [clone c]) w'
  end.

Definition SignalBaseTyped_copy (src this : Eid) (w : World) : option World :=
  l ← signals w !! src;
  match signals w !! this with
  | Some _ => None
  | None =>
      '(mine, w') ← SignalBaseTyped_copy_loop this l [] w;
      Some (set_signal this mine w')
  end.

(** ** HasSlots: the members that call into the signals *)

Fixpoint HasSlots_disconnectAll_loop (this : Rid) (it : list Eid) (w : World)
  : option World :=
  match it with
  | [] => Some w
  | i :: it' =>
      w' ← disconnectSlot i this w;
      HasSlots_disconnectAll_loop this it' w'
  end.

Definition HasSlots_disconnectAll (this : Rid) (w : World) : option World :=
  hs ← receivers w !! this;
  w' ← HasSlots_disconnectAll_loop this (elements (senders hs)) w;
  Some (set_receiver this (mkHasSlots ∅ (active hs)) w').

(** [~HasSlots]: [disconnectAll()], then the receiver is gone. *)
Definition HasSlots_destroy (this : Rid) (w : World) : option World :=
  w' ← HasSlots_disconnectAll this w;
  Some (mkWorld (delete this (receivers w')) (signals w') (trace w')).

(** The loop of the copy constructor of [HasSlots]: [mine] is the sender set
    of the receiver under construction. *)
Fixpoint HasSlots_copy_loop (src this : Rid) (it : list Eid) (mine : gset Eid)
    (w : World) : option (gset Eid * World) :=
  match it with
  | [] => Some (mine, w)
  | i :: it' =>
      w' ← duplicateSlot i src this w;
      HasSlots_copy_loop src this it' ({[i]} ∪ mine) w'
  end.

Definition HasSlots_copy (src this : Rid) (w : World) : option World :=
  hs ← receivers w !! src;
  match receivers w !! this with
  | Some _ => None
  | None =>
      '(mine, w') ← HasSlots_copy_loop src this (elements (senders hs)) ∅ w;
      Some (set_receiver this (mkHasSlots mine (active hs)) w')
  end.

(** ** SignalSpecific::shoot

    The slots are code of the user of the library.  A slot is given by what
    it does to the state of the user: the state it leaves, and the exception
    it throws if it throws one.  It does not call back into the registry
    (the header has no support for that). *)

Section Shoot.
Context {Args UState Exn : Type}.
Variable slot_body : Rid → Fid → Args → UState → UState * option Exn.

(** [Connection::shoot]: [(object->*function)(arguments...)]. *)
Definition Connection_shoot (c : Connection) (arguments : Args)
    (w : World) (u : UState) : World * UState * option Exn :=
  let '(u', x) := slot_body (object c) (function c) arguments u in
  (log (EvShoot (object c) (function c)) w, u', x).

(** The loop of [SignalSpecific::shoot].  An exception leaves the loop at
    once, with nothing caught on the way out. *)
Fixpoint shoot_loop (arguments : Args) (it : list Connection)
    (w : World) (u : UState) : option (World * UState * option Exn) :=
  match it with
  | [] => Some (w, u, None)
  | c :: it' =>
      a ← isActive (getDestination c) w;
      if a : bool then
        match Connection_shoot c arguments w u with
        | (w', u', Some x) => Some (w', u', Some x)
        | (w', u', None) => shoot_loop arguments it' w' u'
        end
      else shoot_loop arguments it' w u
  end.

Definition shoot (this : Eid) (arguments : Args) (w : World) (u : UState)
  : option (World * UState * option Exn) :=
  l ← signals w !! this;
  shoot_loop arguments l w u.

(** The state of the user after the slots of [l] have run in turn, as long
    as none throws. *)
Fixpoint run_slots (arguments : Args) (l : list Connection) (u : UState)
  : UState :=
  match l with
  | [] => u
  | c :: l' =>
      run_slots arguments l' (slot_body (object c) (function c) arguments u).1
  end.

(** The slots of [l], run in turn from the state [u], all return. *)
Fixpoint quiet (arguments : Args) (l : list Connection) (u : UState) : Prop :=
  match l with
  | [] => True
  | c :: l' =>
      (slot_body (object c) (function c) arguments u).2 = None
      ∧ quiet arguments l'
          (slot_body (object c) (function c) arguments u).1
  end.
End Shoot.

(** ** The calls of a client, and the stores they lead to *)

Inductive Call :=
| CallNewReceiver (r : Rid)
| CallNewSignal (e : Eid)
| CallConnect (e : Eid) (r : Rid) (f : Fid)
| CallDisconnect (e : Eid) (r : Rid)
| CallSignalDisconnectAll (e : Eid)
| CallReceiverDisconnectAll (r : Rid)
| CallSetActive (r : Rid) (a : bool)
| CallCopyReceiver (src this : Rid)
| CallCopySignal (src this : Eid)
| CallDestroyReceiver (r : Rid)
| CallDestroySignal (e : Eid).

Definition call (c : Call) (w : World) : option World :=
  match c with
  | CallNewReceiver r => HasSlots_new r w
  | CallNewSignal e => SignalBaseTyped_new e w
  | CallConnect e r f => connect e r f w
  | CallDisconnect e r => disconnect e r w
  | CallSignalDisconnectAll e => SignalBaseTyped_disconnectAll e w
  | CallReceiverDisconnectAll r => HasSlots_disconnectAll r w
  | CallSetActive r a => setActive r a w
  | CallCopyReceiver src this => HasSlots_copy src this w
  | CallCopySignal src this => SignalBaseTyped_copy src this w
  | CallDestroyReceiver r => HasSlots_destroy r w
  | CallDestroySignal e => SignalBaseTyped_destroy e w
  end.

Fixpoint run (cs : list Call) (w : World) : option World :=
  match cs with
  | [] => Some w
  | c :: cs' => w' ← call c w; run cs' w'
  end.

(** The store a client has after the calls [cs], from no object at all (the
    empty store again if some call of [cs] is not a valid one). *)
Definition after (cs : list Call) : World :=
  default empty_world (run cs empty_world).

(** The calls that connect the slots of a list to [e], one after the
    other. *)
Definition connect_calls (e : Eid) (slots : list Connection) : list Call :=
  (λ c, CallConnect e (object c) (function c)) <$> slots.

(** ** A client for the examples

    The state of the user is the list of the calls its slots have received:
    receiver, member function and argument.  Every slot records its call; a
    slot of receiver 3 then throws the number of its member function.
    [member n] is a member function of a class that has [HasSlots] as its
    first base, [member_at d n] one of a class where [HasSlots] comes [d]
    after the start of the object. *)
Definition recording (r : Rid) (f : Fid) (a : nat)
    (u : list (Rid * nat * nat)) : list (Rid * nat * nat) * option nat :=
  (u ++ [(r, method f, a)], if decide (r = 3) then Some (method f) else None).

Definition member (n : nat) : Fid := mkFid n 0.

Definition member_at (d n : nat) : Fid := mkFid n d.

(** Receivers 1, 2 and 4 and signal 10; 10 is connected to 1, to 2 and to 1
    again. *)
Definition world_a : World :=
  after [CallNewReceiver 1; CallNewReceiver 2; CallNewReceiver 4;
         CallNewSignal 10; CallConnect 10 1 (member 7); CallConnect 10 2 (member 8);
         CallConnect 10 1 (member 9)].

(** Receivers 1, 2 and 3 and signal 10; 10 is connected to 1, to 3 and
    to 2. *)
Definition world_b : World :=
  after [CallNewReceiver 1; CallNewReceiver 2; CallNewReceiver 3;
         CallNewSignal 10; CallConnect 10 1 (member 7); CallConnect 10 3 (member 8);
         CallConnect 10 2 (member 9)].

(** Receivers 1, 2 and 4 and signal 10, with no connection. *)
Definition world_c : World :=
  after [CallNewReceiver 1; CallNewReceiver 2; CallNewReceiver 4;
         CallNewSignal 10].

(** Receiver 1 and signal 10, connected twice. *)
Definition world_d : World :=
  after [CallNewReceiver 1; CallNewSignal 10; CallConnect 10 1 (member 7);
         CallConnect 10 1 (member 8)].

(** Receiver 1 and signals 10 and 11, each connected to 1. *)
Definition world_e : World :=
  after [CallNewReceiver 1; CallNewSignal 10; CallNewSignal 11;
         CallConnect 10 1 (member 7); CallConnect 11 1 (member 8)].

(** Receivers 20 and 2 and signal 10; receiver 20 is the [HasSlots] base
    of an object of a class where [HasSlots] comes 8 after the start of the
    object (the object is at 12).  10 is connected to 20 and to 2. *)
Definition world_f : World :=
  after [CallNewReceiver 20; CallNewReceiver 2; CallNewSignal 10;
         CallConnect 10 20 (member_at 8 7); CallConnect 10 2 (member 8)].

(** ** The invariant of the registry

    Every connection points at a live receiver that lists the signal, and
    every signal listed by a live receiver is alive and holds a connection
    to it. *)
Record wf (w : World) : Prop := mkWf {
  wf_conn : ∀ e l c,
    signals w !! e = Some l → c ∈ l →
    ∃ hs, receivers w !! object c = Some hs ∧ e ∈ senders hs;
  wf_back : ∀ r hs e,
    receivers w !! r = Some hs → e ∈ senders hs →
    ∃ l c, signals w !! e = Some l ∧ c ∈ l ∧ object c = r
}.

(** The connections of a list that point at [r], and the other ones. *)
Definition targets (r : Rid) (l : list Connection) : list Connection :=
  filter (λ c, getDestination c = r) l.

Definition others (r : Rid) (l : list Connection) : list Connection :=
  filter (λ c, getDestination c ≠ r) l.

(** The store after [item] was told [n] times that [this] is gone: only the
    first call changes the sender set. *)
Definition told (n : nat) (item : Rid) (this : Eid) (hs : HasSlots)
    (w : World) : World :=
  match n with
  | O => w
  | S _ => mkWorld (<[item:=drop_sender this hs]> (receivers w)) (signals w)
             (trace w ++ replicate n (EvSignalDisconnect item this))
  end.

(** The list of a signal after the connections to [src] were duplicated
    for [this]. *)
Definition with_copies (src this : Rid) (l : list Connection)
  : list Connection :=
  l ++ ((λ c, duplicate c this) <$> targets src l).

(** The connections of a list whose receiver is active, and the entry of the
    log for the call of a slot. *)
Definition eligible (w : World) (l : list Connection) : list Connection :=
  filter (λ c, isActive (getDestination c) w = Some true) l.

Definition shot (c : Connection) : Event := EvShoot (object c) (function c).

(** The store with [evs] added to the log. *)
Definition logged (evs : list Event) (w : World) : World :=
  mkWorld (receivers w) (signals w) (trace w ++ evs).

(** How many times a log tells [r] that [e] is gone, and how many times it
    calls the slot [f] of [r]. *)
Definition notifications (r : Rid) (e : Eid) (evs : list Event) : nat :=
  length (filter (λ ev, ev = EvSignalDisconnect r e) evs).

Definition calls_of (r : Rid) (f : Fid) (evs : list Event) : nat :=
  length (filter (λ ev, ev = EvShoot r f) evs).

(** The entries of the log of [w'] that the log of [w] does not have. *)
Definition since (w w' : World) : list Event :=
  drop (length (trace w)) (trace w').

(** ** Copies and the layout of the classes

    No copy for [this] of a connection to [src] is a connection to [src]
    again: the loops of [duplicateSlot] that the copy constructor of [this]
    starts all end. *)
Definition no_alias (src this : Rid) (w : World) : Prop :=
  ∀ e l c, signals w !! e = Some l → c ∈ l → object c = src →
    object (duplicate c this) ≠ src.

(** The connections to [r] are all bound to member functions of classes
    that have [HasSlots] at offset 0; the connections of the store all
    are; a call connects such a member function. *)
Definition aligned_to (r : Rid) (w : World) : Prop :=
  ∀ e l c, signals w !! e = Some l → c ∈ l → object c = r →
    base_offset (function c) = 0.

Definition aligned (w : World) : Prop :=
  ∀ e l c, signals w !! e = Some l → c ∈ l → base_offset (function c) = 0.

Definition aligned_call (c : Call) : Prop :=
  match c with
  | CallConnect _ _ f => base_offset f = 0
  | _ => True
  end.

(** The calls of a list that copy no receiver. *)
Definition is_receiver_copy (c : Call) : bool :=
  match c with
  | CallCopyReceiver _ _ => true
  | _ => false
  end.

Definition copy_free (cs : list Call) : bool :=
  forallb (λ c, negb (is_receiver_copy c)) cs.

(** ** The calls a client may make

    A call is in order when the objects it names are alive and the address
    it constructs at is free.  The argument of [disconnect] is a pointer that
    is compared with the destinations and followed only when one matches, so
    nothing is asked of it.  The copy constructor of a receiver runs
    [duplicateSlot], which has to end. *)
Definition call_ready (c : Call) (w : World) : Prop :=
  match c with
  | CallNewReceiver r => receivers w !! r = None
  | CallNewSignal e => signals w !! e = None
  | CallConnect e r f => is_Some (signals w !! e) ∧ is_Some (receivers w !! r)
  | CallDisconnect e r => is_Some (signals w !! e)
  | CallSignalDisconnectAll e => is_Some (signals w !! e)
  | CallReceiverDisconnectAll r => is_Some (receivers w !! r)
  | CallSetActive r a => is_Some (receivers w !! r)
  | CallCopyReceiver src this =>
      is_Some (receivers w !! src) ∧ receivers w !! this = None
      ∧ no_alias src this w
  | CallCopySignal src this =>
      is_Some (signals w !! src) ∧ signals w !! this = None
  | CallDestroyReceiver r => is_Some (receivers w !! r)
  | CallDestroySignal e => is_Some (signals w !! e)
  end.

(** ** The threading policies and LockBlock

    [MTPolicy] is one of three classes.  [lock] and [unlock] of
    [SingleThreaded] are empty; those of [MultiThreadedGlobal] take and give
    back the one mutex of the process (the static of [get_mutex]); those of
    [MultiThreadedLocal] the mutex that is a member of the object.
    Receivers and signals derive from the policy, so every one of them is
    locked through its own [lock].  The two multi-threaded policies are the
    classes the header defines with POSIX threads; the ones it defines for
    Windows, on critical sections, are not modelled. *)
Inductive Policy := SingleThreaded | MultiThreadedGlobal | MultiThreadedLocal.

Inductive Obj := ObjReceiver (r : Rid) | ObjSignal (e : Eid).

Inductive Mutex := GlobalMutex | LocalMutex (o : Obj).

Inductive LockOp := Lock (m : Mutex) | Unlock (m : Mutex).

#[global] Instance Obj_eq_dec : EqDecision Obj.
Proof. solve_decision. Defined.

#[global] Instance Mutex_eq_dec : EqDecision Mutex.
Proof. solve_decision. Defined.

Definition lock (p : Policy) (o : Obj) : list LockOp :=
  match p with
  | SingleThreaded => []
  | MultiThreadedGlobal => [Lock GlobalMutex]
  | MultiThreadedLocal => [Lock (LocalMutex o)]
  end.

Definition unlock (p : Policy) (o : Obj) : list LockOp :=
  match p with
  | SingleThreaded => []
  | MultiThreadedGlobal => [Unlock GlobalMutex]
  | MultiThreadedLocal => [Unlock (LocalMutex o)]
  end.

(** [LockBlock]: the constructor locks, the destructor unlocks where the
    block that declares it ends; [body] is what the block does in between. *)
Definition LockBlock (p : Policy) (o : Obj) (body : list LockOp)
  : list LockOp :=
  lock p o ++ body ++ unlock p o.

(** The object on which a logged call is made.  [signalConnect],
    [signalDisconnect], [disconnectSlot] and [duplicateSlot] all open a
    [LockBlock] on [this] and call no other object; the slots are not code
    of the header. *)
Definition callee (ev : Event) : option Obj :=
  match ev with
  | EvSignalConnect r _ => Some (ObjReceiver r)
  | EvSignalDisconnect r _ => Some (ObjReceiver r)
  | EvDisconnectSlot e _ => Some (ObjSignal e)
  | EvDuplicateSlot e _ _ => Some (ObjSignal e)
  | EvShoot _ _ => None
  end.

Definition nested_locks (p : Policy) (evs : list Event) : list LockOp :=
  flat_map (λ ev, match callee ev with
                  | Some o => LockBlock p o []
                  | None => []
                  end) evs.

(** The object on which a call of a client opens its [LockBlock], as the
    first thing it does: [this], but for the constructors without argument
    and for [setActive], which open none.  The copy constructors lock the
    object they construct, not the source. *)
Definition call_lock (c : Call) : option Obj :=
  match c with
  | CallNewReceiver _ => None
  | CallNewSignal _ => None
  | CallConnect e _ _ => Some (ObjSignal e)
  | CallDisconnect e _ => Some (ObjSignal e)
  | CallSignalDisconnectAll e => Some (ObjSignal e)
  | CallReceiverDisconnectAll r => Some (ObjReceiver r)
  | CallSetActive _ _ => None
  | CallCopyReceiver _ this => Some (ObjReceiver this)
  | CallCopySignal _ this => Some (ObjSignal this)
  | CallDestroyReceiver r => Some (ObjReceiver r)
  | CallDestroySignal e => Some (ObjSignal e)
  end.

(** The mutex operations in the text of a call, in order, as they would be
    performed if every [lock] returned: the calls that the body logs on its
    way from [w] to [w'] are made inside the [LockBlock] of the call. *)
Definition lock_program (p : Policy) (c : Call) (w w' : World) : list LockOp :=
  match call_lock c with
  | Some o => LockBlock p o (nested_locks p (since w w'))
  | None => nested_locks p (since w w')
  end.

(** Giving back a mutex, and whether a sequence locks a mutex that is held
    ([held] are the mutexes held at its start). *)
Fixpoint release (m : Mutex) (held : list Mutex) : list Mutex :=
  match held with
  | [] => []
  | m' :: held' => if decide (m = m') then held' else m' :: release m held'
  end.

Fixpoint relocks (held : list Mutex) (ops : list LockOp) : bool :=
  match ops with
  | [] => false
  | Lock m :: ops' => bool_decide (m ∈ held) || relocks (m :: held) ops'
  | Unlock m :: ops' => relocks (release m held) ops'
  end.

(** The mutexes are as the header makes them with POSIX threads:
    [pthread_mutex_init] with no attributes, so a mutex is not recursive,
    and a [pthread_mutex_lock] by the thread that holds the mutex does not
    return.  [performed] is the part of a sequence of operations that the
    thread of the client carries out: it ends with the first [lock] of a
    held mutex, and nothing after that one is reached, the [unlock]s of the
    open [LockBlock]s included. *)
Fixpoint performed (held : list Mutex) (ops : list LockOp) : list LockOp :=
  match ops with
  | [] => []
  | Lock m :: ops' =>
      Lock m :: (if bool_decide (m ∈ held) then []
                 else performed (m :: held) ops')
  | Unlock m :: ops' => Unlock m :: performed (release m held) ops'
  end.

(** What a call does to the mutexes, in order, where [w'] is the store its
    body leads to from [w] when no [lock] stops it. *)
Definition locks (p : Policy) (c : Call) (w w' : World) : list LockOp :=
  performed [] (lock_program p c w w').

(** A call of a client under a policy: the call of the body, which returns
    only if none of its [lock]s is of a mutex that is held. *)
Definition call_under (p : Policy) (c : Call) (w : World) : option World :=
  w' ← call c w;
  if relocks [] (lock_program p c w w') then None else Some w'.

(** * Properties *)

(** ** Connections and sender sets *)

Lemma clone_id (c : Connection) : clone c = c.
Proof. by destruct c. Qed.

Lemma drop_sender_idem (e : Eid) (hs : HasSlots) :
  drop_sender e (drop_sender e hs) = drop_sender e hs.
Proof. unfold drop_sender; simpl; f_equal; set_solver. Qed.

Lemma add_sender_idem (e : Eid) (hs : HasSlots) :
  add_sender e (add_sender e hs) = add_sender e hs.
Proof. unfold add_sender; simpl; f_equal; set_solver. Qed.

Lemma targets_cons_eq (r : Rid) (c : Connection) (l : list Connection) :
  object c = r → targets r (c :: l) = c :: targets r l.
Proof. intros ?. unfold targets. by rewrite filter_cons_True. Qed.

Lemma targets_cons_ne (r : Rid) (c : Connection) (l : list Connection) :
  object c ≠ r → targets r (c :: l) = targets r l.
Proof. intros ?. unfold targets. by rewrite filter_cons_False. Qed.

Lemma others_cons_eq (r : Rid) (c : Connection) (l : list Connection) :
  object c = r → others r (c :: l) = others r l.
Proof.
  intros H. unfold others. rewrite filter_cons_False; [done|].
  unfold getDestination. tauto.
Qed.

Lemma others_cons_ne (r : Rid) (c : Connection) (l : list Connection) :
  object c ≠ r → others r (c :: l) = c :: others r l.
Proof. intros ?. unfold others. by rewrite filter_cons_True. Qed.

Lemma targets_app (r : Rid) (l1 l2 : list Connection) :
  targets r (l1 ++ l2) = targets r l1 ++ targets r l2.
Proof. apply filter_app. Qed.

Lemma others_app (r : Rid) (l1 l2 : list Connection) :
  others r (l1 ++ l2) = others r l1 ++ others r l2.
Proof. apply filter_app. Qed.

Lemma elem_of_targets (r : Rid) (c : Connection) (l : list Connection) :
  c ∈ targets r l ↔ object c = r ∧ c ∈ l.
Proof. unfold targets. by rewrite list_elem_of_filter. Qed.

Lemma elem_of_others (r : Rid) (c : Connection) (l : list Connection) :
  c ∈ others r l ↔ object c ≠ r ∧ c ∈ l.
Proof. unfold others. by rewrite list_elem_of_filter. Qed.

Lemma targets_nil_iff (r : Rid) (l : list Connection) :
  targets r l = [] ↔ ∀ c, c ∈ l → object c ≠ r.
Proof.
  split.
  - intros H c Hc Hr.
    assert (c ∈ targets r l) as Hin by (by apply elem_of_targets).
    rewrite H in Hin. by apply elem_of_nil in Hin.
  - intros H. induction l as [|c l IH]; [done|].
    rewrite targets_cons_ne.
    + apply IH. intros c' Hc'. apply H. by right.
    + apply H. by left.
Qed.

Lemma others_all (r : Rid) (l : list Connection) :
  targets r l = [] → others r l = l.
Proof.
  induction l as [|c l IH]; [done|].
  destruct (decide (object c = r)) as [Heq|Hne].
  - by rewrite targets_cons_eq.
  - rewrite targets_cons_ne, others_cons_ne by done. intros H. by rewrite IH.
Qed.

Lemma targets_others (r : Rid) (l : list Connection) :
  targets r (others r l) = [].
Proof.
  apply targets_nil_iff. intros c Hc. by apply elem_of_others in Hc as [? _].
Qed.

Lemma others_idem (r : Rid) (l : list Connection) :
  others r (others r l) = others r l.
Proof. apply others_all, targets_others. Qed.

Lemma targets_duplicates (r r' : Rid) (l : list Connection) :
  (∀ c, c ∈ l → object (duplicate c r') ≠ r) →
  targets r ((λ c, duplicate c r') <$> l) = [].
Proof.
  intros Hne. apply targets_nil_iff. intros c Hc.
  apply list_elem_of_fmap in Hc as (c' & -> & Hc'). by apply Hne.
Qed.

Lemma object_duplicate_aligned (c : Connection) (r : Rid) :
  base_offset (function c) = 0 → object (duplicate c r) = r.
Proof. intros H. simpl. rewrite H. lia. Qed.

(** ** The loops of the signal *)

Lemma disconnectSlot_loop_spec (slot : Rid) (kept it : list Connection) :
  disconnectSlot_loop slot kept it = kept ++ others slot it.
Proof.
  revert kept. induction it as [|c it IH]; intros kept; simpl.
  - by rewrite app_nil_r.
  - unfold getDestination. case_decide.
    + by rewrite IH, others_cons_eq.
    + by rewrite IH, others_cons_ne, <- app_assoc.
Qed.

(** The loop of [duplicateSlot] ends when no copy it pushes points at the
    old target: what was pushed is stepped over. *)
Lemma duplicateSlot_loop_ends (fuel : nat) (oldTarget newTarget : Rid)
    (seen it : list Connection) :
  (∀ c, c ∈ it → object c = oldTarget →
        object (duplicate c newTarget) ≠ oldTarget) →
  length it + length (targets oldTarget it) < fuel →
  duplicateSlot_loop fuel oldTarget newTarget seen it
  = Some (seen ++ it ++ ((λ c, duplicate c newTarget) <$> targets oldTarget it)).
Proof.
  revert seen it. induction fuel as [|fuel IH]; intros seen it Hno Hlen; [lia|].
  destruct it as [|c it]; simpl.
  - by rewrite app_nil_r.
  - unfold getDestination. case_decide as Hc.
    + assert (object (duplicate c newTarget) ≠ oldTarget) as Hne
        by (apply Hno; [by left|done]).
      rewrite targets_cons_eq in Hlen |- * by done. simpl in Hlen.
      assert (targets oldTarget (it ++ [duplicate c newTarget])
              = targets oldTarget it) as Ht.
      { by rewrite targets_app, targets_cons_ne, app_nil_r. }
      rewrite IH.
      * rewrite Ht. simpl. by rewrite <- !app_assoc.
      * intros c' Hc' Ho'. apply elem_of_app in Hc' as [Hc'|Hc'].
        -- apply Hno; [by right|done].
        -- apply list_elem_of_singleton in Hc'. by subst c'.
      * rewrite Ht, length_app. simpl. lia.
    + rewrite targets_cons_ne in Hlen |- * by done. simpl in Hlen.
      rewrite IH.
      * by rewrite <- !app_assoc.
      * intros c' Hc'. apply Hno. by right.
      * lia.
Qed.

(** It never ends when the copy of some connection to the old target points
    at the old target, as it does where the new target is the old one and
    the offset is 0: the copy is copied in its turn, and whatever the bound,
    the bound is reached. *)
Lemma duplicateSlot_loop_diverges (fuel : nat) (oldTarget newTarget : Rid)
    (seen it : list Connection) :
  (∃ c, c ∈ it ∧ object c = oldTarget
        ∧ object (duplicate c newTarget) = oldTarget) →
  duplicateSlot_loop fuel oldTarget newTarget seen it = None.
Proof.
  revert seen it. induction fuel as [|fuel IH]; intros seen it Hex; [done|].
  destruct Hex as (c0 & Hin & Ho & Hhit).
  destruct it as [|c it]; simpl; [by apply elem_of_nil in Hin|].
  unfold getDestination. case_decide as Hc.
  - apply IH. apply elem_of_cons in Hin as [->|Hin].
    + exists (duplicate c newTarget). split_and!; [|done|done].
      apply elem_of_app. right. by apply list_elem_of_singleton.
    + exists c0. split_and!; [|done|done]. apply elem_of_app. by left.
  - apply IH. apply elem_of_cons in Hin as [->|Hin]; [done|].
    by exists c0.
Qed.

Lemma duplicateSlot_spec (this : Eid) (oldTarget newTarget : Rid) (w : World)
    (l : list Connection) :
  signals w !! this = Some l →
  (∀ c, c ∈ l → object c = oldTarget →
        object (duplicate c newTarget) ≠ oldTarget) →
  duplicateSlot this oldTarget newTarget w
  = Some (set_signal this
            (l ++ ((λ c, duplicate c newTarget) <$> targets oldTarget l))
            (log (EvDuplicateSlot this oldTarget newTarget) w)).
Proof.
  intros Hl Hno. unfold duplicateSlot. rewrite Hl. simpl.
  rewrite duplicateSlot_loop_ends; [done|done|].
  assert (length (targets oldTarget l) ≤ length l) by apply length_filter.
  lia.
Qed.

Lemma duplicateSlot_diverges (this : Eid) (oldTarget newTarget : Rid)
    (w : World) (l : list Connection) :
  signals w !! this = Some l →
  (∃ c, c ∈ l ∧ object c = oldTarget
        ∧ object (duplicate c newTarget) = oldTarget) →
  duplicateSlot this oldTarget newTarget w = None.
Proof.
  intros Hl Hex. unfold duplicateSlot. rewrite Hl. simpl.
  by rewrite duplicateSlot_loop_diverges.
Qed.

Lemma set_signal_id (e : Eid) (l : list Connection) (w : World) :
  signals w !! e = Some l → set_signal e l w = w.
Proof.
  intros H. destruct w as [rs ss tr]; unfold set_signal; simpl in *.
  by rewrite insert_id.
Qed.


Lemma disconnect_loop_none (this : Eid) (item : Rid)
    (kept it : list Connection) (w : World) :
  targets item it = [] →
  disconnect_loop this item kept it w = Some (kept ++ it, w).
Proof.
  revert kept. induction it as [|c it IH]; intros kept Hnil; simpl.
  - by rewrite app_nil_r.
  - unfold getDestination. case_decide as Hc.
    + by rewrite targets_cons_eq in Hnil.
    + rewrite targets_cons_ne in Hnil by done.
      by rewrite IH, <- app_assoc.
Qed.

Lemma disconnect_loop_spec (this : Eid) (item : Rid)
    (kept it : list Connection) (w : World) (hs : HasSlots) :
  receivers w !! item = Some hs →
  disconnect_loop this item kept it w
  = Some (kept ++ others item it,
          told (length (targets item it)) item this hs w).
Proof.
  revert kept w hs. induction it as [|c it IH]; intros kept w hs Hr; simpl.
  - by rewrite app_nil_r.
  - unfold getDestination. case_decide as Hc.
    + unfold signalDisconnect. rewrite Hr. simpl.
      erewrite IH by (simpl; apply lookup_insert_eq).
      rewrite others_cons_eq, targets_cons_eq by done.
      do 2 f_equal. simpl.
      destruct (length (targets item it)) as [|n]; unfold told; simpl.
      * done.
      * rewrite insert_insert_eq, drop_sender_idem.
        by rewrite <- app_assoc.
    + rewrite (IH _ _ hs) by done.
      by rewrite others_cons_ne, targets_cons_ne, <- app_assoc.
Qed.

Lemma disconnect_spec (this : Eid) (item : Rid) (w : World)
    (l : list Connection) (hs : HasSlots) :
  signals w !! this = Some l → receivers w !! item = Some hs →
  disconnect this item w
  = Some (set_signal this (others item l)
            (told (length (targets item l)) item this hs w)).
Proof.
  intros Hl Hr. unfold disconnect. rewrite Hl. simpl.
  by rewrite (disconnect_loop_spec _ _ _ _ _ hs).
Qed.

Lemma disconnect_none (this : Eid) (item : Rid) (w : World)
    (l : list Connection) :
  signals w !! this = Some l → targets item l = [] →
  disconnect this item w = Some w.
Proof.
  intros Hl Hnil. unfold disconnect. rewrite Hl. simpl.
  rewrite disconnect_loop_none by done. simpl. by rewrite set_signal_id.
Qed.

(** [forget_loop] tells the receiver of every connection, once for each
    connection, and changes nothing else. *)
Lemma forget_loop_spec (this : Eid) (it : list Connection) (w : World) :
  (∀ c, c ∈ it → is_Some (receivers w !! object c)) →
  ∃ w', forget_loop this it w = Some w'
    ∧ signals w' = signals w
    ∧ trace w' = trace w ++ ((λ c, EvSignalDisconnect (object c) this) <$> it)
    ∧ ∀ r, receivers w' !! r
           = if decide (r ∈ object <$> it)
             then drop_sender this <$> receivers w !! r
             else receivers w !! r.
Proof.
  revert w. induction it as [|c it IH]; intros w Halive; simpl.
  - exists w. by rewrite app_nil_r.
  - destruct (Halive c) as [hs Hhs]; [by left|].
    unfold getDestination, signalDisconnect. rewrite Hhs. simpl.
    set (w1 := set_receiver _ _ _).
    destruct (IH w1) as (w' & Hrun & Hsig & Htr & Hrec).
    { intros c' Hc'. subst w1; simpl.
      destruct (decide (object c = object c')) as [->|Hne].
      - rewrite lookup_insert_eq. by eexists.
      - rewrite lookup_insert_ne by done. apply Halive. by right. }
    exists w'. split_and!; [done|by rewrite Hsig| |].
    + rewrite Htr. subst w1; simpl. by rewrite <- app_assoc.
    + intros r. change (list_fmap _ _ object it) with (object <$> it).
      rewrite Hrec. subst w1; simpl.
      destruct (decide (r = object c)) as [->|Hne].
      * rewrite lookup_insert_eq, Hhs. simpl.
        destruct (decide (object c ∈ object c :: _)) as [_|Hn];
          [|exfalso; apply Hn; by left].
        case_decide; by rewrite ?drop_sender_idem.
      * rewrite lookup_insert_ne by done.
        destruct (decide (r ∈ object c :: _)) as [Hin|Hn]; case_decide; try done.
        -- apply elem_of_cons in Hin as [?|?]; done.
        -- exfalso. apply Hn. by right.
Qed.

(** The loop of the copy constructor of a signal tells every receiver of the
    source, and builds a list equal to that of the source. *)
Lemma SignalBaseTyped_copy_loop_spec (this : Eid) (it mine : list Connection)
    (w : World) :
  (∀ c, c ∈ it → is_Some (receivers w !! object c)) →
  ∃ w', SignalBaseTyped_copy_loop this it mine w = Some (mine ++ it, w')
    ∧ signals w' = signals w
    ∧ trace w' = trace w ++ ((λ c, EvSignalConnect (object c) this) <$> it)
    ∧ ∀ r, receivers w' !! r
           = if decide (r ∈ object <$> it)
             then add_sender this <$> receivers w !! r
             else receivers w !! r.
Proof.
  revert mine w. induction it as [|c it IH]; intros mine w Halive; simpl.
  - exists w. by rewrite !app_nil_r.
  - destruct (Halive c) as [hs Hhs]; [by left|].
    unfold getDestination, signalConnect. rewrite Hhs. simpl.
    set (w1 := set_receiver _ _ _).
    destruct (IH (mine ++ [clone c]) w1) as (w' & Hrun & Hsig & Htr & Hrec).
    { intros c' Hc'. subst w1; simpl.
      destruct (decide (object c = object c')) as [->|Hne].
      - rewrite lookup_insert_eq. by eexists.
      - rewrite lookup_insert_ne by done. apply Halive. by right. }
    exists w'. split_and!.
    + by rewrite Hrun, clone_id, <- app_assoc.
    + by rewrite Hsig.
    + rewrite Htr. subst w1; simpl. by rewrite <- app_assoc.
    + intros r. change (list_fmap _ _ object it) with (object <$> it).
      rewrite Hrec. subst w1; simpl.
      destruct (decide (r = object c)) as [->|Hne].
      * rewrite lookup_insert_eq, Hhs. simpl.
        destruct (decide (object c ∈ object c :: _)) as [_|Hn];
          [|exfalso; apply Hn; by left].
        case_decide; by rewrite ?add_sender_idem.
      * rewrite lookup_insert_ne by done.
        destruct (decide (r ∈ object c :: _)) as [Hin|Hn]; case_decide; try done.
        -- apply elem_of_cons in Hin as [?|?]; done.
        -- exfalso. apply Hn. by right.
Qed.

(** ** The loops of the receiver *)

Lemma disconnectSlot_spec (this : Eid) (slot : Rid) (w : World)
    (l : list Connection) :
  signals w !! this = Some l →
  disconnectSlot this slot w
  = Some (set_signal this (others slot l) (log (EvDisconnectSlot this slot) w)).
Proof.
  intros Hl. unfold disconnectSlot. rewrite Hl. simpl.
  by rewrite disconnectSlot_loop_spec.
Qed.

Lemma HasSlots_disconnectAll_loop_spec (this : Rid) (it : list Eid)
    (w : World) :
  (∀ i, i ∈ it → is_Some (signals w !! i)) →
  ∃ w', HasSlots_disconnectAll_loop this it w = Some w'
    ∧ receivers w' = receivers w
    ∧ trace w' = trace w ++ ((λ i, EvDisconnectSlot i this) <$> it)
    ∧ ∀ e, signals w' !! e
           = if decide (e ∈ it)
             then others this <$> signals w !! e
             else signals w !! e.
Proof.
  revert w. induction it as [|i it IH]; intros w Halive; simpl.
  - exists w. by rewrite app_nil_r.
  - destruct (Halive i) as [l Hl]; [by left|].
    rewrite (disconnectSlot_spec _ _ _ l) by done. simpl.
    set (w1 := set_signal _ _ _).
    destruct (IH w1) as (w' & Hrun & Hrec & Htr & Hsig).
    { intros j Hj. subst w1; simpl.
      destruct (decide (i = j)) as [->|Hne].
      - rewrite lookup_insert_eq. by eexists.
      - rewrite lookup_insert_ne by done. apply Halive. by right. }
    exists w'. split_and!; [done|by rewrite Hrec| |].
    + rewrite Htr. subst w1; simpl. by rewrite <- app_assoc.
    + intros e. rewrite Hsig. subst w1; simpl.
      destruct (decide (e = i)) as [->|Hne].
      * rewrite lookup_insert_eq, Hl. simpl.
        destruct (decide (i ∈ i :: it)) as [_|Hn];
          [|exfalso; apply Hn; by left].
        case_decide; by rewrite ?others_idem.
      * rewrite lookup_insert_ne by done.
        destruct (decide (e ∈ i :: it)) as [Hin|Hn]; case_decide; try done.
        -- apply elem_of_cons in Hin as [?|?]; done.
        -- exfalso. apply Hn. by right.
Qed.


Lemma HasSlots_copy_loop_spec (src this : Rid) (it : list Eid)
    (mine : gset Eid) (w : World) :
  (∀ i l c, i ∈ it → signals w !! i = Some l → c ∈ l → object c = src →
            object (duplicate c this) ≠ src) →
  NoDup it →
  (∀ i, i ∈ it → is_Some (signals w !! i)) →
  ∃ w', HasSlots_copy_loop src this it mine w
        = Some (list_to_set it ∪ mine, w')
    ∧ receivers w' = receivers w
    ∧ trace w' = trace w ++ ((λ i, EvDuplicateSlot i src this) <$> it)
    ∧ ∀ e, signals w' !! e
           = if decide (e ∈ it)
             then with_copies src this <$> signals w !! e
             else signals w !! e.
Proof.
  revert mine w.
  induction it as [|i it IH]; intros mine w Hno Hnd Halive; simpl.
  - exists w. split_and!; [|done|by rewrite app_nil_r|done].
    do 2 f_equal. set_solver.
  - destruct (Halive i) as [l Hl]; [by left|].
    apply NoDup_cons in Hnd as [Hi Hnd].
    rewrite (duplicateSlot_spec _ _ _ _ l);
      [|done|intros c; apply (Hno i l c); [by left|done]].
    simpl. set (w1 := set_signal _ _ _).
    assert (∀ j, j ∈ it → signals w1 !! j = signals w !! j) as Hsame.
    { intros j Hj. subst w1; simpl. rewrite lookup_insert_ne; [done|].
      by intros ->. }
    destruct (IH ({[i]} ∪ mine) w1) as (w' & Hrun & Hrec & Htr & Hsig).
    { intros j lj c Hj Hlj. rewrite Hsame in Hlj by done.
      apply (Hno j lj c); [by right|done]. }
    { done. }
    { intros j Hj. rewrite Hsame by done. apply Halive. by right. }
    exists w'. split_and!.
    + rewrite Hrun. do 2 f_equal. set_solver.
    + by rewrite Hrec.
    + rewrite Htr. subst w1; simpl. by rewrite <- app_assoc.
    + intros e. rewrite Hsig. subst w1; simpl.
      destruct (decide (e = i)) as [->|Hne'].
      * rewrite lookup_insert_eq, Hl. simpl.
        destruct (decide (i ∈ i :: it)) as [_|Hn];
          [|exfalso; apply Hn; by left].
        by rewrite decide_False.
      * rewrite lookup_insert_ne by done.
        destruct (decide (e ∈ i :: it)) as [Hin|Hn]; case_decide; try done.
        -- apply elem_of_cons in Hin as [?|?]; done.
        -- exfalso. apply Hn. by right.
Qed.

(** The loop does not return when a sender holds a connection to [src] whose
    copy points at [src]. *)
Lemma HasSlots_copy_loop_alias (src this : Rid) (it : list Eid)
    (mine : gset Eid) (w : World) (i : Eid) (l : list Connection)
    (c : Connection) :
  i ∈ it → signals w !! i = Some l → c ∈ l → object c = src →
  object (duplicate c this) = src →
  HasSlots_copy_loop src this it mine w = None.
Proof.
  revert mine w. induction it as [|j it IH]; intros mine w Hin Hl Hc Ho Hhit.
  - by apply elem_of_nil in Hin.
  - simpl. destruct (decide (j = i)) as [->|Hne].
    + rewrite (duplicateSlot_diverges i src this w l); [done|done|].
      by exists c.
    + apply elem_of_cons in Hin as [->|Hin]; [done|].
      destruct (duplicateSlot j src this w) as [w1|] eqn:Hd; [|done]. simpl.
      apply IH; try done. unfold duplicateSlot in Hd.
      destruct (signals w !! j) as [lj|]; [|done]. simpl in Hd.
      destruct (duplicateSlot_loop _ _ _ _ _) as [lj'|]; [|done].
      injection Hd as <-. simpl. by rewrite lookup_insert_ne.
Qed.

(** ** The calls, one by one *)

Lemma connect_spec (this : Eid) (obj : Rid) (f : Fid) (w : World)
    (l : list Connection) (hs : HasSlots) :
  signals w !! this = Some l → receivers w !! obj = Some hs →
  connect this obj f w
  = Some (mkWorld (<[obj:=add_sender this hs]> (receivers w))
            (<[this:=l ++ [mkConnection obj f]]> (signals w))
            (trace w ++ [EvSignalConnect obj this])).
Proof.
  intros Hl Hr. unfold connect, signalConnect. rewrite Hl. simpl.
  by rewrite Hr.
Qed.

Lemma wf_empty : wf empty_world.
Proof. split; simpl; intros *; by rewrite lookup_empty. Qed.

Lemma wf_HasSlots_new (this : Rid) (w w' : World) :
  wf w → HasSlots_new this w = Some w' → wf w'.
Proof.
  intros [Hc Hb]. unfold HasSlots_new.
  destruct (receivers w !! this) eqn:Hfree; [done|].
  intros [= <-]. split; simpl.
  - intros e l c Hl Hin. destruct (Hc e l c Hl Hin) as (hs & Hhs & He).
    exists hs. split; [|done]. rewrite lookup_insert_ne; [done|]. congruence.
  - intros r hs e Hr He. apply lookup_insert_Some in Hr as [[<- <-]|[_ Hr]].
    + set_solver.
    + by apply (Hb r hs e).
Qed.

Lemma wf_SignalBaseTyped_new (this : Eid) (w w' : World) :
  wf w → SignalBaseTyped_new this w = Some w' → wf w'.
Proof.
  intros [Hc Hb]. unfold SignalBaseTyped_new.
  destruct (signals w !! this) eqn:Hfree; [done|].
  intros [= <-]. split; simpl.
  - intros e l c Hl Hin. apply lookup_insert_Some in Hl as [[<- <-]|[_ Hl]].
    + by apply elem_of_nil in Hin.
    + by apply (Hc e l c).
  - intros r hs e Hr He. destruct (Hb r hs e Hr He) as (l & c & Hl & Hin & Ho).
    exists l, c. split; [|done]. rewrite lookup_insert_ne; [done|]. congruence.
Qed.

Lemma wf_setActive (this : Rid) (a : bool) (w w' : World) :
  wf w → setActive this a w = Some w' → wf w'.
Proof.
  intros [Hc Hb]. unfold setActive.
  destruct (receivers w !! this) as [hs0|] eqn:Hr0; [|done]. simpl.
  intros [= <-]. split; simpl.
  - intros e l c Hl Hin. destruct (Hc e l c Hl Hin) as (hs & Hhs & He).
    destruct (decide (this = object c)) as [->|Hne].
    + rewrite lookup_insert_eq. eexists; split; [done|]. simpl. congruence.
    + rewrite lookup_insert_ne by done. by exists hs.
  - intros r hs e Hr He. apply lookup_insert_Some in Hr as [[<- <-]|[_ Hr]].
    + by apply (Hb this hs0 e).
    + by apply (Hb r hs e).
Qed.

Lemma wf_connect (this : Eid) (obj : Rid) (f : Fid) (w w' : World) :
  wf w → connect this obj f w = Some w' → wf w'.
Proof.
  intros [Hc Hb]. unfold connect, signalConnect.
  destruct (signals w !! this) as [l0|] eqn:Hl0; [|done]. simpl.
  destruct (receivers w !! obj) as [hs0|] eqn:Hr0; [|done]. simpl.
  intros [= <-]. split; simpl.
  - intros e l c Hl Hin.
    assert (c = mkConnection obj f ∧ e = this
            ∨ ∃ l1, signals w !! e = Some l1 ∧ c ∈ l1) as [[-> ->]|(l1 & Hl1 & Hin1)].
    { apply lookup_insert_Some in Hl as [[<- <-]|[_ Hl]]; [|by eauto].
      apply elem_of_app in Hin as [?|Hin]; [by eauto|].
      apply list_elem_of_singleton in Hin. by left. }
    + simpl. rewrite lookup_insert_eq. eexists; split; [done|]. set_solver.
    + destruct (Hc e l1 c Hl1 Hin1) as (hs & Hhs & He).
      destruct (decide (obj = object c)) as [->|Hne].
      * rewrite lookup_insert_eq. eexists; split; [done|].
        simpl. set_solver.
      * rewrite lookup_insert_ne by done. by exists hs.
  - intros r hs e Hr He.
    assert (r = obj ∧ e = this
            ∨ ∃ hs1, receivers w !! r = Some hs1 ∧ e ∈ senders hs1)
      as [[-> ->]|(hs1 & Hr1 & He1)].
    { apply lookup_insert_Some in Hr as [[<- <-]|[_ Hr]]; [|by eauto].
      simpl in He. apply elem_of_union in He as [He|He]; [|by eauto].
      apply elem_of_singleton in He. by left. }
    + rewrite lookup_insert_eq. eexists _, (mkConnection obj f).
      split; [done|]. split; [|done]. set_solver.
    + destruct (Hb r hs1 e Hr1 He1) as (l & c & Hl & Hin & Ho).
      destruct (decide (this = e)) as [->|Hne].
      * rewrite lookup_insert_eq. eexists _, c. split; [done|].
        split; [|done]. set_solver.
      * rewrite lookup_insert_ne by done. by exists l, c.
Qed.

Lemma wf_targets_alive (w : World) (e : Eid) (l : list Connection) :
  wf w → signals w !! e = Some l →
  ∀ c, c ∈ l → is_Some (receivers w !! object c).
Proof.
  intros [Hc _] Hl c Hin. destruct (Hc e l c Hl Hin) as (hs & Hhs & _).
  by exists hs.
Qed.

Lemma wf_senders_alive (w : World) (r : Rid) (hs : HasSlots) :
  wf w → receivers w !! r = Some hs →
  ∀ i, i ∈ elements (senders hs) → is_Some (signals w !! i).
Proof.
  intros [_ Hb] Hr i Hin. apply elem_of_elements in Hin.
  destruct (Hb r hs i Hr Hin) as (l & _ & Hl & _). by exists l.
Qed.

(** In a store that satisfies the invariant, [disconnect] on a live signal
    returns: a receiver that has to be told is alive. *)
Lemma disconnect_wf_spec (this : Eid) (item : Rid) (w : World)
    (l : list Connection) :
  wf w → signals w !! this = Some l →
  (targets item l = [] ∧ disconnect this item w = Some w)
  ∨ (∃ hs, targets item l ≠ [] ∧ receivers w !! item = Some hs
       ∧ disconnect this item w
         = Some (mkWorld (<[item:=drop_sender this hs]> (receivers w))
                   (<[this:=others item l]> (signals w))
                   (trace w ++ replicate (length (targets item l))
                                 (EvSignalDisconnect item this)))).
Proof.
  intros Hwf Hl. destruct (targets item l) as [|c t] eqn:Ht.
  - left. split; [done|]. by apply (disconnect_none _ _ _ l).
  - right. assert (c ∈ targets item l) as Hin by (rewrite Ht; by left).
    apply elem_of_targets in Hin as [Ho Hin].
    destruct (wf_targets_alive w this l Hwf Hl c Hin) as [hs Hhs].
    rewrite Ho in Hhs. exists hs. split; [done|]. split; [done|].
    rewrite (disconnect_spec _ _ _ l hs) by done. by rewrite Ht.
Qed.

Lemma wf_disconnect (this : Eid) (item : Rid) (w w' : World) :
  wf w → disconnect this item w = Some w' → wf w'.
Proof.
  intros Hwf Hrun.
  destruct (signals w !! this) as [l0|] eqn:Hl0;
    [|by unfold disconnect in Hrun; rewrite Hl0 in Hrun].
  destruct (disconnect_wf_spec this item w l0 Hwf Hl0)
    as [[_ Heq]|(hs0 & _ & Hr0 & Heq)];
    rewrite Heq in Hrun; injection Hrun as <-; [done|].
  destruct Hwf as [Hc Hb]. split; simpl.
  - intros e l c Hl Hin.
    apply lookup_insert_Some in Hl as [[<- <-]|[Hne Hl]].
    + apply elem_of_others in Hin as [Ho Hin].
      destruct (Hc this l0 c Hl0 Hin) as (hs & Hhs & He).
      exists hs. by rewrite lookup_insert_ne.
    + destruct (Hc e l c Hl Hin) as (hs & Hhs & He).
      destruct (decide (item = object c)) as [->|Hne'].
      * rewrite lookup_insert_eq. eexists; split; [done|].
        simpl. set_solver.
      * rewrite lookup_insert_ne by done. by exists hs.
  - intros r hs e Hr He.
    apply lookup_insert_Some in Hr as [[<- <-]|[Hne Hr]].
    + simpl in He. apply elem_of_difference in He as [He Hne].
      destruct (Hb item hs0 e Hr0 He) as (l & c & Hl & Hin & Ho).
      exists l, c. rewrite lookup_insert_ne by set_solver. done.
    + destruct (Hb r hs e Hr He) as (l & c & Hl & Hin & Ho).
      destruct (decide (this = e)) as [->|Hne'].
      * rewrite lookup_insert_eq. exists (others item l0), c.
        split; [done|]. split; [|done]. apply elem_of_others.
        split; [congruence|]. congruence.
      * rewrite lookup_insert_ne by done. by exists l, c.
Qed.

(** What [forget_loop] leaves, for a signal [this] that is then emptied or
    deleted: no receiver lists [this], nothing else has changed. *)
Lemma forget_loop_wf (this : Eid) (w w1 : World) (l0 : list Connection)
    (ss : gmap Eid (list Connection)) :
  wf w → signals w !! this = Some l0 →
  forget_loop this l0 w = Some w1 →
  (∀ e l, ss !! e = Some l →
     (e = this ∧ l = []) ∨ (e ≠ this ∧ signals w !! e = Some l)) →
  (∀ e l, e ≠ this → signals w !! e = Some l → ss !! e = Some l) →
  wf (mkWorld (receivers w1) ss (trace w1)).
Proof.
  intros Hwf Hl0 Hrun Hss1 Hss2.
  destruct (forget_loop_spec this l0 w (wf_targets_alive w this l0 Hwf Hl0))
    as (w1' & Hrun' & _ & _ & Hrec).
  rewrite Hrun in Hrun'. injection Hrun' as <-.
  destruct Hwf as [Hc Hb]. split; simpl.
  - intros e l c Hl Hin. destruct (Hss1 e l Hl) as [[-> ->]|[Hne Hl']].
    { by apply elem_of_nil in Hin. }
    destruct (Hc e l c Hl' Hin) as (hs & Hhs & He).
    rewrite Hrec, Hhs. case_decide; simpl; eexists; split; try done.
    simpl. set_solver.
  - intros r hs e Hr He. rewrite Hrec in Hr.
    assert (∃ hs1, receivers w !! r = Some hs1 ∧ e ∈ senders hs1
                   ∧ (r ∈ object <$> l0 → e ≠ this))
      as (hs1 & Hr1 & He1 & Hne).
    { case_decide as Hd.
      - destruct (receivers w !! r) as [hs1|]; [|done].
        injection Hr as <-. simpl in He. exists hs1. set_solver.
      - exists hs. done. }
    destruct (Hb r hs1 e Hr1 He1) as (l & c & Hl & Hin & Ho).
    assert (e ≠ this) as Hne'.
    { intros ->. apply Hne; [|done]. rewrite Hl0 in Hl. injection Hl as ->.
      apply list_elem_of_fmap. by exists c. }
    exists l, c. split; [|done]. by apply Hss2.
Qed.

Lemma wf_SignalBaseTyped_disconnectAll (this : Eid) (w w' : World) :
  wf w → SignalBaseTyped_disconnectAll this w = Some w' → wf w'.
Proof.
  intros Hwf. unfold SignalBaseTyped_disconnectAll.
  destruct (signals w !! this) as [l0|] eqn:Hl0; [|done]. simpl.
  destruct (forget_loop this l0 w) as [w1|] eqn:Hrun; [|done]. simpl.
  intros [= <-].
  destruct (forget_loop_spec this l0 w (wf_targets_alive w this l0 Hwf Hl0))
    as (w1' & Hrun' & Hsig & _).
  rewrite Hrun in Hrun'. injection Hrun' as <-.
  apply (forget_loop_wf this w w1 l0); try done; unfold set_signal; simpl.
  - intros e l Hl. rewrite Hsig in Hl.
    apply lookup_insert_Some in Hl as [[<- <-]|[? ?]]; [by left|by right].
  - intros e l Hne Hl. rewrite Hsig. by rewrite lookup_insert_ne.
Qed.

Lemma wf_SignalBaseTyped_destroy (this : Eid) (w w' : World) :
  wf w → SignalBaseTyped_destroy this w = Some w' → wf w'.
Proof.
  intros Hwf. unfold SignalBaseTyped_destroy.
  destruct (signals w !! this) as [l0|] eqn:Hl0; [|done]. simpl.
  destruct (forget_loop this l0 w) as [w1|] eqn:Hrun; [|done]. simpl.
  intros [= <-].
  destruct (forget_loop_spec this l0 w (wf_targets_alive w this l0 Hwf Hl0))
    as (w1' & Hrun' & Hsig & _).
  rewrite Hrun in Hrun'. injection Hrun' as <-.
  apply (forget_loop_wf this w w1 l0); try done.
  - intros e l Hl. rewrite Hsig in Hl.
    apply lookup_delete_Some in Hl as [? ?]. by right.
  - intros e l Hne Hl. rewrite Hsig. by rewrite lookup_delete_ne.
Qed.

(** [HasSlots::disconnectAll] in a store that satisfies the invariant: every
    sender is alive, so the call returns; the senders lose their connections
    to [this], once each, and [this] forgets them all. *)
Lemma HasSlots_disconnectAll_spec (this : Rid) (w : World) (hs : HasSlots) :
  wf w → receivers w !! this = Some hs →
  ∃ w', HasSlots_disconnectAll this w = Some w'
    ∧ receivers w' = <[this:=mkHasSlots ∅ (active hs)]> (receivers w)
    ∧ trace w'
      = trace w ++ ((λ i, EvDisconnectSlot i this) <$> elements (senders hs))
    ∧ ∀ e, signals w' !! e
           = if decide (e ∈ senders hs)
             then others this <$> signals w !! e
             else signals w !! e.
Proof.
  intros Hwf Hr.
  destruct (HasSlots_disconnectAll_loop_spec this (elements (senders hs)) w
              (wf_senders_alive w this hs Hwf Hr))
    as (w1 & Hrun & Hrec & Htr & Hsig).
  unfold HasSlots_disconnectAll. rewrite Hr. simpl. rewrite Hrun. simpl.
  eexists. split; [done|]. unfold set_receiver; simpl.
  split_and!; [by rewrite Hrec|done|].
  intros e. rewrite Hsig.
  destruct (decide (e ∈ elements (senders hs))) as [Hin|Hn];
    case_decide as Hd; try done; exfalso.
  - apply Hd. by apply elem_of_elements.
  - apply Hn. by apply elem_of_elements.
Qed.

(** What [HasSlots::disconnectAll] leaves, for a receiver [this] that is
    then reset or deleted. *)
Lemma HasSlots_disconnectAll_wf (this : Rid) (w w1 : World) (hs0 : HasSlots)
    (rs : gmap Rid HasSlots) :
  wf w → receivers w !! this = Some hs0 →
  HasSlots_disconnectAll this w = Some w1 →
  (∀ r hs, rs !! r = Some hs →
     (r = this ∧ senders hs = ∅) ∨ (r ≠ this ∧ receivers w !! r = Some hs)) →
  (∀ r hs, r ≠ this → receivers w !! r = Some hs → rs !! r = Some hs) →
  wf (mkWorld rs (signals w1) (trace w1)).
Proof.
  intros Hwf Hr0 Hrun Hrs1 Hrs2.
  destruct (HasSlots_disconnectAll_spec this w hs0 Hwf Hr0)
    as (w1' & Hrun' & _ & _ & Hsig).
  rewrite Hrun in Hrun'. injection Hrun' as <-.
  destruct Hwf as [Hc Hb]. split; simpl.
  - intros e l c Hl Hin. rewrite Hsig in Hl.
    assert (∃ l1, signals w !! e = Some l1 ∧ c ∈ l1
                  ∧ (e ∈ senders hs0 → object c ≠ this))
      as (l1 & Hl1 & Hin1 & Hne).
    { case_decide as Hd.
      - destruct (signals w !! e) as [l1|]; [|done].
        injection Hl as <-. apply elem_of_others in Hin as [? ?].
        by exists l1.
      - by exists l. }
    destruct (Hc e l1 c Hl1 Hin1) as (hs & Hhs & He).
    assert (object c ≠ this) as Hne'.
    { intros Heq. apply Hne; [|done]. rewrite Heq, Hr0 in Hhs. congruence. }
    exists hs. split; [|done]. by apply Hrs2.
  - intros r hs e Hr He. destruct (Hrs1 r hs Hr) as [[-> Hnil]|[Hne Hr']].
    { rewrite Hnil in He. set_solver. }
    destruct (Hb r hs e Hr' He) as (l & c & Hl & Hin & Ho).
    rewrite Hsig, Hl. case_decide; simpl; eexists _, c; split; try done.
    split; [|done]. apply elem_of_others. split; [congruence|done].
Qed.

Lemma wf_HasSlots_disconnectAll (this : Rid) (w w' : World) :
  wf w → HasSlots_disconnectAll this w = Some w' → wf w'.
Proof.
  intros Hwf Hrun.
  destruct (receivers w !! this) as [hs0|] eqn:Hr0;
    [|by unfold HasSlots_disconnectAll in Hrun; rewrite Hr0 in Hrun].
  destruct (HasSlots_disconnectAll_spec this w hs0 Hwf Hr0)
    as (w1 & Hrun' & Hrec & _).
  assert (w1 = w') as -> by congruence.
  replace w' with (mkWorld (receivers w') (signals w') (trace w'))
    by (by destruct w').
  apply (HasSlots_disconnectAll_wf this w w' hs0); try done.
  - intros r hs Hr. rewrite Hrec in Hr.
    apply lookup_insert_Some in Hr as [[<- <-]|[? ?]]; [by left|by right].
  - intros r hs Hne Hr. rewrite Hrec. by rewrite lookup_insert_ne.
Qed.

Lemma wf_HasSlots_destroy (this : Rid) (w w' : World) :
  wf w → HasSlots_destroy this w = Some w' → wf w'.
Proof.
  intros Hwf. unfold HasSlots_destroy.
  destruct (HasSlots_disconnectAll this w) as [w1|] eqn:Hrun; [|done]. simpl.
  intros [= <-].
  destruct (receivers w !! this) as [hs0|] eqn:Hr0;
    [|by unfold HasSlots_disconnectAll in Hrun; rewrite Hr0 in Hrun].
  destruct (HasSlots_disconnectAll_spec this w hs0 Hwf Hr0)
    as (w1' & Hrun' & Hrec & _).
  assert (w1' = w1) as -> by congruence.
  apply (HasSlots_disconnectAll_wf this w w1 hs0); try done.
  - intros r hs Hr. rewrite Hrec in Hr.
    apply lookup_delete_Some in Hr as [Hne Hr].
    rewrite lookup_insert_ne in Hr by done. by right.
  - intros r hs Hne Hr. rewrite Hrec.
    rewrite lookup_delete_ne by done. by rewrite lookup_insert_ne.
Qed.

Lemma aligned_no_alias (src this : Rid) (w : World) :
  aligned_to src w → src ≠ this → no_alias src this w.
Proof.
  intros Ha Hne e l c Hl Hc Ho.
  rewrite object_duplicate_aligned by (by apply (Ha e l c)). congruence.
Qed.

(** The copy constructor of [HasSlots] in a store that satisfies the
    invariant, when no copy points at [src]: the call returns, every sender
    of [src] gets a copy of each of its connections to [src], at the end of
    its list, and [this] has the senders and the flag of [src]. *)
Lemma HasSlots_copy_spec (src this : Rid) (w : World) (hs : HasSlots) :
  wf w → receivers w !! src = Some hs → receivers w !! this = None →
  no_alias src this w →
  ∃ w', HasSlots_copy src this w = Some w'
    ∧ receivers w'
      = <[this:=mkHasSlots (senders hs) (active hs)]> (receivers w)
    ∧ trace w'
      = trace w
        ++ ((λ i, EvDuplicateSlot i src this) <$> elements (senders hs))
    ∧ ∀ e, signals w' !! e
           = if decide (e ∈ senders hs)
             then with_copies src this <$> signals w !! e
             else signals w !! e.
Proof.
  intros Hwf Hr Hfree Hno.
  destruct (HasSlots_copy_loop_spec src this (elements (senders hs)) ∅ w
              (λ i l c _, Hno i l c)
              (NoDup_elements _) (wf_senders_alive w src hs Hwf Hr))
    as (w1 & Hrun & Hrec & Htr & Hsig).
  unfold HasSlots_copy. rewrite Hr. simpl. rewrite Hfree, Hrun. simpl.
  eexists. split; [done|]. unfold set_receiver; simpl.
  split_and!.
  - rewrite Hrec. do 2 f_equal.
    rewrite list_to_set_elements_L. set_solver.
  - done.
  - intros e. rewrite Hsig.
    destruct (decide (e ∈ elements (senders hs))) as [Hin|Hn];
      case_decide as Hd; try done; exfalso.
    + apply Hd. by apply elem_of_elements.
    + apply Hn. by apply elem_of_elements.
Qed.

(** When the copy constructor returns, no copy points at [src]. *)
Lemma HasSlots_copy_no_alias (src this : Rid) (w w' : World) :
  wf w → HasSlots_copy src this w = Some w' → no_alias src this w.
Proof.
  intros Hwf Hrun e l c Hl Hc Ho Hhit.
  destruct (wf_conn w Hwf e l c Hl Hc) as (hs & Hhs & He).
  rewrite Ho in Hhs. unfold HasSlots_copy in Hrun.
  rewrite Hhs in Hrun. simpl in Hrun.
  destruct (receivers w !! this); [done|].
  rewrite (HasSlots_copy_loop_alias src this _ _ w e l c) in Hrun; try done.
  by apply elem_of_elements.
Qed.

(** The copy constructor keeps the invariant when the connections to [src]
    are bound to classes with [HasSlots] at offset 0: the copies then point
    at [this]. *)
Lemma wf_HasSlots_copy (src this : Rid) (w w' : World) :
  wf w → aligned_to src w → HasSlots_copy src this w = Some w' → wf w'.
Proof.
  intros Hwf Ha Hrun.
  destruct (receivers w !! src) as [hs0|] eqn:Hr0;
    [|by unfold HasSlots_copy in Hrun; rewrite Hr0 in Hrun].
  destruct (receivers w !! this) as [?|] eqn:Hfree;
    [by unfold HasSlots_copy in Hrun; rewrite Hr0 in Hrun; simpl in Hrun;
        rewrite Hfree in Hrun|].
  destruct (HasSlots_copy_spec src this w hs0 Hwf Hr0 Hfree)
    as (w1 & Hrun' & Hrec & _ & Hsig);
    [by apply (HasSlots_copy_no_alias src this w w')|].
  assert (w1 = w') as -> by congruence.
  destruct Hwf as [Hc Hb]. split.
  - intros e l c Hl Hin. rewrite Hsig in Hl. rewrite Hrec.
    assert ((e ∈ senders hs0 ∧ object c = this)
            ∨ ∃ l1, signals w !! e = Some l1 ∧ c ∈ l1)
      as [[He Ho]|(l1 & Hl1 & Hin1)].
    { case_decide as Hd; [|by eauto].
      destruct (signals w !! e) as [l1|] eqn:Hl1; [|done].
      injection Hl as <-. apply elem_of_app in Hin as [?|Hin]; [by eauto|].
      apply list_elem_of_fmap in Hin as (c' & -> & Hc').
      apply elem_of_targets in Hc' as [Ho' Hc']. left. split; [done|].
      apply object_duplicate_aligned. by apply (Ha e l1 c'). }
    + rewrite Ho, lookup_insert_eq. by eexists.
    + destruct (Hc e l1 c Hl1 Hin1) as (hs & Hhs & He).
      exists hs. split; [|done]. rewrite lookup_insert_ne; [done|]. congruence.
  - intros r hs e Hr He. rewrite Hrec in Hr. rewrite Hsig.
    assert (∃ r1 hs1 l c, receivers w !! r1 = Some hs1 ∧ e ∈ senders hs1
              ∧ signals w !! e = Some l ∧ c ∈ l ∧ object c = r1
              ∧ (r1 = r ∨ (r = this ∧ r1 = src ∧ hs1 = hs0)))
      as (r1 & hs1 & l & c & Hr1 & He1 & Hl & Hin & Ho & Hcase).
    { apply lookup_insert_Some in Hr as [[<- <-]|[_ Hr]].
      - simpl in He. destruct (Hb src hs0 e Hr0 He) as (l & c & ? & ? & ?).
        exists src, hs0, l, c. split_and!; try done. by right.
      - destruct (Hb r hs e Hr He) as (l & c & ? & ? & ?).
        exists r, hs, l, c. split_and!; try done. by left. }
    rewrite Hl. destruct Hcase as [<-|(-> & -> & ->)].
    + case_decide; simpl; eexists _, c; split; try done.
      split; [|done]. apply elem_of_app. by left.
    + rewrite decide_True by done. simpl.
      eexists _, (duplicate c this). split; [done|]. split.
      * apply elem_of_app. right. apply list_elem_of_fmap. exists c.
        split; [done|]. by apply elem_of_targets.
      * apply object_duplicate_aligned. by apply (Ha e l c).
Qed.

(** The copy constructor of [SignalBaseTyped] in a store that satisfies the
    invariant: the call returns, [this] has the list of [src], and every
    receiver of that list was told, once for each connection. *)
Lemma SignalBaseTyped_copy_spec (src this : Eid) (w : World)
    (l : list Connection) :
  wf w → signals w !! src = Some l → signals w !! this = None →
  ∃ w', SignalBaseTyped_copy src this w = Some w'
    ∧ signals w' = <[this:=l]> (signals w)
    ∧ trace w' = trace w ++ ((λ c, EvSignalConnect (object c) this) <$> l)
    ∧ ∀ r, receivers w' !! r
           = if decide (r ∈ object <$> l)
             then add_sender this <$> receivers w !! r
             else receivers w !! r.
Proof.
  intros Hwf Hl Hfree.
  destruct (SignalBaseTyped_copy_loop_spec this l [] w
              (wf_targets_alive w src l Hwf Hl))
    as (w1 & Hrun & Hsig & Htr & Hrec).
  unfold SignalBaseTyped_copy. rewrite Hl. simpl. rewrite Hfree, Hrun. simpl.
  eexists. split; [done|]. unfold set_signal; simpl.
  by rewrite Hsig.
Qed.

Lemma wf_SignalBaseTyped_copy (src this : Eid) (w w' : World) :
  wf w → SignalBaseTyped_copy src this w = Some w' → wf w'.
Proof.
  intros Hwf Hrun.
  destruct (signals w !! src) as [l0|] eqn:Hl0;
    [|by unfold SignalBaseTyped_copy in Hrun; rewrite Hl0 in Hrun].
  destruct (signals w !! this) as [?|] eqn:Hfree;
    [by unfold SignalBaseTyped_copy in Hrun; rewrite Hl0 in Hrun;
        simpl in Hrun; rewrite Hfree in Hrun|].
  destruct (SignalBaseTyped_copy_spec src this w l0 Hwf Hl0 Hfree)
    as (w1 & Hrun' & Hsig & _ & Hrec).
  assert (w1 = w') as -> by congruence.
  destruct Hwf as [Hc Hb]. split.
  - intros e l c Hl Hin. rewrite Hsig in Hl. rewrite Hrec.
    assert (∃ e1, signals w !! e1 = Some l ∧ (e1 = e ∨ (e = this ∧ l = l0)))
      as (e1 & Hl1 & Hcase).
    { apply lookup_insert_Some in Hl as [[<- <-]|[_ Hl]].
      - exists src. split; [done|]. by right.
      - exists e. split; [done|]. by left. }
    destruct (Hc e1 l c Hl1 Hin) as (hs & Hhs & He). rewrite Hhs.
    destruct Hcase as [<-|[-> ->]].
    + case_decide; simpl; eexists; split; try done. simpl. set_solver.
    + rewrite decide_True by (apply list_elem_of_fmap; by exists c).
      simpl. eexists; split; [done|]. simpl. set_solver.
  - intros r hs e Hr He. rewrite Hrec in Hr. rewrite Hsig.
    assert ((r ∈ object <$> l0 ∧ e = this)
            ∨ ∃ hs1, receivers w !! r = Some hs1 ∧ e ∈ senders hs1)
      as [[Hin ->]|(hs1 & Hr1 & He1)].
    { case_decide as Hd; [|by eauto].
      destruct (receivers w !! r) as [hs1|]; [|done].
      injection Hr as <-. simpl in He.
      apply elem_of_union in He as [He|He]; [|by eauto].
      apply elem_of_singleton in He. by left. }
    + apply list_elem_of_fmap in Hin as (c & -> & Hin).
      exists l0, c. by rewrite lookup_insert_eq.
    + destruct (Hb r hs1 e Hr1 He1) as (l & c & Hl & Hin & Ho).
      exists l, c. split; [|done]. rewrite lookup_insert_ne; [done|].
      congruence.
Qed.

(** ** The stores a client can reach *)

(** Every call keeps the invariant, the copy of a receiver when the
    connections to the source are bound to classes with [HasSlots] at
    offset 0. *)
Lemma wf_call (c : Call) (w w' : World) :
  wf w →
  (∀ src this, c = CallCopyReceiver src this → aligned_to src w) →
  call c w = Some w' → wf w'.
Proof.
  intros Hwf Ha. destruct c; simpl.
  - by apply wf_HasSlots_new.
  - by apply wf_SignalBaseTyped_new.
  - by apply wf_connect.
  - by apply wf_disconnect.
  - by apply wf_SignalBaseTyped_disconnectAll.
  - by apply wf_HasSlots_disconnectAll.
  - by apply wf_setActive.
  - apply wf_HasSlots_copy; [done|]. by apply (Ha src this).
  - by apply wf_SignalBaseTyped_copy.
  - by apply wf_HasSlots_destroy.
  - by apply wf_SignalBaseTyped_destroy.
Qed.

Lemma wf_run (cs : list Call) (w w' : World) :
  copy_free cs = true → wf w → run cs w = Some w' → wf w'.
Proof.
  revert w. induction cs as [|c cs IH]; intros w Hfree Hwf; simpl.
  - by intros [= <-].
  - simpl in Hfree. apply andb_prop in Hfree as [Hc Hfree].
    destruct (call c w) as [w1|] eqn:Hcall; [|done]. simpl.
    apply IH; [done|]. apply (wf_call c w); [done| |done].
    intros src this ->. done.
Qed.

Lemma wf_run_connect_calls (e : Eid) (slots : list Connection)
    (w w' : World) :
  wf w → run (connect_calls e slots) w = Some w' → wf w'.
Proof.
  apply wf_run. unfold connect_calls. by induction slots.
Qed.

Lemma wf_after (cs : list Call) : copy_free cs = true → wf (after cs).
Proof.
  intros Hfree. unfold after.
  destruct (run cs empty_world) as [w|] eqn:Hrun; simpl.
  - apply (wf_run cs empty_world); [done|apply wf_empty|done].
  - apply wf_empty.
Qed.

Lemma wf_world_a : wf world_a.
Proof. by apply wf_after. Qed.

Lemma wf_world_b : wf world_b.
Proof. by apply wf_after. Qed.

Lemma wf_world_c : wf world_c.
Proof. by apply wf_after. Qed.

Lemma wf_world_d : wf world_d.
Proof. by apply wf_after. Qed.

Lemma wf_world_e : wf world_e.
Proof. by apply wf_after. Qed.

Lemma wf_world_f : wf world_f.
Proof. by apply wf_after. Qed.

(** ** The loop of [shoot] *)

Lemma eligible_ext (w w' : World) (l : list Connection) :
  receivers w' = receivers w → eligible w' l = eligible w l.
Proof.
  intros H. unfold eligible, isActive. by rewrite H.
Qed.

Lemma eligible_cons_true (w : World) (c : Connection) (l : list Connection) :
  isActive (object c) w = Some true → eligible w (c :: l) = c :: eligible w l.
Proof. intros ?. unfold eligible. by rewrite filter_cons_True. Qed.

Lemma eligible_cons_false (w : World) (c : Connection) (l : list Connection) :
  isActive (object c) w = Some false → eligible w (c :: l) = eligible w l.
Proof.
  intros H. unfold eligible. rewrite filter_cons_False; [done|].
  unfold getDestination. by rewrite H.
Qed.

Lemma logged_nil (w : World) : logged [] w = w.
Proof. destruct w. unfold logged. simpl. by rewrite app_nil_r. Qed.

Lemma logged_log (ev : Event) (evs : list Event) (w : World) :
  logged evs (log ev w) = logged (ev :: evs) w.
Proof. unfold logged, log. simpl. by rewrite <- app_assoc. Qed.

Lemma since_logged (evs : list Event) (w : World) : since w (logged evs w) = evs.
Proof. unfold since, logged. simpl. by rewrite drop_app_length. Qed.

Lemma since_trace (w w' : World) (evs : list Event) :
  trace w' = trace w ++ evs → since w w' = evs.
Proof. intros H. unfold since. by rewrite H, drop_app_length. Qed.

Lemma eligible_log (ev : Event) (w : World) (l : list Connection) :
  eligible (log ev w) l = eligible w l.
Proof. by apply eligible_ext. Qed.

Lemma elem_of_eligible (w : World) (c : Connection) (l : list Connection) :
  c ∈ eligible w l ↔ isActive (object c) w = Some true ∧ c ∈ l.
Proof. unfold eligible. by rewrite list_elem_of_filter. Qed.

Lemma eligible_app (w : World) (l1 l2 : list Connection) :
  eligible w (l1 ++ l2) = eligible w l1 ++ eligible w l2.
Proof. apply filter_app. Qed.

Section ShootFacts.
Context {Args UState Exn : Type}.
Variable slot_body : Rid → Fid → Args → UState → UState * option Exn.

(** [shoot] returns when every receiver of the list is alive.  The slots it
    has called are the first ones of the eligible connections, in their
    order; they are all of them unless a slot threw. *)
Lemma shoot_loop_total (arguments : Args) (it : list Connection) (w : World)
    (u : UState) :
  (∀ c, c ∈ it → is_Some (receivers w !! object c)) →
  ∃ fired rest u' x,
    eligible w it = fired ++ rest
    ∧ shoot_loop slot_body arguments it w u
      = Some (logged (shot <$> fired) w, u', x)
    ∧ (x = None → rest = []).
Proof.
  revert w u. induction it as [|c it IH]; intros w u Halive.
  - exists [], [], u, None. simpl. by rewrite logged_nil.
  - destruct (Halive c) as [hs Hhs]; [by left|].
    assert (∀ c', c' ∈ it → is_Some (receivers w !! object c')) as Halive'.
    { intros c' Hc'. apply Halive. by right. }
    simpl. unfold getDestination, isActive at 1. rewrite Hhs. simpl.
    destruct (active hs) eqn:Ha.
    + assert (isActive (object c) w = Some true) as Hact.
      { unfold isActive. by rewrite Hhs, <- Ha. }
      rewrite eligible_cons_true by done.
      unfold Connection_shoot.
      destruct (slot_body (object c) (function c) arguments u) as [u1 [x|]].
      * exists [c], (eligible w it), u1, (Some x). done.
      * destruct (IH (log (shot c) w) u1 Halive')
          as (fired & rest & u' & x & Hel & Hrun & Hx).
        exists (c :: fired), rest, u', x. rewrite eligible_log in Hel.
        split; [by rewrite Hel|]. split; [|done].
        unfold shot at 1 in Hrun. rewrite Hrun. by rewrite logged_log.
    + assert (isActive (object c) w = Some false) as Hact.
      { unfold isActive. by rewrite Hhs, <- Ha. }
      rewrite eligible_cons_false by done. by apply IH.
Qed.

(** When no slot throws, all the eligible connections are called. *)
Lemma shoot_loop_quiet (arguments : Args) (it : list Connection) (w : World)
    (u : UState) :
  (∀ c, c ∈ it → is_Some (receivers w !! object c)) →
  quiet slot_body arguments (eligible w it) u →
  shoot_loop slot_body arguments it w u
  = Some (logged (shot <$> eligible w it) w,
          run_slots slot_body arguments (eligible w it) u, None).
Proof.
  revert w u. induction it as [|c it IH]; intros w u Halive Hq.
  - simpl. by rewrite logged_nil.
  - destruct (Halive c) as [hs Hhs]; [by left|].
    assert (∀ c', c' ∈ it → is_Some (receivers w !! object c')) as Halive'.
    { intros c' Hc'. apply Halive. by right. }
    simpl. unfold getDestination, isActive at 1. rewrite Hhs. simpl.
    destruct (active hs) eqn:Ha.
    + assert (isActive (object c) w = Some true) as Hact.
      { unfold isActive. by rewrite Hhs, <- Ha. }
      rewrite eligible_cons_true in Hq |- * by done.
      destruct Hq as [Hx Hq]. unfold Connection_shoot. simpl.
      destruct (slot_body (object c) (function c) arguments u) as [u1 x].
      simpl in Hx, Hq. subst x.
      rewrite IH by (done || by rewrite eligible_log).
      by rewrite eligible_log, logged_log.
    + assert (isActive (object c) w = Some false) as Hact.
      { unfold isActive. by rewrite Hhs, <- Ha. }
      rewrite eligible_cons_false in Hq |- * by done. by apply IH.
Qed.

(** When the slot of [c] is the first that throws, the slots before it and
    that of [c] have been called, no other one, and the exception is the
    result. *)
Lemma shoot_loop_throw (arguments : Args) (it pre post : list Connection)
    (c : Connection) (w : World) (u u' : UState) (x : Exn) :
  (∀ c', c' ∈ it → is_Some (receivers w !! object c')) →
  eligible w it = pre ++ c :: post →
  quiet slot_body arguments pre u →
  slot_body (object c) (function c) arguments
    (run_slots slot_body arguments pre u) = (u', Some x) →
  shoot_loop slot_body arguments it w u
  = Some (logged (shot <$> pre ++ [c]) w, u', Some x).
Proof.
  revert pre w u. induction it as [|c0 it IH]; intros pre w u Halive Hel Hq Hx.
  - by destruct pre.
  - destruct (Halive c0) as [hs Hhs]; [by left|].
    assert (∀ c', c' ∈ it → is_Some (receivers w !! object c')) as Halive'.
    { intros c' Hc'. apply Halive. by right. }
    simpl. unfold getDestination, isActive at 1. rewrite Hhs. simpl.
    destruct (active hs) eqn:Ha.
    + assert (isActive (object c0) w = Some true) as Hact.
      { unfold isActive. by rewrite Hhs, <- Ha. }
      rewrite eligible_cons_true in Hel by done.
      unfold Connection_shoot.
      destruct pre as [|c1 pre]; simpl in Hel, Hx, Hq.
      * injection Hel as <- Hel. by rewrite Hx.
      * injection Hel as <- Hel. destruct Hq as [Hn Hq].
        destruct (slot_body (object c0) (function c0) arguments u) as [u1 x1].
        simpl in Hn, Hq, Hx. subst x1.
        rewrite (IH pre) by (done || by rewrite eligible_log).
        by rewrite logged_log.
    + assert (isActive (object c0) w = Some false) as Hact.
      { unfold isActive. by rewrite Hhs, <- Ha. }
      rewrite eligible_cons_false in Hel by done. by apply IH.
Qed.
(** An emit over a list goes through a first part whose receivers are alive
    and whose slots all return, and on to the rest. *)
Lemma shoot_loop_app_quiet (arguments : Args) (l1 l2 : list Connection)
    (w : World) (u : UState) :
  (∀ c, c ∈ l1 → is_Some (receivers w !! object c)) →
  quiet slot_body arguments (eligible w l1) u →
  shoot_loop slot_body arguments (l1 ++ l2) w u
  = shoot_loop slot_body arguments l2 (logged (shot <$> eligible w l1) w)
      (run_slots slot_body arguments (eligible w l1) u).
Proof.
  revert w u. induction l1 as [|c l1 IH]; intros w u Halive Hq.
  - simpl. by rewrite logged_nil.
  - destruct (Halive c) as [hs Hhs]; [by left|].
    assert (∀ c', c' ∈ l1 → is_Some (receivers w !! object c')) as Halive'.
    { intros c' Hc'. apply Halive. by right. }
    simpl. unfold getDestination, isActive at 1. rewrite Hhs. simpl.
    destruct (active hs) eqn:Ha.
    + assert (isActive (object c) w = Some true) as Hact.
      { unfold isActive. by rewrite Hhs, <- Ha. }
      rewrite eligible_cons_true in Hq |- * by done.
      destruct Hq as [Hx Hq]. unfold Connection_shoot. simpl.
      destruct (slot_body (object c) (function c) arguments u) as [u1 x].
      simpl in Hx, Hq. subst x.
      rewrite IH by (done || by rewrite eligible_log).
      by rewrite eligible_log, logged_log.
    + assert (isActive (object c) w = Some false) as Hact.
      { unfold isActive. by rewrite Hhs, <- Ha. }
      rewrite eligible_cons_false in Hq |- * by done. by apply IH.
Qed.

(** The slots an emit that returns has called are slots of connections of
    the list, whether or not the receivers of the list are all alive. *)
Lemma shoot_loop_fired (arguments : Args) (it : list Connection) (w w' : World)
    (u u' : UState) (x : option Exn) :
  shoot_loop slot_body arguments it w u = Some (w', u', x) →
  ∃ fired, w' = logged (shot <$> fired) w ∧ ∀ c, c ∈ fired → c ∈ it.
Proof.
  revert w u. induction it as [|c it IH]; intros w u Hrun; simpl in Hrun.
  - injection Hrun as <- _ _. exists []. by rewrite logged_nil.
  - destruct (isActive (getDestination c) w) as [[|]|]; simpl in Hrun;
      [| |done].
    + unfold Connection_shoot in Hrun.
      destruct (slot_body (object c) (function c) arguments u) as [u1 [x1|]].
      * injection Hrun as <- _ _. exists [c]. split; [done|].
        intros c' Hc'. apply list_elem_of_singleton in Hc' as ->. by left.
      * destruct (IH _ _ Hrun) as (fired & -> & Hsub).
        exists (c :: fired). split; [by rewrite logged_log|].
        intros c' Hc'. apply elem_of_cons in Hc' as [->|Hc']; [by left|].
        right. by apply Hsub.
    + destruct (IH _ _ Hrun) as (fired & -> & Hsub).
      exists fired. split; [done|]. intros c' Hc'. right. by apply Hsub.
Qed.

(** An emit changes nothing but the log, so it keeps the invariant. *)
Lemma wf_shoot (this : Eid) (arguments : Args) (w w' : World)
    (u u' : UState) (x : option Exn) :
  wf w → shoot slot_body this arguments w u = Some (w', u', x) → wf w'.
Proof.
  intros Hwf. unfold shoot.
  destruct (signals w !! this) as [l|] eqn:Hl; [|done]. simpl.
  destruct (shoot_loop_total arguments l w u
              (wf_targets_alive w this l Hwf Hl))
    as (fired & _ & u1 & x1 & _ & Hrun & _).
  rewrite Hrun. intros [= <- _ _].
  destruct Hwf as [Hc Hb]. by split.
Qed.
End ShootFacts.

(** ** The two ways a signal drops all its connections *)

Lemma SignalBaseTyped_disconnectAll_spec (this : Eid) (w : World)
    (l : list Connection) :
  wf w → signals w !! this = Some l →
  ∃ w', SignalBaseTyped_disconnectAll this w = Some w'
    ∧ signals w' = <[this:=[]]> (signals w)
    ∧ trace w' = trace w ++ ((λ c, EvSignalDisconnect (object c) this) <$> l)
    ∧ ∀ r, receivers w' !! r
           = if decide (r ∈ object <$> l)
             then drop_sender this <$> receivers w !! r
             else receivers w !! r.
Proof.
  intros Hwf Hl.
  destruct (forget_loop_spec this l w (wf_targets_alive w this l Hwf Hl))
    as (w1 & Hrun & Hsig & Htr & Hrec).
  unfold SignalBaseTyped_disconnectAll. rewrite Hl. simpl. rewrite Hrun. simpl.
  eexists. split; [done|]. unfold set_signal; simpl. by rewrite Hsig.
Qed.

Lemma SignalBaseTyped_destroy_spec (this : Eid) (w : World)
    (l : list Connection) :
  wf w → signals w !! this = Some l →
  ∃ w', SignalBaseTyped_destroy this w = Some w'
    ∧ signals w' = delete this (signals w)
    ∧ trace w' = trace w ++ ((λ c, EvSignalDisconnect (object c) this) <$> l)
    ∧ ∀ r, receivers w' !! r
           = if decide (r ∈ object <$> l)
             then drop_sender this <$> receivers w !! r
             else receivers w !! r.
Proof.
  intros Hwf Hl.
  destruct (forget_loop_spec this l w (wf_targets_alive w this l Hwf Hl))
    as (w1 & Hrun & Hsig & Htr & Hrec).
  unfold SignalBaseTyped_destroy. rewrite Hl. simpl. rewrite Hrun. simpl.
  eexists. split; [done|]. simpl. by rewrite Hsig.
Qed.

Lemma HasSlots_destroy_spec (this : Rid) (w : World) (hs : HasSlots) :
  wf w → receivers w !! this = Some hs →
  ∃ w', HasSlots_destroy this w = Some w'
    ∧ receivers w' = delete this (receivers w)
    ∧ trace w'
      = trace w ++ ((λ i, EvDisconnectSlot i this) <$> elements (senders hs))
    ∧ ∀ e, signals w' !! e
           = if decide (e ∈ senders hs)
             then others this <$> signals w !! e
             else signals w !! e.
Proof.
  intros Hwf Hr.
  destruct (HasSlots_disconnectAll_spec this w hs Hwf Hr)
    as (w1 & Hrun & Hrec & Htr & Hsig).
  unfold HasSlots_destroy. rewrite Hrun. simpl.
  eexists. split; [done|]. simpl. rewrite Hrec.
  by rewrite delete_insert_eq.
Qed.

(** No signal holds a connection to a receiver that is not alive. *)
Lemma wf_no_dangling (w : World) (e : Eid) (l : list Connection) (r : Rid) :
  wf w → signals w !! e = Some l → receivers w !! r = None →
  targets r l = [].
Proof.
  intros Hwf Hl Hr. apply targets_nil_iff. intros c Hin Ho.
  destruct (wf_targets_alive w e l Hwf Hl c Hin) as [hs Hhs]. congruence.
Qed.

(** ** Facts used by several claims *)

Lemma eligible_same (w w' : World) (l : list Connection) :
  (∀ c, c ∈ l → isActive (object c) w' = isActive (object c) w) →
  eligible w' l = eligible w l.
Proof.
  induction l as [|c l IH]; intros H; [done|].
  assert (eligible w' l = eligible w l) as IH'.
  { apply IH. intros c' Hc'. apply H. by right. }
  assert (isActive (object c) w' = isActive (object c) w) as Hc
    by (apply H; by left).
  unfold eligible, getDestination in *.
  rewrite !filter_cons, Hc, IH'. by repeat case_decide.
Qed.

Lemma eligible_all (w : World) (l : list Connection) :
  (∀ c, c ∈ l → isActive (object c) w = Some true) → eligible w l = l.
Proof.
  induction l as [|c l IH]; intros H; [done|].
  rewrite eligible_cons_true by (apply H; by left).
  rewrite IH; [done|]. intros c' Hc'. apply H. by right.
Qed.

Lemma eligible_none (w : World) (l : list Connection) :
  (∀ c, c ∈ l → isActive (object c) w ≠ Some true) → eligible w l = [].
Proof.
  induction l as [|c l IH]; intros H; [done|].
  unfold eligible in *. rewrite filter_cons_False by (apply H; by left).
  apply IH. intros c' Hc'. apply H. by right.
Qed.

(** Connecting the slots of a list in turn appends them in that order, and
    changes no [active] flag. *)
Lemma run_connect_calls (e : Eid) (slots l0 : list Connection) (w : World) :
  signals w !! e = Some l0 →
  (∀ c, c ∈ slots → is_Some (receivers w !! object c)) →
  ∃ w', run (connect_calls e slots) w = Some w'
    ∧ signals w' !! e = Some (l0 ++ slots)
    ∧ (∀ r, isActive r w' = isActive r w)
    ∧ trace w' = trace w ++ ((λ c, EvSignalConnect (object c) e) <$> slots).
Proof.
  revert l0 w. induction slots as [|c slots IH]; intros l0 w Hl0 Halive.
  - exists w. simpl. by rewrite !app_nil_r.
  - destruct (Halive c) as [hs Hhs]; [by left|].
    simpl. rewrite (connect_spec _ _ _ _ l0 hs) by done. simpl.
    set (w1 := mkWorld _ _ _).
    assert (∀ r, isActive r w1 = isActive r w) as Hact.
    { intros r. unfold isActive. subst w1; simpl.
      destruct (decide (object c = r)) as [<-|Hne].
      - by rewrite lookup_insert_eq, Hhs.
      - by rewrite lookup_insert_ne. }
    destruct (IH (l0 ++ [c]) w1) as (w' & Hrun & Hl & Ha & Htr).
    { subst w1; simpl. rewrite lookup_insert_eq. by destruct c. }
    { intros c' Hc'. specialize (Hact (object c')). unfold isActive in Hact.
      destruct (Halive c') as [hs' Hhs']; [by right|].
      rewrite Hhs' in Hact. by destruct (receivers w1 !! object c'). }
    exists w'. split_and!; [done| | |].
    + by rewrite Hl, <- app_assoc.
    + intros r. by rewrite Ha.
    + rewrite Htr. subst w1; simpl. by rewrite <- app_assoc.
Qed.

Lemma isActive_alive (r : Rid) (w : World) (a : bool) :
  isActive r w = Some a → is_Some (receivers w !! r).
Proof. unfold isActive. destruct (receivers w !! r); [by eexists|done]. Qed.

(** After a receiver was copied, the connections a signal had before are
    eligible as before, and the copies are eligible when the source is
    active. *)
Lemma HasSlots_copy_eligible (w w' : World) (src this : Rid) (hs : HasSlots)
    (e : Eid) (l : list Connection) :
  wf w → receivers w !! this = None → signals w !! e = Some l →
  (∀ c, c ∈ l → object c = src → base_offset (function c) = 0) →
  receivers w' = <[this:=mkHasSlots (senders hs) (active hs)]> (receivers w) →
  eligible w' (with_copies src this l)
  = eligible w l
    ++ (if active hs then (λ c, duplicate c this) <$> targets src l else []).
Proof.
  intros Hwf Hfree Hl Ha Hrec.
  assert (∀ c, c ∈ (λ c, duplicate c this) <$> targets src l →
            object c = this) as Hcopies.
  { intros c Hc. apply list_elem_of_fmap in Hc as (c' & -> & Hc').
    apply elem_of_targets in Hc' as [Ho' Hc'].
    apply object_duplicate_aligned. by apply Ha. }
  unfold with_copies. rewrite eligible_app. f_equal.
  - apply eligible_same. intros c Hc. unfold isActive. rewrite Hrec.
    rewrite lookup_insert_ne; [done|]. intros Heq.
    destruct (wf_targets_alive w e l Hwf Hl c Hc) as [hs' Hhs'].
    by rewrite <- Heq, Hfree in Hhs'.
  - assert (isActive this w' = Some (active hs)) as Hact.
    { unfold isActive. by rewrite Hrec, lookup_insert_eq. }
    destruct (active hs).
    + apply eligible_all. intros c Hc. by rewrite (Hcopies c).
    + apply eligible_none. intros c Hc. rewrite (Hcopies c) by done.
      congruence.
Qed.

Lemma notifications_forget (r : Rid) (e : Eid) (l : list Connection) :
  notifications r e ((λ c, EvSignalDisconnect (object c) e) <$> l)
  = length (targets r l).
Proof.
  unfold notifications. induction l as [|c l IH]; [done|].
  rewrite fmap_cons, filter_cons.
  destruct (decide (object c = r)) as [Ho|Ho].
  - rewrite decide_True by (by rewrite Ho).
    rewrite targets_cons_eq by done. simpl. by rewrite IH.
  - rewrite decide_False by congruence.
    by rewrite targets_cons_ne.
Qed.

Lemma notifications_replicate (r : Rid) (e : Eid) (n : nat) :
  notifications r e (replicate n (EvSignalDisconnect r e)) = n.
Proof.
  unfold notifications. induction n as [|n IH]; [done|].
  simpl. rewrite filter_cons_True by done. simpl. by rewrite IH.
Qed.

Lemma calls_of_app (r : Rid) (f : Fid) (evs1 evs2 : list Event) :
  calls_of r f (evs1 ++ evs2) = calls_of r f evs1 + calls_of r f evs2.
Proof. unfold calls_of. by rewrite filter_app, length_app. Qed.

(** * The claims *)

Section Claims.
Context {Args UState Exn : Type}.
Variable slot_body : Rid → Fid → Args → UState → UState * option Exn.

(** C1. Two-sided teardown.  Let the signal [E] hold a connection to the
    receiver [R].  Destroying [R] returns and leaves no connection to [R], in
    [E] and in every other signal, and a later emit on [E] returns without a
    call of a slot of [R].  Destroying [E] returns and takes [E] out of the
    sender set of [R] (and of every receiver), and destroying [R] after that
    returns without a call to [E]. *)
Theorem C1_two_sided_teardown (w : World) (E : Eid) (R : Rid)
    (l : list Connection) (c : Connection) :
  wf w → signals w !! E = Some l → c ∈ l → object c = R →
  (∃ w1, HasSlots_destroy R w = Some w1
     ∧ receivers w1 !! R = None
     ∧ signals w1 !! E = Some (others R l)
     ∧ (∀ e' l', signals w1 !! e' = Some l' → targets R l' = [])
     ∧ ∀ arguments u, ∃ w1' u' x,
         shoot slot_body E arguments w1 u = Some (w1', u', x)
         ∧ ∀ f, EvShoot R f ∉ since w1 w1')
  ∧ (∃ w2, SignalBaseTyped_destroy E w = Some w2
       ∧ signals w2 !! E = None
       ∧ (∀ r hs, receivers w2 !! r = Some hs → E ∉ senders hs)
       ∧ is_Some (receivers w2 !! R)
       ∧ ∃ w3, HasSlots_destroy R w2 = Some w3
           ∧ EvDisconnectSlot E R ∉ since w2 w3).
Proof.
  intros Hwf Hl Hin Ho.
  destruct (wf_conn w Hwf E l c Hl Hin) as (hs & Hhs & HE). rewrite Ho in Hhs.
  split.
  - destruct (HasSlots_destroy_spec R w hs Hwf Hhs)
      as (w1 & Hrun & Hrec & Htr & Hsig).
    assert (wf w1) as Hwf1 by (by apply (wf_HasSlots_destroy R w)).
    assert (receivers w1 !! R = None) as Hgone
      by (by rewrite Hrec, lookup_delete_eq).
    assert (signals w1 !! E = Some (others R l)) as Hl1.
    { by rewrite Hsig, decide_True, Hl. }
    exists w1. split_and!; try done.
    + intros e' l' Hl'. by apply (wf_no_dangling w1 e').
    + intros arguments u. unfold shoot. rewrite Hl1. simpl.
      destruct (shoot_loop_total slot_body arguments (others R l) w1 u
                  (wf_targets_alive w1 E _ Hwf1 Hl1))
        as (fired & rest & u' & x & Hel & Hshoot & _).
      eexists _, u', x. split; [done|]. intros f. rewrite since_logged.
      intros Hf. apply list_elem_of_fmap in Hf as (c' & Heq & Hc').
      assert (c' ∈ eligible w1 (others R l)) as Hc''.
      { rewrite Hel. apply elem_of_app. by left. }
      apply elem_of_eligible in Hc'' as [_ Hc''].
      apply elem_of_others in Hc'' as [Hne _].
      unfold shot in Heq. congruence.
  - destruct (SignalBaseTyped_destroy_spec E w l Hwf Hl)
      as (w2 & Hrun & Hsig & Htr & Hrec).
    assert (wf w2) as Hwf2 by (by apply (wf_SignalBaseTyped_destroy E w)).
    assert (signals w2 !! E = None) as Hgone
      by (by rewrite Hsig, lookup_delete_eq).
    assert (∀ r hs', receivers w2 !! r = Some hs' → E ∉ senders hs') as Hout.
    { intros r hs' Hr HE'.
      destruct (wf_back w2 Hwf2 r hs' E Hr HE') as (l' & _ & Hl' & _).
      congruence. }
    assert (receivers w2 !! R = Some (drop_sender E hs)) as HR2.
    { rewrite Hrec, decide_True, Hhs; [done|].
      apply list_elem_of_fmap. by exists c. }
    exists w2. split_and!; try done.
    destruct (HasSlots_destroy_spec R w2 _ Hwf2 HR2)
      as (w3 & Hrun3 & _ & Htr3 & _).
    exists w3. split; [done|]. rewrite (since_trace _ _ _ Htr3).
    intros Hf. apply list_elem_of_fmap in Hf as (i & Heq & Hi).
    apply elem_of_elements in Hi. simpl in Hi.
    injection Heq as <-. set_solver.
Qed.

(** C2. Emit order equals connect order.  A signal holds the connections
    [l0]; the slots of [slots], whose receivers are active, are connected to
    it in turn.  The list of the signal is then [l0] followed by [slots], and,
    when no slot throws, one emit calls the active connections of [l0] in the
    order of the list and then the slots of [slots] in the order in which
    they were connected, nothing else.  (With no connection at the start
    the calls are exactly [slots]; with [slots] empty this is the rule of
    emit for any list.) *)
Theorem C2_emit_order (w : World) (e : Eid) (l0 slots : list Connection)
    (arguments : Args) (u : UState) :
  wf w → signals w !! e = Some l0 →
  (∀ c, c ∈ slots → isActive (object c) w = Some true) →
  quiet slot_body arguments (eligible w l0 ++ slots) u →
  ∃ w', run (connect_calls e slots) w = Some w'
    ∧ signals w' !! e = Some (l0 ++ slots)
    ∧ eligible w' (l0 ++ slots) = eligible w l0 ++ slots
    ∧ ∃ w'', shoot slot_body e arguments w' u
             = Some (w'', run_slots slot_body arguments
                            (eligible w l0 ++ slots) u, None)
        ∧ since w' w'' = shot <$> (eligible w l0 ++ slots)
        ∧ signals w'' = signals w' ∧ receivers w'' = receivers w'.
Proof.
  intros Hwf Hl0 Hact Hq.
  destruct (run_connect_calls e slots l0 w Hl0) as (w' & Hrun & Hl & Ha & _).
  { intros c Hc. by apply (isActive_alive _ _ true), Hact. }
  assert (eligible w' (l0 ++ slots) = eligible w l0 ++ slots) as Hel.
  { rewrite eligible_app. f_equal.
    - by apply eligible_same.
    - apply eligible_all. intros c Hc. rewrite Ha. by apply Hact. }
  exists w'. split_and!; try done.
  assert (wf w') as Hwf' by (by apply (wf_run_connect_calls e slots w)).
  eexists. unfold shoot. rewrite Hl. simpl.
  rewrite shoot_loop_quiet.
  - rewrite Hel. split; [done|]. by rewrite since_logged.
  - by apply (wf_targets_alive w' e).
  - by rewrite Hel.
Qed.

(** C3. Deactivation gates delivery without removing connections.  Let the
    signal [E] hold a connection to [R].  [setActive(false)] on [R] returns
    and changes no list of connections and no sender set; after it, an emit on
    any signal returns without a call of a slot of [R]; [disconnect] on [E]
    still removes the connections to [R] and takes [E] out of the senders of
    [R]; and after [setActive(true)] the connection is eligible again, so an
    emit in which no slot throws calls it. *)
Theorem C3_deactivation (w : World) (E : Eid) (R : Rid) (l : list Connection)
    (c : Connection) (arguments : Args) (u : UState) :
  wf w → signals w !! E = Some l → c ∈ l → object c = R →
  ∃ w1, setActive R false w = Some w1
    ∧ signals w1 = signals w
    ∧ (∀ r, senders <$> receivers w1 !! r = senders <$> receivers w !! r)
    ∧ (∀ e' l', signals w1 !! e' = Some l' →
         ∃ w1' u' x, shoot slot_body e' arguments w1 u = Some (w1', u', x)
           ∧ ∀ f, EvShoot R f ∉ since w1 w1')
    ∧ (∃ w2 hs2, disconnect E R w1 = Some w2
         ∧ signals w2 !! E = Some (others R l)
         ∧ receivers w2 !! R = Some hs2 ∧ E ∉ senders hs2)
    ∧ ∃ w3, setActive R true w1 = Some w3
        ∧ signals w3 = signals w
        ∧ c ∈ eligible w3 l
        ∧ (quiet slot_body arguments (eligible w3 l) u →
           ∃ w3', shoot slot_body E arguments w3 u
                  = Some (w3', run_slots slot_body arguments
                                 (eligible w3 l) u, None)
             ∧ since w3 w3' = shot <$> eligible w3 l
             ∧ shot c ∈ since w3 w3').
Proof.
  intros Hwf Hl Hin Ho.
  destruct (wf_conn w Hwf E l c Hl Hin) as (hs & Hhs & HE). rewrite Ho in Hhs.
  unfold setActive at 1. rewrite Hhs. simpl.
  set (w1 := set_receiver R _ w).
  assert (setActive R false w = Some w1) as Hset
    by (unfold setActive; by rewrite Hhs).
  assert (wf w1) as Hwf1 by (by apply (wf_setActive R false w)).
  assert (receivers w1 !! R = Some (mkHasSlots (senders hs) false)) as HR1
    by (subst w1; simpl; by rewrite lookup_insert_eq).
  exists w1. split_and!; try done.
  - intros r. subst w1; simpl. destruct (decide (R = r)) as [<-|Hne].
    + by rewrite lookup_insert_eq, Hhs.
    + by rewrite lookup_insert_ne.
  - intros e' l' Hl'. unfold shoot. rewrite Hl'. simpl.
    destruct (shoot_loop_total slot_body arguments l' w1 u
                (wf_targets_alive w1 e' _ Hwf1 Hl'))
      as (fired & rest & u' & x & Hel & Hshoot & _).
    eexists _, u', x. split; [done|]. intros f. rewrite since_logged.
    intros Hf. apply list_elem_of_fmap in Hf as (c' & Heq & Hc').
    assert (c' ∈ eligible w1 l') as Hc''.
    { rewrite Hel. apply elem_of_app. by left. }
    apply elem_of_eligible in Hc'' as [Hact _].
    unfold shot in Heq. injection Heq as Heq _.
    unfold isActive in Hact. by rewrite <- Heq, HR1 in Hact.
  - destruct (disconnect_wf_spec E R w1 l Hwf1 Hl)
      as [[Hnil _]|(hs1 & _ & Hr1 & Heq)].
    { exfalso. by apply (proj1 (targets_nil_iff R l) Hnil c). }
    eexists _, _. split; [done|]. simpl.
    rewrite !lookup_insert_eq. split_and!; try done. simpl. set_solver.
  - unfold setActive. rewrite HR1. simpl.
    set (w3 := set_receiver R _ w1).
    assert (wf w3) as Hwf3 by (apply (wf_setActive R true w1); [done|];
      unfold setActive; by rewrite HR1).
    assert (c ∈ eligible w3 l) as Hc3.
    { apply elem_of_eligible. split; [|done]. unfold isActive. rewrite Ho.
      subst w3; simpl. by rewrite lookup_insert_eq. }
    exists w3. split_and!; try done.
    intros Hq. eexists. unfold shoot.
    assert (signals w3 !! E = Some l) as Hl3 by done.
    rewrite Hl3. simpl. rewrite shoot_loop_quiet; try done.
    + split; [done|]. rewrite since_logged. split; [done|].
      apply list_elem_of_fmap. by exists c.
    + by apply (wf_targets_alive w3 E).
Qed.

(** The copy constructor of a receiver where the connections to the source
    are bound to classes with [HasSlots] at offset 0.  Let [R1] be a live
    receiver and [R2] a free address.  The copy constructor returns; [R2]
    gets the sender set and the flag of [R1]; every sender of [R1] gets, for
    each of its connections to [R1], a connection to [R2] with the same slot;
    the other signals, the other receivers and [R1] itself are as before, and
    the connections to [R1] are all still there.  When [R1] is active, an
    emit in which no slot throws calls the slot on [R1] and on [R2]. *)
Lemma HasSlots_copy_aligned_clones (w : World) (R1 R2 : Rid) (hs : HasSlots)
    (arguments : Args) (u : UState) :
  wf w → aligned_to R1 w →
  receivers w !! R1 = Some hs → receivers w !! R2 = None →
  ∃ w', HasSlots_copy R1 R2 w = Some w'
    ∧ receivers w' !! R2 = Some (mkHasSlots (senders hs) (active hs))
    ∧ (∀ r, r ≠ R2 → receivers w' !! r = receivers w !! r)
    ∧ (∀ e l, signals w !! e = Some l → e ∈ senders hs →
         signals w' !! e
         = Some (l ++ ((λ c, duplicate c R2) <$> targets R1 l)))
    ∧ (∀ e, e ∉ senders hs → signals w' !! e = signals w !! e)
    ∧ ∀ e l c, signals w !! e = Some l → c ∈ l → object c = R1 →
        ∃ l', signals w' !! e = Some l'
          ∧ c ∈ l' ∧ duplicate c R2 ∈ l' ∧ object (duplicate c R2) = R2
          ∧ targets R1 l' = targets R1 l
          ∧ (active hs = true →
             quiet slot_body arguments (eligible w' l') u →
             ∃ w'', shoot slot_body e arguments w' u
                    = Some (w'', run_slots slot_body arguments
                                   (eligible w' l') u, None)
               ∧ shot c ∈ since w' w''
               ∧ shot (duplicate c R2) ∈ since w' w'').
Proof.
  intros Hwf Hal Hr Hfree.
  assert (R1 ≠ R2) as Hne by congruence.
  destruct (HasSlots_copy_spec R1 R2 w hs Hwf Hr Hfree)
    as (w' & Hrun & Hrec & _ & Hsig); [by apply aligned_no_alias|].
  assert (wf w') as Hwf' by (by apply (wf_HasSlots_copy R1 R2 w)).
  exists w'. split_and!; try done.
  - by rewrite Hrec, lookup_insert_eq.
  - intros r Hr2. by rewrite Hrec, lookup_insert_ne.
  - intros e l Hl He. by rewrite Hsig, decide_True, Hl.
  - intros e He. by rewrite Hsig, decide_False.
  - intros e l c Hl Hin Ho.
    destruct (wf_conn w Hwf e l c Hl Hin) as (hs' & Hhs' & He).
    rewrite Ho, Hr in Hhs'. injection Hhs' as <-.
    assert (signals w' !! e = Some (with_copies R1 R2 l)) as Hl'
      by (by rewrite Hsig, decide_True, Hl).
    assert (duplicate c R2 ∈ with_copies R1 R2 l) as Hdup.
    { apply elem_of_app. right. apply list_elem_of_fmap. exists c.
      split; [done|]. by apply elem_of_targets. }
    assert (object (duplicate c R2) = R2) as Hobj
      by (apply object_duplicate_aligned; by apply (Hal e l c)).
    assert (c ∈ with_copies R1 R2 l) as Hc by (apply elem_of_app; by left).
    exists (with_copies R1 R2 l). split_and!; try done.
    + unfold with_copies. rewrite targets_app, targets_duplicates.
      * by rewrite app_nil_r.
      * intros c' Hc'. apply elem_of_targets in Hc' as [Ho' Hc'].
        rewrite object_duplicate_aligned by (by apply (Hal e l c')).
        congruence.
    + intros Ha Hq. eexists. unfold shoot. rewrite Hl'. simpl.
      rewrite shoot_loop_quiet;
        [|by apply (wf_targets_alive w' e)|done].
      split; [done|]. rewrite since_logged.
      assert (∀ c', c' ∈ with_copies R1 R2 l →
                (object c' = R1 ∨ object c' = R2) →
                shot c' ∈ shot <$> eligible w' (with_copies R1 R2 l)) as Hshot.
      { intros c' Hc' Ho'. apply list_elem_of_fmap. exists c'.
        split; [done|]. apply elem_of_eligible. split; [|done].
        unfold isActive. rewrite Hrec. destruct Ho' as [->| ->].
        - by rewrite lookup_insert_ne, Hr, <- Ha.
        - by rewrite lookup_insert_eq, <- Ha. }
      split; apply Hshot; try done; [by left|by right].
Qed.

(** Where the copies go, under the same condition.  After the copy the list
    of a live signal [e] is its list [l] followed by the copies, which all
    point at [R2]: the connections of [l] keep their positions, and none of
    them points at [R2].  An emit in which no slot throws calls the active
    connections of [l] as before the copy, and the slots of [R2] after all
    of them. *)
Lemma HasSlots_copy_aligned_last (w : World) (R1 R2 : Rid) (hs : HasSlots)
    (e : Eid) (l : list Connection) (arguments : Args) (u : UState) :
  wf w → aligned_to R1 w →
  receivers w !! R1 = Some hs → receivers w !! R2 = None →
  signals w !! e = Some l →
  ∃ w' copies, HasSlots_copy R1 R2 w = Some w'
    ∧ copies = (λ c, duplicate c R2) <$> targets R1 l
    ∧ signals w' !! e = Some (l ++ copies)
    ∧ (∀ i c, l !! i = Some c → (l ++ copies) !! i = Some c)
    ∧ (∀ c, c ∈ copies → object c = R2)
    ∧ (∀ c, c ∈ l → object c ≠ R2)
    ∧ eligible w' (l ++ copies)
      = eligible w l ++ (if active hs then copies else [])
    ∧ (quiet slot_body arguments (eligible w' (l ++ copies)) u →
       ∃ w'', shoot slot_body e arguments w' u
              = Some (w'', run_slots slot_body arguments
                             (eligible w' (l ++ copies)) u, None)
         ∧ since w' w''
           = (shot <$> eligible w l)
             ++ (shot <$> (if active hs then copies else []))).
Proof.
  intros Hwf Hal Hr Hfree Hl.
  assert (R1 ≠ R2) as Hne by congruence.
  destruct (HasSlots_copy_spec R1 R2 w hs Hwf Hr Hfree)
    as (w' & Hrun & Hrec & _ & Hsig); [by apply aligned_no_alias|].
  assert (wf w') as Hwf' by (by apply (wf_HasSlots_copy R1 R2 w)).
  assert (signals w' !! e = Some (with_copies R1 R2 l)) as Hl'.
  { rewrite Hsig, Hl. case_decide as He; [done|]. simpl.
    unfold with_copies. replace (targets R1 l) with (@nil Connection).
    - by rewrite app_nil_r.
    - symmetry. apply targets_nil_iff. intros c Hc Ho.
      destruct (wf_conn w Hwf e l c Hl Hc) as (hs' & Hhs' & He').
      rewrite Ho, Hr in Hhs'. by injection Hhs' as <-. }
  assert (eligible w' (with_copies R1 R2 l)
          = eligible w l ++ (if active hs
                             then (λ c, duplicate c R2) <$> targets R1 l
                             else [])) as Hel.
  { apply (HasSlots_copy_eligible w w' R1 R2 hs e); try done.
    intros c Hc Ho. by apply (Hal e l c). }
  exists w', ((λ c, duplicate c R2) <$> targets R1 l).
  split_and!; try done.
  - intros i c Hi. by apply lookup_app_l_Some.
  - intros c Hc. apply list_elem_of_fmap in Hc as (c' & -> & Hc').
    apply elem_of_targets in Hc' as [Ho' Hc'].
    apply object_duplicate_aligned. by apply (Hal e l c').
  - intros c Hc Heq.
    destruct (wf_targets_alive w e l Hwf Hl c Hc) as [hs' Hhs'].
    by rewrite Heq, Hfree in Hhs'.
  - intros Hq. eexists. unfold shoot. rewrite Hl'. simpl.
    rewrite shoot_loop_quiet; [|by apply (wf_targets_alive w' e)|done].
    split; [done|]. rewrite since_logged. fold (with_copies R1 R2 l).
    by rewrite Hel, fmap_app.
Qed.

(** C4, where the code misses it.  Let the signal [e] hold connections to
    [R1], none of them bound to a class with [HasSlots] at offset 0, and let
    [R1] be copied to the free address [R2].  The copy constructor returns
    and [R2] lists [e], as the claim has it; but the copy of a connection
    [c] points [base_offset] beyond [R2], not at [R2]: [e] holds no
    connection to [R2] at all, and the store breaks the invariant of the
    registry.  The cast in [Connection::duplicate] takes the address of the
    [HasSlots] base for the address of the object. *)
Theorem C4_copy_misses_new_receiver (w : World) (R1 R2 : Rid) (hs : HasSlots)
    (e : Eid) (l : list Connection) (c : Connection) :
  wf w → receivers w !! R1 = Some hs → receivers w !! R2 = None →
  no_alias R1 R2 w →
  signals w !! e = Some l → c ∈ l → object c = R1 →
  (∀ c', c' ∈ l → object c' = R1 → base_offset (function c') ≠ 0) →
  ∃ w', HasSlots_copy R1 R2 w = Some w'
    ∧ receivers w' !! R2 = Some (mkHasSlots (senders hs) (active hs))
    ∧ e ∈ senders hs
    ∧ signals w' !! e = Some (l ++ ((λ c, duplicate c R2) <$> targets R1 l))
    ∧ duplicate c R2 ∈ l ++ ((λ c, duplicate c R2) <$> targets R1 l)
    ∧ object (duplicate c R2) = R2 + base_offset (function c)
    ∧ object (duplicate c R2) ≠ R2
    ∧ targets R2 (l ++ ((λ c, duplicate c R2) <$> targets R1 l)) = []
    ∧ ¬ wf w'.
Proof.
  intros Hwf Hr Hfree Hno Hl Hin Ho Hmis.
  destruct (HasSlots_copy_spec R1 R2 w hs Hwf Hr Hfree Hno)
    as (w' & Hrun & Hrec & _ & Hsig).
  destruct (wf_conn w Hwf e l c Hl Hin) as (hs' & Hhs' & He).
  rewrite Ho, Hr in Hhs'. injection Hhs' as <-.
  assert (receivers w' !! R2 = Some (mkHasSlots (senders hs) (active hs)))
    as Hr2 by (by rewrite Hrec, lookup_insert_eq).
  assert (signals w' !! e = Some (with_copies R1 R2 l)) as Hl'
    by (by rewrite Hsig, decide_True, Hl).
  assert (targets R2 (with_copies R1 R2 l) = []) as Hnone.
  { unfold with_copies. rewrite targets_app.
    rewrite (wf_no_dangling w e l R2) by done. simpl.
    apply targets_duplicates. intros c' Hc'.
    apply elem_of_targets in Hc' as [Ho' Hc'].
    specialize (Hmis c' Hc' Ho'). simpl. lia. }
  exists w'. split_and!; try done.
  - apply elem_of_app. right. apply list_elem_of_fmap. exists c.
    split; [done|]. by apply elem_of_targets.
  - specialize (Hmis c Hin Ho). simpl. lia.
  - intros Hwf'.
    destruct (wf_back w' Hwf' R2 _ e Hr2 He) as (l' & c' & Hl2 & Hc' & Ho').
    rewrite Hl' in Hl2. injection Hl2 as <-.
    by apply (proj1 (targets_nil_iff R2 _) Hnone c').
Qed.

(** C10, where the code misses it.  Under the same conditions the copies
    are placed as the claim has it, after the connections the signal had,
    which keep their positions.  But no copy points at [R2], so no emit
    that returns has called a slot of [R2]; and where nothing lives at the
    addresses the copies point at, an emit in which the slots of the earlier
    connections return follows a pointer to no receiver.  The defect is that
    of C4, the cast in [Connection::duplicate]. *)
Theorem C10_copies_point_elsewhere (w : World) (R1 R2 : Rid) (hs : HasSlots)
    (e : Eid) (l : list Connection) (c : Connection) :
  wf w → receivers w !! R1 = Some hs → receivers w !! R2 = None →
  no_alias R1 R2 w →
  signals w !! e = Some l → c ∈ l → object c = R1 →
  (∀ c', c' ∈ l → object c' = R1 → base_offset (function c') ≠ 0) →
  ∃ w' copies, HasSlots_copy R1 R2 w = Some w'
    ∧ copies = (λ c, duplicate c R2) <$> targets R1 l
    ∧ signals w' !! e = Some (l ++ copies)
    ∧ (∀ i c', l !! i = Some c' → (l ++ copies) !! i = Some c')
    ∧ duplicate c R2 ∈ copies
    ∧ (∀ c', c' ∈ l ++ copies → object c' ≠ R2)
    ∧ (∀ arguments u w'' u' x,
         shoot slot_body e arguments w' u = Some (w'', u', x) →
         ∀ f, EvShoot R2 f ∉ since w' w'')
    ∧ ((∀ c', c' ∈ copies → receivers w !! object c' = None) →
       ∀ arguments u, quiet slot_body arguments (eligible w l) u →
         shoot slot_body e arguments w' u = None).
Proof.
  intros Hwf Hr Hfree Hno Hl Hin Ho Hmis.
  destruct (HasSlots_copy_spec R1 R2 w hs Hwf Hr Hfree Hno)
    as (w' & Hrun & Hrec & _ & Hsig).
  destruct (wf_conn w Hwf e l c Hl Hin) as (hs' & Hhs' & He).
  rewrite Ho, Hr in Hhs'. injection Hhs' as <-.
  assert (signals w' !! e = Some (with_copies R1 R2 l)) as Hl'
    by (by rewrite Hsig, decide_True, Hl).
  assert (duplicate c R2 ∈ (λ c, duplicate c R2) <$> targets R1 l) as Hdup.
  { apply list_elem_of_fmap. exists c. split; [done|].
    by apply elem_of_targets. }
  assert (∀ c', c' ∈ with_copies R1 R2 l → object c' ≠ R2) as Hnot.
  { intros c' Hc' Ho'. apply elem_of_app in Hc' as [Hc'|Hc'].
    - destruct (wf_targets_alive w e l Hwf Hl c' Hc') as [hs' Hhs'].
      by rewrite Ho', Hfree in Hhs'.
    - apply list_elem_of_fmap in Hc' as (c1 & -> & Hc1).
      apply elem_of_targets in Hc1 as [Ho1 Hc1].
      specialize (Hmis c1 Hc1 Ho1). simpl in Ho'. lia. }
  exists w', ((λ c, duplicate c R2) <$> targets R1 l).
  split_and!; try done.
  - intros i c' Hi. by apply lookup_app_l_Some.
  - intros arguments u w'' u' x Hshoot f Hf. unfold shoot in Hshoot.
    rewrite Hl' in Hshoot. simpl in Hshoot.
    destruct (shoot_loop_fired slot_body _ _ _ _ _ _ _ Hshoot)
      as (fired & -> & Hsub).
    rewrite since_logged in Hf.
    apply list_elem_of_fmap in Hf as (c' & Heq & Hc').
    apply (Hnot c'); [by apply Hsub|]. unfold shot in Heq. congruence.
  - intros Hdead arguments u Hq. unfold shoot. rewrite Hl'. simpl.
    assert (∀ c', c' ∈ l →
              receivers w' !! object c' = receivers w !! object c') as Hsame.
    { intros c' Hc'. rewrite Hrec, lookup_insert_ne; [done|].
      intros Heq. apply (Hnot c'); [|done]. apply elem_of_app. by left. }
    assert (eligible w' l = eligible w l) as Hel.
    { apply eligible_same. intros c' Hc'. unfold isActive.
      by rewrite Hsame. }
    unfold with_copies. rewrite shoot_loop_app_quiet.
    + destruct (targets R1 l) as [|c0 t] eqn:Ht.
      { exfalso. by apply (proj1 (targets_nil_iff R1 l) Ht c). }
      simpl. unfold getDestination, isActive. simpl.
      assert (receivers w' !! (R2 + base_offset (function c0) : Rid) = None)
        as Hgone.
      { assert (c0 ∈ targets R1 l) as Hc0 by (rewrite Ht; by left).
        apply elem_of_targets in Hc0 as [Ho0 Hc0].
        specialize (Hmis c0 Hc0 Ho0).
        rewrite Hrec, lookup_insert_ne by lia.
        apply (Hdead (duplicate c0 R2)). by left. }
      by rewrite Hgone.
    + intros c' Hc'. rewrite Hsame by done. by apply (wf_targets_alive w e l).
    + by rewrite Hel.
Qed.

(** C5. Copying a signal clones its outbound connections.  Let [S1] be a live
    signal with the list [l] and [S2] a free address.  The copy constructor
    returns; [S2] has the list [l]; every receiver of [l] lists [S2]; the
    other signals, [S1] among them, are as before; no flag has changed and
    no slot was called.  An emit on [S2] in which no slot throws calls the
    active connections of [l], and leaves [S1] as it is. *)
Theorem C5_signal_copy (w : World) (S1 S2 : Eid) (l : list Connection)
    (arguments : Args) (u : UState) :
  wf w → signals w !! S1 = Some l → signals w !! S2 = None →
  ∃ w', SignalBaseTyped_copy S1 S2 w = Some w'
    ∧ signals w' !! S2 = Some l
    ∧ (∀ e, e ≠ S2 → signals w' !! e = signals w !! e)
    ∧ (∀ c, c ∈ l →
         ∃ hs, receivers w' !! object c = Some hs ∧ S2 ∈ senders hs)
    ∧ (∀ r, isActive r w' = isActive r w)
    ∧ (∀ r f, EvShoot r f ∉ since w w')
    ∧ (quiet slot_body arguments (eligible w l) u →
       ∃ w'', shoot slot_body S2 arguments w' u
              = Some (w'', run_slots slot_body arguments (eligible w l) u,
                      None)
         ∧ since w' w'' = shot <$> eligible w l
         ∧ signals w'' !! S1 = Some l).
Proof.
  intros Hwf Hl Hfree.
  assert (S1 ≠ S2) as Hne by congruence.
  destruct (SignalBaseTyped_copy_spec S1 S2 w l Hwf Hl Hfree)
    as (w' & Hrun & Hsig & Htr & Hrec).
  assert (wf w') as Hwf' by (by apply (wf_SignalBaseTyped_copy S1 S2 w)).
  assert (signals w' !! S2 = Some l) as Hl2
    by (by rewrite Hsig, lookup_insert_eq).
  assert (∀ r, isActive r w' = isActive r w) as Hact.
  { intros r. unfold isActive. rewrite Hrec. case_decide; [|done].
    by destruct (receivers w !! r). }
  exists w'. split_and!; try done.
  - intros e He. by rewrite Hsig, lookup_insert_ne.
  - intros c Hc. apply (wf_conn w' Hwf' S2 l c Hl2 Hc).
  - intros r f Hf. rewrite (since_trace _ _ _ Htr) in Hf.
    by apply list_elem_of_fmap in Hf as (c & ? & _).
  - intros Hq. assert (eligible w' l = eligible w l) as Hel
      by (by apply eligible_same).
    eexists. unfold shoot. rewrite Hl2. simpl.
    rewrite shoot_loop_quiet;
      [|by apply (wf_targets_alive w' S2)|by rewrite Hel].
    rewrite Hel. split; [done|]. rewrite since_logged. split; [done|].
    simpl. by rewrite Hsig, lookup_insert_ne.
Qed.

(** C6. A slot that throws during an emit.  Let [c] be an eligible
    connection, [pre] the eligible connections before it, and let the slot
    of [c] be the first that throws, with the exception [x].  The emit
    returns [x] itself; the slots of [pre] and then that of [c] have been
    called, once each, and no other one; the lists of all the signals and
    all the receivers are as before. *)
Theorem C6_slot_failure (w : World) (e : Eid) (l pre post : list Connection)
    (c : Connection) (arguments : Args) (u u' : UState) (x : Exn) :
  wf w → signals w !! e = Some l →
  eligible w l = pre ++ c :: post →
  quiet slot_body arguments pre u →
  slot_body (object c) (function c) arguments
    (run_slots slot_body arguments pre u) = (u', Some x) →
  ∃ w', shoot slot_body e arguments w u = Some (w', u', Some x)
    ∧ since w w' = (shot <$> pre) ++ [shot c]
    ∧ signals w' = signals w
    ∧ receivers w' = receivers w.
Proof.
  intros Hwf Hl Hel Hq Hx. eexists. unfold shoot. rewrite Hl. simpl.
  rewrite (shoot_loop_throw slot_body arguments l pre post c w u u' x);
    try done.
  - split; [done|]. rewrite since_logged. by rewrite fmap_app.
  - by apply (wf_targets_alive w e).
Qed.

(** C8. Duplicate connections are kept.  Connecting the slot [f] of an
    active receiver [R] twice to a signal appends two connections, and an
    emit in which no slot throws calls [f] on [R] once for each of the two:
    the calls are those of the connections the signal had, then the two. *)
Theorem C8_duplicate_connections (w : World) (e : Eid) (R : Rid) (f : Fid)
    (l : list Connection) (arguments : Args) (u : UState) :
  wf w → signals w !! e = Some l → isActive R w = Some true →
  quiet slot_body arguments
    (eligible w l ++ [mkConnection R f; mkConnection R f]) u →
  ∃ w2, run [CallConnect e R f; CallConnect e R f] w = Some w2
    ∧ signals w2 !! e = Some (l ++ [mkConnection R f; mkConnection R f])
    ∧ ∃ w3 u3, shoot slot_body e arguments w2 u = Some (w3, u3, None)
        ∧ since w2 w3
          = (shot <$> eligible w l) ++ [EvShoot R f; EvShoot R f]
        ∧ calls_of R f (since w2 w3)
          = calls_of R f (shot <$> eligible w l) + 2.
Proof.
  intros Hwf Hl Hact Hq.
  set (c := mkConnection R f) in *.
  destruct (run_connect_calls e [c; c] l w Hl) as (w2 & Hrun & Hl2 & Ha & _).
  { intros c' Hc'. apply (isActive_alive _ _ true).
    assert (c' = c) as -> by set_solver. done. }
  assert (wf w2) as Hwf2 by (by apply (wf_run_connect_calls e [c; c] w)).
  assert (eligible w2 (l ++ [c; c]) = eligible w l ++ [c; c]) as Hel.
  { rewrite eligible_app. f_equal.
    - by apply eligible_same.
    - apply eligible_all. intros c' Hc'. rewrite Ha.
      assert (c' = c) as -> by set_solver. done. }
  exists w2. split_and!; try done.
  eexists _, _. unfold shoot. rewrite Hl2. simpl.
  rewrite shoot_loop_quiet;
    [|by apply (wf_targets_alive w2 e)|by rewrite Hel].
  split; [done|]. rewrite since_logged, Hel, fmap_app. split; [done|].
  rewrite calls_of_app. f_equal. unfold calls_of. simpl.
  by rewrite !filter_cons_True.
Qed.

(** C9. Calls that do nothing.  On a live signal: [disconnect] of a receiver
    to which the signal has no connection returns and leaves the store as it
    is, the sender set of the receiver included, whether or not the receiver
    is alive; an emit on a signal with no connection returns at once and
    leaves the store and the state of the user as they are; and after one
    [disconnect(r)] a second one returns and changes nothing. *)
Theorem C9_benign_noops (w : World) (e : Eid) (r : Rid) (l : list Connection)
    (arguments : Args) (u : UState) :
  signals w !! e = Some l →
  (targets r l = [] → disconnect e r w = Some w)
  ∧ (l = [] → shoot slot_body e arguments w u = Some (w, u, None))
  ∧ (wf w → ∃ w1, disconnect e r w = Some w1 ∧ disconnect e r w1 = Some w1).
Proof.
  intros Hl. split_and!.
  - intros Hnil. by apply (disconnect_none e r w l).
  - intros ->. unfold shoot. by rewrite Hl.
  - intros Hwf.
    destruct (disconnect_wf_spec e r w l Hwf Hl)
      as [[Hnil Heq]|(hs & Hne & Hr & Heq)].
    + by exists w.
    + eexists. split; [done|].
      apply (disconnect_none e r _ (others r l)).
      * simpl. by rewrite lookup_insert_eq.
      * apply targets_others.
Qed.
End Claims.

(** C7, as the code has it.  [disconnect(r)] removes every connection to
    [r] and calls [signalDisconnect] on [r] once for each connection it
    removes; the sender set of [r] is what one [erase] leaves.
    [disconnectAll()] removes every connection and calls [signalDisconnect]
    once for each connection, so a receiver is told as many times as it has
    connections; after it no receiver lists the signal. *)
Theorem C7_notifications_per_connection (w : World) (e : Eid) (r : Rid)
    (l : list Connection) :
  wf w → signals w !! e = Some l →
  (∃ w1, disconnect e r w = Some w1
     ∧ signals w1 !! e = Some (others r l)
     ∧ since w w1
       = replicate (length (targets r l)) (EvSignalDisconnect r e)
     ∧ notifications r e (since w w1) = length (targets r l)
     ∧ receivers w1 !! r = drop_sender e <$> receivers w !! r
     ∧ (∀ r', r' ≠ r → receivers w1 !! r' = receivers w !! r'))
  ∧ (∃ w2, SignalBaseTyped_disconnectAll e w = Some w2
       ∧ signals w2 !! e = Some []
       ∧ since w w2 = (λ c, EvSignalDisconnect (object c) e) <$> l
       ∧ (∀ r', notifications r' e (since w w2) = length (targets r' l))
       ∧ (∀ r' hs, receivers w2 !! r' = Some hs → e ∉ senders hs)).
Proof.
  intros Hwf Hl. split.
  - destruct (disconnect_wf_spec e r w l Hwf Hl)
      as [[Hnil Heq]|(hs & Hne & Hr & Heq)].
    + exists w. rewrite Hnil. unfold since. rewrite drop_all. simpl.
      split_and!; try done.
      * by rewrite others_all.
      * destruct (receivers w !! r) as [hs|] eqn:Hr; [|done]. simpl.
        f_equal. destruct hs as [S a]. unfold drop_sender. simpl. f_equal.
        assert (e ∉ S); [|set_solver]. intros He.
        destruct (wf_back w Hwf r _ e Hr He) as (l' & c & Hl' & Hc & Ho).
        rewrite Hl in Hl'. injection Hl' as <-.
        by apply (proj1 (targets_nil_iff r l) Hnil c).
    + eexists. split; [done|]. simpl. unfold since. simpl.
      rewrite drop_app_length, notifications_replicate, !lookup_insert_eq, Hr.
      split_and!; try done. intros r' Hr'. by rewrite lookup_insert_ne.
  - destruct (SignalBaseTyped_disconnectAll_spec e w l Hwf Hl)
      as (w2 & Hrun & Hsig & Htr & Hrec).
    assert (wf w2) as Hwf2
      by (by apply (wf_SignalBaseTyped_disconnectAll e w)).
    assert (signals w2 !! e = Some []) as Hl2
      by (by rewrite Hsig, lookup_insert_eq).
    exists w2. rewrite (since_trace _ _ _ Htr). split_and!; try done.
    + intros r'. apply notifications_forget.
    + intros r' hs Hr He.
      destruct (wf_back w2 Hwf2 r' hs e Hr He) as (l' & c & Hl' & Hc & _).
      rewrite Hl2 in Hl'. injection Hl' as <-. by apply elem_of_nil in Hc.
Qed.

(** * The claims on concrete stores *)

Lemma C1_witness :
  wf world_a
  ∧ signals world_a !! 10
    = Some [mkConnection 1 (member 7); mkConnection 2 (member 8); mkConnection 1 (member 9)]
  ∧ (∃ w1, HasSlots_destroy 1 world_a = Some w1
       ∧ signals w1 !! 10 = Some [mkConnection 2 (member 8)])
  ∧ (∃ w2, SignalBaseTyped_destroy 10 world_a = Some w2
       ∧ signals w2 !! 10 = None
       ∧ ∃ w3, HasSlots_destroy 1 w2 = Some w3
           ∧ EvDisconnectSlot 10 1 ∉ since w2 w3).
Proof.
  assert (signals world_a !! 10
          = Some [mkConnection 1 (member 7); mkConnection 2 (member 8); mkConnection 1 (member 9)])
    as Hl by (vm_compute; reflexivity).
  split; [exact wf_world_a|]. split; [exact Hl|].
  destruct (C1_two_sided_teardown recording world_a 10 1 _ (mkConnection 1 (member 7))
              wf_world_a Hl)
    as [(w1 & H1 & _ & H1l & _) (w2 & H2 & H2l & _ & _ & H3)].
  - apply elem_of_cons. by left.
  - reflexivity.
  - split.
    + exists w1. split; [exact H1|exact H1l].
    + exists w2. split; [exact H2|]. split; [exact H2l|exact H3].
Defined.

Lemma C2_witness :
  wf world_c
  ∧ signals world_c !! 10 = Some []
  ∧ (∀ c, c ∈ [mkConnection 1 (member 7); mkConnection 2 (member 8); mkConnection 4 (member 9)] →
       isActive (object c) world_c = Some true)
  ∧ quiet recording 5 [mkConnection 1 (member 7); mkConnection 2 (member 8); mkConnection 4 (member 9)] []
  ∧ ∃ w' w'',
      run [CallConnect 10 1 (member 7); CallConnect 10 2 (member 8); CallConnect 10 4 (member 9)] world_c
      = Some w'
      ∧ shoot recording 10 5 w' []
        = Some (w'', [(1, 7, 5); (2, 8, 5); (4, 9, 5)], None)
      ∧ since w' w'' = [EvShoot 1 (member 7); EvShoot 2 (member 8); EvShoot 4 (member 9)].
Proof.
  assert (∀ c, c ∈ [mkConnection 1 (member 7); mkConnection 2 (member 8); mkConnection 4 (member 9)] →
            isActive (object c) world_c = Some true) as Hact.
  { intros c Hc. repeat (apply elem_of_cons in Hc as [->|Hc]);
      [reflexivity..|by apply elem_of_nil in Hc]. }
  assert (quiet recording 5
            [mkConnection 1 (member 7); mkConnection 2 (member 8); mkConnection 4 (member 9)] [])
    as Hq by (simpl; tauto).
  split; [exact wf_world_c|]. split; [reflexivity|].
  split; [exact Hact|]. split; [exact Hq|].
  destruct (C2_emit_order recording world_c 10 []
              [mkConnection 1 (member 7); mkConnection 2 (member 8); mkConnection 4 (member 9)] 5 []
              wf_world_c eq_refl Hact Hq)
    as (w' & Hrun & _ & _ & w'' & Hshoot & Hsince & _).
  exists w', w''. split; [exact Hrun|]. split; [exact Hshoot|exact Hsince].
Defined.

Lemma C3_witness :
  wf world_a
  ∧ signals world_a !! 10
    = Some [mkConnection 1 (member 7); mkConnection 2 (member 8); mkConnection 1 (member 9)]
  ∧ ∃ w1, setActive 1 false world_a = Some w1
      ∧ signals w1 = signals world_a
      ∧ (∃ w1' u' x, shoot recording 10 5 w1 [] = Some (w1', u', x)
           ∧ ∀ f, EvShoot 1 f ∉ since w1 w1')
      ∧ ∃ w2, disconnect 10 1 w1 = Some w2
          ∧ signals w2 !! 10 = Some [mkConnection 2 (member 8)].
Proof.
  assert (signals world_a !! 10
          = Some [mkConnection 1 (member 7); mkConnection 2 (member 8); mkConnection 1 (member 9)])
    as Hl by (vm_compute; reflexivity).
  split; [exact wf_world_a|]. split; [exact Hl|].
  destruct (C3_deactivation recording world_a 10 1 _ (mkConnection 1 (member 7)) 5 []
              wf_world_a Hl)
    as (w1 & Hset & Hsig & _ & Hskip & (w2 & hs2 & Hd & Hl2 & _) & _).
  - apply elem_of_cons. by left.
  - reflexivity.
  - exists w1. split; [exact Hset|]. split; [exact Hsig|]. split.
    + apply (Hskip 10 [mkConnection 1 (member 7); mkConnection 2 (member 8); mkConnection 1 (member 9)]).
      rewrite Hsig. exact Hl.
    + exists w2. split; [exact Hd|exact Hl2].
Defined.

Lemma C4_witness :
  wf world_f
  ∧ receivers world_f !! 20 = Some (mkHasSlots {[10]} true)
  ∧ receivers world_f !! 40 = None
  ∧ no_alias 20 40 world_f
  ∧ signals world_f !! 10
    = Some [mkConnection 20 (member_at 8 7); mkConnection 2 (member 8)]
  ∧ ∃ w', HasSlots_copy 20 40 world_f = Some w'
      ∧ receivers w' !! 40 = Some (mkHasSlots {[10]} true)
      ∧ signals w' !! 10
        = Some ([mkConnection 20 (member_at 8 7); mkConnection 2 (member 8)]
                ++ [mkConnection 48 (member_at 8 7)])
      ∧ ¬ wf w'.
Proof.
  assert (receivers world_f !! 20 = Some (mkHasSlots {[10]} true)) as Hr
    by (vm_compute; reflexivity).
  assert (receivers world_f !! 40 = None) as Hfree by (vm_compute; reflexivity).
  assert (no_alias 20 40 world_f) as Hno
    by (intros e l c _ _ _; simpl; lia).
  assert (signals world_f !! 10
          = Some [mkConnection 20 (member_at 8 7); mkConnection 2 (member 8)])
    as Hl by (vm_compute; reflexivity).
  split; [exact wf_world_f|]. split; [exact Hr|]. split; [exact Hfree|].
  split; [exact Hno|]. split; [exact Hl|].
  destruct (C4_copy_misses_new_receiver world_f 20 40 _ 10 _
              (mkConnection 20 (member_at 8 7)) wf_world_f Hr Hfree Hno Hl)
    as (w' & Hrun & Hr2 & _ & Hl' & _ & _ & _ & _ & Hnwf).
  - apply elem_of_cons. by left.
  - reflexivity.
  - intros c' Hc' Ho'. repeat (apply elem_of_cons in Hc' as [->|Hc']).
    + discriminate.
    + discriminate.
    + by apply elem_of_nil in Hc'.
  - exists w'. split; [exact Hrun|]. split; [exact Hr2|].
    split; [exact Hl'|exact Hnwf].
Defined.

Lemma C5_witness :
  wf world_a
  ∧ signals world_a !! 10
    = Some [mkConnection 1 (member 7); mkConnection 2 (member 8); mkConnection 1 (member 9)]
  ∧ signals world_a !! 11 = None
  ∧ ∃ w', SignalBaseTyped_copy 10 11 world_a = Some w'
      ∧ signals w' !! 11
        = Some [mkConnection 1 (member 7); mkConnection 2 (member 8); mkConnection 1 (member 9)]
      ∧ (∀ r f, EvShoot r f ∉ since world_a w')
      ∧ ∃ w'', shoot recording 11 5 w' []
               = Some (w'', [(1, 7, 5); (2, 8, 5); (1, 9, 5)], None).
Proof.
  assert (signals world_a !! 10
          = Some [mkConnection 1 (member 7); mkConnection 2 (member 8); mkConnection 1 (member 9)])
    as Hl by (vm_compute; reflexivity).
  assert (signals world_a !! 11 = None) as Hfree by (vm_compute; reflexivity).
  split; [exact wf_world_a|]. split; [exact Hl|]. split; [exact Hfree|].
  destruct (C5_signal_copy recording world_a 10 11 _ 5 [] wf_world_a Hl Hfree)
    as (w' & Hrun & Hl2 & _ & _ & _ & Hno & Hshoot).
  exists w'. split; [exact Hrun|]. split; [exact Hl2|]. split; [exact Hno|].
  destruct Hshoot as (w'' & Hs & _).
  - vm_compute. tauto.
  - exists w''. exact Hs.
Defined.

Lemma C6_witness :
  wf world_b
  ∧ signals world_b !! 10
    = Some [mkConnection 1 (member 7); mkConnection 3 (member 8); mkConnection 2 (member 9)]
  ∧ eligible world_b [mkConnection 1 (member 7); mkConnection 3 (member 8); mkConnection 2 (member 9)]
    = [mkConnection 1 (member 7)] ++ mkConnection 3 (member 8) :: [mkConnection 2 (member 9)]
  ∧ quiet recording 5 [mkConnection 1 (member 7)] []
  ∧ recording 3 (member 8) 5 [(1, 7, 5)] = ([(1, 7, 5); (3, 8, 5)], Some 8)
  ∧ ∃ w', shoot recording 10 5 world_b []
          = Some (w', [(1, 7, 5); (3, 8, 5)], Some 8)
      ∧ since world_b w' = [EvShoot 1 (member 7); EvShoot 3 (member 8)]
      ∧ signals w' = signals world_b.
Proof.
  assert (signals world_b !! 10
          = Some [mkConnection 1 (member 7); mkConnection 3 (member 8); mkConnection 2 (member 9)])
    as Hl by (vm_compute; reflexivity).
  assert (eligible world_b
            [mkConnection 1 (member 7); mkConnection 3 (member 8); mkConnection 2 (member 9)]
          = [mkConnection 1 (member 7)] ++ mkConnection 3 (member 8) :: [mkConnection 2 (member 9)])
    as Hel by (vm_compute; reflexivity).
  assert (quiet recording 5 [mkConnection 1 (member 7)] []) as Hq by (simpl; tauto).
  split; [exact wf_world_b|]. split; [exact Hl|]. split; [exact Hel|].
  split; [exact Hq|]. split; [reflexivity|].
  destruct (C6_slot_failure recording world_b 10 _ _ _ _ 5 [] _ 8
              wf_world_b Hl Hel Hq eq_refl)
    as (w' & Hshoot & Hsince & Hsig & _).
  exists w'. split; [exact Hshoot|]. split; [exact Hsince|exact Hsig].
Defined.

(** C7 as it is written fails: signal 10 holds two connections to the one
    receiver 1, and both [disconnect(1)] and [disconnectAll()] call
    [signalDisconnect] on receiver 1 twice, not once. *)
Lemma C7_counterexample :
  signals world_d !! 10 = Some [mkConnection 1 (member 7); mkConnection 1 (member 8)]
  ∧ (∃ w1, disconnect 10 1 world_d = Some w1
       ∧ since world_d w1 = [EvSignalDisconnect 1 10; EvSignalDisconnect 1 10]
       ∧ notifications 1 10 (since world_d w1) = 2)
  ∧ (∃ w2, SignalBaseTyped_disconnectAll 10 world_d = Some w2
       ∧ since world_d w2 = [EvSignalDisconnect 1 10; EvSignalDisconnect 1 10]
       ∧ notifications 1 10 (since world_d w2) = 2)
  ∧ ¬ (∀ w e l w2,
         wf w → signals w !! e = Some l →
         SignalBaseTyped_disconnectAll e w = Some w2 →
         ∀ r, r ∈ object <$> l → notifications r e (since w w2) = 1)
  ∧ ¬ (∀ w e r l w1,
         wf w → signals w !! e = Some l → r ∈ object <$> l →
         disconnect e r w = Some w1 →
         notifications r e (since w w1) = 1).
Proof.
  assert (∃ w1, disconnect 10 1 world_d = Some w1
            ∧ since world_d w1
              = [EvSignalDisconnect 1 10; EvSignalDisconnect 1 10]
            ∧ notifications 1 10 (since world_d w1) = 2) as H1.
  { eexists. split; [vm_compute; reflexivity|].
    split; vm_compute; reflexivity. }
  assert (∃ w2, SignalBaseTyped_disconnectAll 10 world_d = Some w2
            ∧ since world_d w2
              = [EvSignalDisconnect 1 10; EvSignalDisconnect 1 10]
            ∧ notifications 1 10 (since world_d w2) = 2) as H2.
  { eexists. split; [vm_compute; reflexivity|].
    split; vm_compute; reflexivity. }
  assert (signals world_d !! 10 = Some [mkConnection 1 (member 7); mkConnection 1 (member 8)])
    as Hl by (vm_compute; reflexivity).
  assert (1 ∈ object <$> [mkConnection 1 (member 7); mkConnection 1 (member 8)]) as Hin
    by (simpl; apply elem_of_cons; by left).
  split; [exact Hl|]. split; [exact H1|]. split; [exact H2|]. split.
  - intros Hclaim. destruct H2 as (w2 & Hrun & _ & Hn).
    specialize (Hclaim world_d 10 _ w2 wf_world_d Hl Hrun 1 Hin).
    rewrite Hn in Hclaim. discriminate.
  - intros Hclaim. destruct H1 as (w1 & Hrun & _ & Hn).
    specialize (Hclaim world_d 10 1 _ w1 wf_world_d Hl Hin Hrun).
    rewrite Hn in Hclaim. discriminate.
Qed.

Lemma C7_witness :
  wf world_d
  ∧ signals world_d !! 10 = Some [mkConnection 1 (member 7); mkConnection 1 (member 8)]
  ∧ (∃ w1, disconnect 10 1 world_d = Some w1
       ∧ signals w1 !! 10 = Some []
       ∧ notifications 1 10 (since world_d w1) = 2)
  ∧ (∃ w2, SignalBaseTyped_disconnectAll 10 world_d = Some w2
       ∧ signals w2 !! 10 = Some []
       ∧ notifications 1 10 (since world_d w2) = 2).
Proof.
  assert (signals world_d !! 10 = Some [mkConnection 1 (member 7); mkConnection 1 (member 8)])
    as Hl by (vm_compute; reflexivity).
  split; [exact wf_world_d|]. split; [exact Hl|].
  destruct (C7_notifications_per_connection world_d 10 1 _ wf_world_d Hl)
    as [(w1 & Hd & Hl1 & _ & Hn1 & _) (w2 & Hda & Hl2 & _ & Hn2 & _)].
  split.
  - exists w1. split; [exact Hd|]. split; [exact Hl1|exact Hn1].
  - exists w2. split; [exact Hda|]. split; [exact Hl2|exact (Hn2 1)].
Defined.

Lemma C8_witness :
  wf world_c
  ∧ signals world_c !! 10 = Some []
  ∧ isActive 1 world_c = Some true
  ∧ quiet recording 5 [mkConnection 1 (member 7); mkConnection 1 (member 7)] []
  ∧ ∃ w2, run [CallConnect 10 1 (member 7); CallConnect 10 1 (member 7)] world_c = Some w2
      ∧ signals w2 !! 10 = Some [mkConnection 1 (member 7); mkConnection 1 (member 7)]
      ∧ ∃ w3 u3, shoot recording 10 5 w2 [] = Some (w3, u3, None)
          ∧ since w2 w3 = [EvShoot 1 (member 7); EvShoot 1 (member 7)]
          ∧ calls_of 1 (member 7) (since w2 w3) = 2.
Proof.
  assert (quiet recording 5 [mkConnection 1 (member 7); mkConnection 1 (member 7)] []) as Hq
    by (simpl; tauto).
  split; [exact wf_world_c|]. split; [reflexivity|]. split; [reflexivity|].
  split; [exact Hq|].
  destruct (C8_duplicate_connections recording world_c 10 1 (member 7) [] 5 []
              wf_world_c eq_refl eq_refl Hq)
    as (w2 & Hrun & Hl2 & w3 & u3 & Hshoot & Hsince & Hcalls).
  exists w2. split; [exact Hrun|]. split; [exact Hl2|].
  exists w3, u3. split; [exact Hshoot|]. split; [exact Hsince|exact Hcalls].
Defined.

Lemma C9_witness :
  signals world_a !! 10
  = Some [mkConnection 1 (member 7); mkConnection 2 (member 8); mkConnection 1 (member 9)]
  ∧ disconnect 10 4 world_a = Some world_a
  ∧ ∃ w1, disconnect 10 1 world_a = Some w1 ∧ disconnect 10 1 w1 = Some w1.
Proof.
  assert (signals world_a !! 10
          = Some [mkConnection 1 (member 7); mkConnection 2 (member 8); mkConnection 1 (member 9)])
    as Hl by (vm_compute; reflexivity).
  split; [exact Hl|].
  destruct (C9_benign_noops recording world_a 10 4 _ 5 [] Hl) as (Hnone & _ & _).
  destruct (C9_benign_noops recording world_a 10 1 _ 5 [] Hl) as (_ & _ & Hidem).
  split.
  - apply Hnone. reflexivity.
  - apply Hidem. exact wf_world_a.
Defined.

Lemma C10_witness :
  wf world_f
  ∧ receivers world_f !! 20 = Some (mkHasSlots {[10]} true)
  ∧ receivers world_f !! 40 = None
  ∧ no_alias 20 40 world_f
  ∧ signals world_f !! 10
    = Some [mkConnection 20 (member_at 8 7); mkConnection 2 (member 8)]
  ∧ ∃ w', HasSlots_copy 20 40 world_f = Some w'
      ∧ signals w' !! 10
        = Some ([mkConnection 20 (member_at 8 7); mkConnection 2 (member 8)]
                ++ [mkConnection 48 (member_at 8 7)])
      ∧ shoot recording 10 5 w' [] = None.
Proof.
  assert (receivers world_f !! 20 = Some (mkHasSlots {[10]} true)) as Hr
    by (vm_compute; reflexivity).
  assert (receivers world_f !! 40 = None) as Hfree by (vm_compute; reflexivity).
  assert (no_alias 20 40 world_f) as Hno
    by (intros e l c _ _ _; simpl; lia).
  assert (signals world_f !! 10
          = Some [mkConnection 20 (member_at 8 7); mkConnection 2 (member 8)])
    as Hl by (vm_compute; reflexivity).
  split; [exact wf_world_f|]. split; [exact Hr|]. split; [exact Hfree|].
  split; [exact Hno|]. split; [exact Hl|].
  destruct (C10_copies_point_elsewhere recording world_f 20 40 _ 10 _
              (mkConnection 20 (member_at 8 7)) wf_world_f Hr Hfree Hno Hl)
    as (w' & copies & Hrun & -> & Hl' & _ & _ & _ & _ & Hfault).
  - apply elem_of_cons. by left.
  - reflexivity.
  - intros c' Hc' Ho'. repeat (apply elem_of_cons in Hc' as [->|Hc']).
    + discriminate.
    + discriminate.
    + by apply elem_of_nil in Hc'.
  - exists w'. split; [exact Hrun|]. split; [exact Hl'|].
    apply Hfault.
    + intros c' Hc'. apply list_elem_of_fmap in Hc' as (c1 & -> & Hc1).
      apply elem_of_targets in Hc1 as [Ho1 Hc1].
      repeat (apply elem_of_cons in Hc1 as [->|Hc1]).
      * vm_compute; reflexivity.
      * discriminate.
      * by apply elem_of_nil in Hc1.
    + vm_compute. tauto.
Defined.

(** * More of the header *)

(** ** The invariant and the validity of calls *)

(** Where the member functions of the connections come from: after a call,
    a connection is bound to the member function of a connection the store
    had before, or to the member function the call connects. *)
Lemma call_functions (c : Call) (w w' : World) :
  wf w → call c w = Some w' →
  ∀ e l c1, signals w' !! e = Some l → c1 ∈ l →
    (∃ e0 l0 c0, signals w !! e0 = Some l0 ∧ c0 ∈ l0
                 ∧ function c0 = function c1)
    ∨ (∃ e0 r, c = CallConnect e0 r (function c1)).
Proof.
  intros Hwf Hrun e l c1 Hl Hin. destruct c; simpl in Hrun.
  - unfold HasSlots_new in Hrun. destruct (receivers w !! r); [done|].
    injection Hrun as <-. left. by exists e, l, c1.
  - unfold SignalBaseTyped_new in Hrun. destruct (signals w !! e0); [done|].
    injection Hrun as <-. simpl in Hl.
    apply lookup_insert_Some in Hl as [[<- <-]|[_ Hl]].
    + by apply elem_of_nil in Hin.
    + left. by exists e, l, c1.
  - unfold connect, signalConnect in Hrun.
    destruct (signals w !! e0) as [l0|] eqn:Hl0; [|done]. simpl in Hrun.
    destruct (receivers w !! r); [|done]. injection Hrun as <-. simpl in Hl.
    apply lookup_insert_Some in Hl as [[<- <-]|[_ Hl]].
    + apply elem_of_app in Hin as [Hin|Hin].
      * left. by exists e0, l0, c1.
      * apply list_elem_of_singleton in Hin as ->. right. by exists e0, r.
    + left. by exists e, l, c1.
  - destruct (signals w !! e0) as [l0|] eqn:Hl0;
      [|by unfold disconnect in Hrun; rewrite Hl0 in Hrun].
    destruct (disconnect_wf_spec e0 r w l0 Hwf Hl0)
      as [[_ Heq]|(hs & _ & _ & Heq)];
      rewrite Heq in Hrun; injection Hrun as <-.
    + left. by exists e, l, c1.
    + simpl in Hl. apply lookup_insert_Some in Hl as [[<- <-]|[_ Hl]].
      * apply elem_of_others in Hin as [_ Hin]. left. by exists e0, l0, c1.
      * left. by exists e, l, c1.
  - destruct (signals w !! e0) as [l0|] eqn:Hl0;
      [|by unfold SignalBaseTyped_disconnectAll in Hrun; rewrite Hl0 in Hrun].
    destruct (SignalBaseTyped_disconnectAll_spec e0 w l0 Hwf Hl0)
      as (w1 & Heq & Hsig & _).
    assert (w1 = w') as -> by congruence. rewrite Hsig in Hl.
    apply lookup_insert_Some in Hl as [[<- <-]|[_ Hl]].
    + by apply elem_of_nil in Hin.
    + left. by exists e, l, c1.
  - destruct (receivers w !! r) as [hs|] eqn:Hr;
      [|by unfold HasSlots_disconnectAll in Hrun; rewrite Hr in Hrun].
    destruct (HasSlots_disconnectAll_spec r w hs Hwf Hr)
      as (w1 & Heq & _ & _ & Hsig).
    assert (w1 = w') as -> by congruence. rewrite Hsig in Hl.
    left. case_decide; [|by exists e, l, c1].
    destruct (signals w !! e) as [l0|] eqn:Hl0; [|done].
    injection Hl as <-. apply elem_of_others in Hin as [_ Hin].
    by exists e, l0, c1.
  - unfold setActive in Hrun. destruct (receivers w !! r); [|done].
    injection Hrun as <-. left. by exists e, l, c1.
  - pose proof (HasSlots_copy_no_alias src this w w' Hwf Hrun) as Hno.
    destruct (receivers w !! src) as [hs|] eqn:Hr;
      [|by unfold HasSlots_copy in Hrun; rewrite Hr in Hrun].
    destruct (receivers w !! this) as [?|] eqn:Hfree;
      [by unfold HasSlots_copy in Hrun; rewrite Hr in Hrun; simpl in Hrun;
          rewrite Hfree in Hrun|].
    destruct (HasSlots_copy_spec src this w hs Hwf Hr Hfree Hno)
      as (w1 & Heq & _ & _ & Hsig).
    assert (w1 = w') as -> by congruence. rewrite Hsig in Hl.
    left. case_decide; [|by exists e, l, c1].
    destruct (signals w !! e) as [l0|] eqn:Hl0; [|done].
    injection Hl as <-. apply elem_of_app in Hin as [Hin|Hin].
    + by exists e, l0, c1.
    + apply list_elem_of_fmap in Hin as (c0 & -> & Hc0).
      apply elem_of_targets in Hc0 as [_ Hc0]. by exists e, l0, c0.
  - destruct (signals w !! src) as [l0|] eqn:Hl0;
      [|by unfold SignalBaseTyped_copy in Hrun; rewrite Hl0 in Hrun].
    destruct (signals w !! this) as [?|] eqn:Hfree;
      [by unfold SignalBaseTyped_copy in Hrun; rewrite Hl0 in Hrun;
          simpl in Hrun; rewrite Hfree in Hrun|].
    destruct (SignalBaseTyped_copy_spec src this w l0 Hwf Hl0 Hfree)
      as (w1 & Heq & Hsig & _).
    assert (w1 = w') as -> by congruence. rewrite Hsig in Hl.
    left. apply lookup_insert_Some in Hl as [[<- <-]|[_ Hl]].
    + by exists src, l0, c1.
    + by exists e, l, c1.
  - destruct (receivers w !! r) as [hs|] eqn:Hr;
      [|by unfold HasSlots_destroy, HasSlots_disconnectAll in Hrun;
           rewrite Hr in Hrun].
    destruct (HasSlots_destroy_spec r w hs Hwf Hr) as (w1 & Heq & _ & _ & Hsig).
    assert (w1 = w') as -> by congruence. rewrite Hsig in Hl.
    left. case_decide; [|by exists e, l, c1].
    destruct (signals w !! e) as [l0|] eqn:Hl0; [|done].
    injection Hl as <-. apply elem_of_others in Hin as [_ Hin].
    by exists e, l0, c1.
  - destruct (signals w !! e0) as [l0|] eqn:Hl0;
      [|by unfold SignalBaseTyped_destroy in Hrun; rewrite Hl0 in Hrun].
    destruct (SignalBaseTyped_destroy_spec e0 w l0 Hwf Hl0)
      as (w1 & Heq & Hsig & _).
    assert (w1 = w') as -> by congruence. rewrite Hsig in Hl.
    apply lookup_delete_Some in Hl as [_ Hl]. left. by exists e, l, c1.
Qed.

Lemma aligned_call_kept (c : Call) (w w' : World) :
  wf w → aligned w → aligned_call c → call c w = Some w' → aligned w'.
Proof.
  intros Hwf Ha Hc Hrun e l c1 Hl Hin.
  destruct (call_functions c w w' Hwf Hrun e l c1 Hl Hin)
    as [(e0 & l0 & c0 & Hl0 & Hc0 & <-)|(e0 & r & ->)].
  - by apply (Ha e0 l0 c0).
  - done.
Qed.

Lemma aligned_run_kept (cs : list Call) (w w' : World) :
  wf w → aligned w → Forall aligned_call cs → run cs w = Some w' →
  wf w' ∧ aligned w'.
Proof.
  revert w. induction cs as [|c cs IH]; intros w Hwf Ha Hcs; simpl.
  - by intros [= <-].
  - apply Forall_cons in Hcs as [Hc Hcs].
    destruct (call c w) as [w1|] eqn:Hcall; [|done]. simpl.
    apply IH; [| |done].
    + apply (wf_call c w); [done| |done].
      intros src this _ e l c1 Hl Hin _. by apply (Ha e l c1).
    + by apply (aligned_call_kept c w).
Qed.

Lemma aligned_after (cs : list Call) :
  Forall aligned_call cs → aligned (after cs).
Proof.
  intros Hcs. unfold after.
  assert (aligned empty_world) as He
    by (intros e l c Hl; simpl in Hl; by rewrite lookup_empty in Hl).
  destruct (run cs empty_world) as [w|] eqn:Hrun; simpl; [|done].
  by apply (aligned_run_kept cs empty_world w wf_empty).
Qed.

Lemma aligned_aligned_to (r : Rid) (w : World) : aligned w → aligned_to r w.
Proof. intros Ha e l c Hl Hc _. by apply (Ha e l c). Qed.

Lemma aligned_world_a : aligned world_a.
Proof. apply aligned_after. by repeat constructor. Qed.

Lemma aligned_world_e : aligned world_e.
Proof. apply aligned_after. by repeat constructor. Qed.

(** X1. The registry invariant is kept by every sequence of calls of a
    client in which no receiver is copied.  It is kept by every sequence of
    calls at all when the member functions that are connected are of
    classes that have [HasSlots] at offset 0, as the copies of the
    connections then point at the new receiver; that condition on the
    connections of the store is kept as well. *)
Theorem X1_invariant_kept (cs : list Call) (w w' : World) :
  wf w → run cs w = Some w' →
  (copy_free cs = true → wf w')
  ∧ (aligned w → Forall aligned_call cs → wf w' ∧ aligned w').
Proof.
  intros Hwf Hrun. split.
  - intros Hfree. by apply (wf_run cs w).
  - intros Ha Hcs. by apply (aligned_run_kept cs w).
Qed.

(** X2. In a store that satisfies the invariant, a call returns exactly
    when it is in order: no member function follows a pointer to an object
    that is not alive, [disconnect] takes a pointer to any receiver, dead
    ones included, and the copy constructor of a receiver returns unless a
    copy it makes points at the source. *)
Theorem X2_call_returns (c : Call) (w : World) :
  wf w → (is_Some (call c w) ↔ call_ready c w).
Proof.
  intros Hwf. split.
  - intros [w' Hrun]. destruct c; simpl in *.
    + unfold HasSlots_new in Hrun. by destruct (receivers w !! r).
    + unfold SignalBaseTyped_new in Hrun. by destruct (signals w !! e).
    + unfold connect, signalConnect in Hrun.
      destruct (signals w !! e); [|done]. simpl in Hrun.
      destruct (receivers w !! r); [|done]. by split.
    + unfold disconnect in Hrun. by destruct (signals w !! e).
    + unfold SignalBaseTyped_disconnectAll in Hrun.
      by destruct (signals w !! e).
    + unfold HasSlots_disconnectAll in Hrun. by destruct (receivers w !! r).
    + unfold setActive in Hrun. by destruct (receivers w !! r).
    + pose proof (HasSlots_copy_no_alias src this w w' Hwf Hrun) as Hno.
      unfold HasSlots_copy in Hrun.
      destruct (receivers w !! src); [|done]. simpl in Hrun.
      by destruct (receivers w !! this).
    + unfold SignalBaseTyped_copy in Hrun.
      destruct (signals w !! src); [|done]. simpl in Hrun.
      by destruct (signals w !! this).
    + unfold HasSlots_destroy, HasSlots_disconnectAll in Hrun.
      by destruct (receivers w !! r).
    + unfold SignalBaseTyped_destroy in Hrun. by destruct (signals w !! e).
  - destruct c; simpl.
    + intros Hfree. unfold HasSlots_new. by rewrite Hfree.
    + intros Hfree. unfold SignalBaseTyped_new. by rewrite Hfree.
    + intros [[l Hl] [hs Hr]]. by rewrite (connect_spec _ _ _ _ l hs).
    + intros [l Hl].
      destruct (disconnect_wf_spec e r w l Hwf Hl)
        as [[_ Heq]|(hs & _ & _ & Heq)]; by rewrite Heq.
    + intros [l Hl].
      destruct (SignalBaseTyped_disconnectAll_spec e w l Hwf Hl)
        as (w' & Heq & _). by rewrite Heq.
    + intros [hs Hr].
      destruct (HasSlots_disconnectAll_spec r w hs Hwf Hr) as (w' & Heq & _).
      by rewrite Heq.
    + intros [hs Hr]. unfold setActive. by rewrite Hr.
    + intros ([hs Hr] & Hfree & Hno).
      destruct (HasSlots_copy_spec src this w hs Hwf Hr Hfree Hno)
        as (w' & Heq & _). by rewrite Heq.
    + intros [[l Hl] Hfree].
      destruct (SignalBaseTyped_copy_spec src this w l Hwf Hl Hfree)
        as (w' & Heq & _). by rewrite Heq.
    + intros [hs Hr].
      destruct (HasSlots_destroy_spec r w hs Hwf Hr) as (w' & Heq & _).
      by rewrite Heq.
    + intros [l Hl].
      destruct (SignalBaseTyped_destroy_spec e w l Hwf Hl) as (w' & Heq & _).
      by rewrite Heq.
Qed.

(** ** duplicateSlot and disconnectSlot on their own *)

(** X3. When [duplicateSlot] ends.  If the copy of some connection to the
    old target points at the old target, the loop never ends, whatever the
    bound on its iterations: every copy it pushes is a connection it will
    copy.  If no copy does, the call returns with the copies appended and
    touches no receiver.  With the new target equal to the old one, the copy
    of a connection points at the old target exactly when the class of its
    member function has [HasSlots] at offset 0. *)
Theorem X3_duplicateSlot_termination (this : Eid) (oldTarget newTarget : Rid)
    (w : World) (l : list Connection) :
  signals w !! this = Some l →
  ((∃ c, c ∈ l ∧ object c = oldTarget
         ∧ object (duplicate c newTarget) = oldTarget) →
   (∀ fuel seen,
      duplicateSlot_loop fuel oldTarget newTarget seen l = None)
   ∧ duplicateSlot this oldTarget newTarget w = None)
  ∧ ((∀ c, c ∈ l → object c = oldTarget →
           object (duplicate c newTarget) ≠ oldTarget) →
     ∃ w', duplicateSlot this oldTarget newTarget w = Some w'
       ∧ signals w'
         = <[this:=l ++ ((λ c, duplicate c newTarget) <$> targets oldTarget l)]>
             (signals w)
       ∧ receivers w' = receivers w)
  ∧ ∀ c, object (duplicate c oldTarget) = oldTarget
         ↔ base_offset (function c) = 0.
Proof.
  intros Hl. split_and!.
  - intros Hex. split.
    + intros fuel seen. by apply duplicateSlot_loop_diverges.
    + by apply (duplicateSlot_diverges this oldTarget newTarget w l).
  - intros Hno. rewrite (duplicateSlot_spec _ _ _ _ l) by done.
    by eexists.
  - intros c. simpl. lia.
Qed.

Lemma HasSlots_disconnectAll_loop_dead (this : Rid) (it : list Eid) (w : World)
    (i : Eid) :
  i ∈ it → signals w !! i = None →
  HasSlots_disconnectAll_loop this it w = None.
Proof.
  revert w. induction it as [|j it IH]; intros w Hin Hdead.
  - by apply elem_of_nil in Hin.
  - simpl. unfold disconnectSlot.
    destruct (signals w !! j) as [l|] eqn:Hl; [|done]. simpl.
    apply elem_of_cons in Hin as [->|Hin]; [congruence|].
    apply IH; [done|]. simpl. rewrite lookup_insert_ne; [done|]. congruence.
Qed.

(** [~HasSlots] where every sender is alive, with or without the
    invariant. *)
Lemma HasSlots_destroy_alive (this : Rid) (w : World) (hs : HasSlots) :
  receivers w !! this = Some hs →
  (∀ i, i ∈ elements (senders hs) → is_Some (signals w !! i)) →
  ∃ w', HasSlots_destroy this w = Some w'
    ∧ receivers w' = delete this (receivers w)
    ∧ ∀ e, signals w' !! e
           = if decide (e ∈ senders hs)
             then others this <$> signals w !! e
             else signals w !! e.
Proof.
  intros Hr Halive.
  destruct (HasSlots_disconnectAll_loop_spec this (elements (senders hs)) w
              Halive) as (w1 & Hrun & Hrec & _ & Hsig).
  unfold HasSlots_destroy, HasSlots_disconnectAll.
  rewrite Hr. simpl. rewrite Hrun. simpl.
  eexists. split; [done|]. simpl. split.
  - by rewrite Hrec, delete_insert_eq.
  - intros e. rewrite Hsig.
    destruct (decide (e ∈ elements (senders hs))) as [Hin|Hn];
      case_decide as Hd; try done; exfalso.
    + apply Hd. by apply elem_of_elements.
    + apply Hn. by apply elem_of_elements.
Qed.

(** X4. [disconnectSlot] tells nobody.  Called by a client on a signal that
    holds a connection to [r], it removes the connections to [r] and leaves
    [r] listing the signal, which breaks the invariant: when the signal is
    then destroyed [r] is not told, it goes on listing a signal that is gone,
    and destroying [r] follows that pointer. *)
Theorem X4_disconnectSlot_one_sided (w : World) (e : Eid) (r : Rid)
    (l : list Connection) (c : Connection) :
  wf w → signals w !! e = Some l → c ∈ l → object c = r →
  ∃ w1, disconnectSlot e r w = Some w1
    ∧ signals w1 !! e = Some (others r l)
    ∧ receivers w1 = receivers w
    ∧ ¬ wf w1
    ∧ ∃ w2 hs, SignalBaseTyped_destroy e w1 = Some w2
        ∧ signals w2 !! e = None
        ∧ receivers w2 !! r = Some hs ∧ e ∈ senders hs
        ∧ HasSlots_destroy r w2 = None.
Proof.
  intros Hwf Hl Hin Ho.
  destruct (wf_conn w Hwf e l c Hl Hin) as (hs & Hhs & He). rewrite Ho in Hhs.
  rewrite (disconnectSlot_spec _ _ _ l) by done.
  set (w1 := set_signal _ _ _).
  assert (signals w1 !! e = Some (others r l)) as Hl1
    by (subst w1; simpl; by rewrite lookup_insert_eq).
  exists w1. split_and!; try done.
  - intros Hwf1.
    destruct (wf_back w1 Hwf1 r hs e Hhs He) as (l' & c' & Hl' & Hc' & Ho').
    rewrite Hl1 in Hl'. injection Hl' as <-.
    by apply elem_of_others in Hc' as [? _].
  - destruct (forget_loop_spec e (others r l) w1)
      as (w2 & Hrun & Hsig & _ & Hrec).
    { intros c' Hc'. apply elem_of_others in Hc' as [_ Hc'].
      by apply (wf_targets_alive w e l). }
    assert (receivers w2 !! r = Some hs) as Hr2.
    { rewrite Hrec, decide_False; [done|]. intros Hr.
      apply list_elem_of_fmap in Hr as (c' & -> & Hc').
      by apply elem_of_others in Hc' as [? _]. }
    exists (mkWorld (receivers w2) (delete e (signals w2)) (trace w2)), hs.
    unfold SignalBaseTyped_destroy. rewrite Hl1. simpl. rewrite Hrun. simpl.
    split_and!; try done.
    + by rewrite lookup_delete_eq.
    + unfold HasSlots_destroy, HasSlots_disconnectAll. simpl.
      rewrite Hr2. simpl.
      rewrite (HasSlots_disconnectAll_loop_dead r _ _ e); [done| |].
      * by apply elem_of_elements.
      * simpl. by rewrite lookup_delete_eq.
Qed.

Section OneSided.
Context {Args UState Exn : Type}.
Variable slot_body : Rid → Fid → Args → UState → UState * option Exn.

(** X5. [duplicateSlot] tells nobody either.  Let a client call it with
    [new], and let [tgt] be the receiver the copies point at ([new] itself
    for connections of classes that have [HasSlots] at offset 0), alive and
    not listing the signal.  The call appends the copies and leaves the
    sender set of [tgt] as it is, which breaks the invariant: when [tgt] is
    then destroyed the copies stay in the list, and an emit in which the
    slots before them return follows their pointer to a receiver that is
    gone. *)
Theorem X5_duplicateSlot_one_sided (w : World) (e : Eid) (old new tgt : Rid)
    (l : list Connection) (c : Connection) (hs' : HasSlots) :
  wf w → signals w !! e = Some l → c ∈ l → object c = old →
  (∀ c', c' ∈ l → object c' = old → object (duplicate c' new) = tgt) →
  receivers w !! tgt = Some hs' → e ∉ senders hs' →
  ∃ w1, duplicateSlot e old new w = Some w1
    ∧ signals w1 !! e = Some (with_copies old new l)
    ∧ receivers w1 = receivers w
    ∧ ¬ wf w1
    ∧ ∃ w2, HasSlots_destroy tgt w1 = Some w2
        ∧ receivers w2 !! tgt = None
        ∧ signals w2 !! e = Some (with_copies old new l)
        ∧ duplicate c new ∈ with_copies old new l
        ∧ ∀ arguments u,
            quiet slot_body arguments (eligible w l) u →
            shoot slot_body e arguments w2 u = None.
Proof.
  intros Hwf Hl Hin Ho Hobj Htgt He'.
  destruct (wf_conn w Hwf e l c Hl Hin) as (hs & Hhs & He). rewrite Ho in Hhs.
  assert (old ≠ tgt) as Hne by (intros ->; congruence).
  rewrite (duplicateSlot_spec _ _ _ _ l);
    [|done|by intros c' Hc' Ho'; rewrite (Hobj c' Hc' Ho')].
  set (w1 := set_signal _ _ _).
  assert (signals w1 !! e = Some (with_copies old new l)) as Hl1
    by (subst w1; simpl; by rewrite lookup_insert_eq).
  assert (duplicate c new ∈ with_copies old new l) as Hdup.
  { apply elem_of_app. right. apply list_elem_of_fmap. exists c.
    split; [done|]. by apply elem_of_targets. }
  exists w1. split_and!; try done.
  - intros Hwf1.
    destruct (wf_conn w1 Hwf1 e _ _ Hl1 Hdup) as (hs1 & Hhs1 & He1).
    rewrite (Hobj c Hin Ho) in Hhs1. simpl in Hhs1. rewrite Htgt in Hhs1.
    by injection Hhs1 as <-.
  - destruct (HasSlots_destroy_alive tgt w1 hs' Htgt)
      as (w2 & Hrun & Hrec & Hsig).
    { intros i Hi. subst w1; simpl.
      destruct (wf_senders_alive w tgt hs' Hwf Htgt i Hi) as [li Hli].
      destruct (decide (e = i)) as [->|Hn].
      - rewrite lookup_insert_eq. by eexists.
      - rewrite lookup_insert_ne by done. by eexists. }
    assert (signals w2 !! e = Some (with_copies old new l)) as Hl2
      by (by rewrite Hsig, decide_False).
    assert (receivers w2 !! tgt = None) as Hgone
      by (by rewrite Hrec, lookup_delete_eq).
    assert (∀ c', c' ∈ l → object c' ≠ tgt) as Hnot.
    { intros c' Hc' Ho'.
      destruct (wf_conn w Hwf e l c' Hl Hc') as (hs1 & Hhs1 & He1).
      rewrite Ho', Htgt in Hhs1. by injection Hhs1 as <-. }
    assert (∀ c', c' ∈ l → receivers w2 !! object c' = receivers w !! object c')
      as Hsame.
    { intros c' Hc'. rewrite Hrec, lookup_delete_ne; [done|].
      intros Heq. by apply (Hnot c'). }
    exists w2. split_and!; try done.
    intros arguments u Hq. unfold shoot. rewrite Hl2. simpl.
    assert (eligible w2 l = eligible w l) as Hel.
    { apply eligible_same. intros c' Hc'. unfold isActive.
      by rewrite Hsame. }
    unfold with_copies. rewrite shoot_loop_app_quiet.
    + destruct (targets old l) as [|c0 t] eqn:Ht.
      { exfalso. by apply (proj1 (targets_nil_iff old l) Ht c). }
      assert (c0 ∈ targets old l) as Hc0 by (rewrite Ht; by left).
      apply elem_of_targets in Hc0 as [Ho0 Hc0].
      pose proof (Hobj c0 Hc0 Ho0) as Hd0. simpl in Hd0.
      simpl. unfold getDestination, isActive. simpl.
      rewrite Hd0. by rewrite Hgone.
    + intros c' Hc'. rewrite Hsame by done. by apply (wf_targets_alive w e l).
    + by rewrite Hel.
Qed.
End OneSided.

(** ** Round trips *)

Lemma drop_add_sender (e : Eid) (hs : HasSlots) :
  e ∉ senders hs → drop_sender e (add_sender e hs) = hs.
Proof.
  intros He. destruct hs as [S a]. unfold drop_sender, add_sender. simpl in *.
  f_equal. set_solver.
Qed.

(** A receiver lists a signal only if the signal holds a connection to it. *)
Lemma wf_not_listed (w : World) (e : Eid) (r : Rid) (l : list Connection)
    (hs : HasSlots) :
  wf w → signals w !! e = Some l → receivers w !! r = Some hs →
  targets r l = [] → e ∉ senders hs.
Proof.
  intros Hwf Hl Hr Hnil He.
  destruct (wf_back w Hwf r hs e Hr He) as (l' & c & Hl' & Hc & Ho).
  rewrite Hl in Hl'. injection Hl' as <-.
  by apply (proj1 (targets_nil_iff r l) Hnil c).
Qed.

Lemma wf_not_listed_dead (w : World) (e : Eid) (r : Rid) (hs : HasSlots) :
  wf w → signals w !! e = None → receivers w !! r = Some hs → e ∉ senders hs.
Proof.
  intros Hwf Hdead Hr He.
  destruct (wf_back w Hwf r hs e Hr He) as (l' & c & Hl' & _). congruence.
Qed.

(** X6. [connect] then [disconnect].  After [connect(r, f)] a
    [disconnect(r)] removes every connection of the signal to [r], the ones
    it had before as well: the list is the old one without its connections to
    [r], and [r] does not list the signal.  When the signal had no connection
    to [r] the two calls are a round trip: lists and sender sets are all as
    before. *)
Theorem X6_connect_disconnect (w : World) (e : Eid) (r : Rid) (f : Fid)
    (l : list Connection) (hs : HasSlots) :
  wf w → signals w !! e = Some l → receivers w !! r = Some hs →
  ∃ w1 w2, connect e r f w = Some w1 ∧ disconnect e r w1 = Some w2
    ∧ signals w2 = <[e:=others r l]> (signals w)
    ∧ receivers w2 = <[r:=drop_sender e hs]> (receivers w)
    ∧ (targets r l = [] →
       signals w2 = signals w ∧ receivers w2 = receivers w).
Proof.
  intros Hwf Hl Hr.
  pose proof (connect_spec e r f w l hs Hl Hr) as Hc.
  set (w1 := mkWorld _ _ _) in Hc.
  assert (signals w1 !! e = Some (l ++ [mkConnection r f])) as Hl1
    by (subst w1; simpl; by rewrite lookup_insert_eq).
  assert (receivers w1 !! r = Some (add_sender e hs)) as Hr1
    by (subst w1; simpl; by rewrite lookup_insert_eq).
  pose proof (disconnect_spec e r w1 _ _ Hl1 Hr1) as Hd.
  rewrite targets_app, others_app, length_app in Hd.
  rewrite (targets_cons_eq r (mkConnection r f) []) in Hd by done.
  rewrite (others_cons_eq r (mkConnection r f) []) in Hd by done.
  rewrite Nat.add_comm in Hd. simpl in Hd. rewrite app_nil_r in Hd.
  assert (drop_sender e (add_sender e hs) = drop_sender e hs) as Hdrop.
  { unfold drop_sender, add_sender. simpl. f_equal. set_solver. }
  eexists _, _. split; [exact Hc|]. split; [exact Hd|]. simpl.
  rewrite !insert_insert_eq, Hdrop. split_and!; try done.
  intros Hnil. rewrite others_all by done. split.
  - by apply insert_id.
  - apply insert_id. rewrite Hr. f_equal. symmetry.
    destruct hs as [S a]. unfold drop_sender. simpl. f_equal.
    assert (e ∉ S) by (by apply (wf_not_listed w e r l (mkHasSlots S a))).
    set_solver.
Qed.

(** X7. Copying a receiver and destroying the copy is a round trip when the
    connections to the source are to classes that have [HasSlots] at offset
    0: the copies then point at the copy, its destructor takes them out, and
    the lists of all the signals and all the receivers are as before the
    copy. *)
Theorem X7_receiver_copy_destroy (w : World) (R1 R2 : Rid) (hs : HasSlots) :
  wf w → aligned_to R1 w →
  receivers w !! R1 = Some hs → receivers w !! R2 = None →
  ∃ w1 w2, HasSlots_copy R1 R2 w = Some w1 ∧ HasSlots_destroy R2 w1 = Some w2
    ∧ signals w2 = signals w ∧ receivers w2 = receivers w.
Proof.
  intros Hwf Hal Hr Hfree.
  assert (R1 ≠ R2) as Hne by congruence.
  destruct (HasSlots_copy_spec R1 R2 w hs Hwf Hr Hfree)
    as (w1 & Hrun & Hrec & _ & Hsig); [by apply aligned_no_alias|].
  assert (wf w1) as Hwf1 by (by apply (wf_HasSlots_copy R1 R2 w)).
  assert (receivers w1 !! R2 = Some (mkHasSlots (senders hs) (active hs)))
    as Hr2 by (by rewrite Hrec, lookup_insert_eq).
  destruct (HasSlots_destroy_spec R2 w1 _ Hwf1 Hr2)
    as (w2 & Hrun2 & Hrec2 & _ & Hsig2).
  exists w1, w2. split_and!; try done.
  - apply map_eq. intros e. rewrite Hsig2, Hsig. simpl.
    case_decide as He; [|done].
    destruct (signals w !! e) as [l|] eqn:Hl; [|done]. simpl. f_equal.
    unfold with_copies. rewrite others_app. rewrite (others_all R2 l).
    + assert (others R2 ((λ c, duplicate c R2) <$> targets R1 l) = []) as ->;
        [|by rewrite app_nil_r].
      assert (∀ c, c ∈ targets R1 l → base_offset (function c) = 0) as Hz.
      { intros c Hc. apply elem_of_targets in Hc as [Ho Hc].
        by apply (Hal e l c). }
      induction (targets R1 l) as [|c t IH]; [done|].
      rewrite fmap_cons, others_cons_eq.
      * apply IH. intros c' Hc'. apply Hz. by right.
      * apply object_duplicate_aligned. apply Hz. by left.
    + by apply (wf_no_dangling w e).
  - rewrite Hrec2, Hrec, delete_insert_eq. by apply delete_id.
Qed.

(** X8. Copying a signal and destroying the copy is a round trip: the lists
    of all the signals and the sender sets of all the receivers are as before
    the copy. *)
Theorem X8_signal_copy_destroy (w : World) (S1 S2 : Eid)
    (l : list Connection) :
  wf w → signals w !! S1 = Some l → signals w !! S2 = None →
  ∃ w1 w2, SignalBaseTyped_copy S1 S2 w = Some w1
    ∧ SignalBaseTyped_destroy S2 w1 = Some w2
    ∧ signals w2 = signals w ∧ receivers w2 = receivers w.
Proof.
  intros Hwf Hl Hfree.
  destruct (SignalBaseTyped_copy_spec S1 S2 w l Hwf Hl Hfree)
    as (w1 & Hrun & Hsig & _ & Hrec).
  assert (wf w1) as Hwf1 by (by apply (wf_SignalBaseTyped_copy S1 S2 w)).
  assert (signals w1 !! S2 = Some l) as Hl2
    by (by rewrite Hsig, lookup_insert_eq).
  destruct (SignalBaseTyped_destroy_spec S2 w1 l Hwf1 Hl2)
    as (w2 & Hrun2 & Hsig2 & _ & Hrec2).
  exists w1, w2. split_and!; try done.
  - rewrite Hsig2, Hsig, delete_insert_eq. by apply delete_id.
  - apply map_eq. intros r. rewrite Hrec2, Hrec.
    case_decide as Hin; [|done].
    destruct (receivers w !! r) as [hs|] eqn:Hr; [|done]. simpl. f_equal.
    apply drop_add_sender. by apply (wf_not_listed_dead w S2 r).
Qed.

(** X10. Copying a receiver and destroying the source moves the
    connections when they are to classes that have [HasSlots] at offset 0:
    in every signal the connections to the source are gone, the other ones
    are in their places, and the copies, which point at the new receiver
    with the same slots, come last; the new receiver has the senders and the
    flag the source had. *)
Theorem X10_copy_then_destroy_source (w : World) (R1 R2 : Rid)
    (hs : HasSlots) :
  wf w → aligned_to R1 w →
  receivers w !! R1 = Some hs → receivers w !! R2 = None →
  ∃ w1 w2, HasSlots_copy R1 R2 w = Some w1 ∧ HasSlots_destroy R1 w1 = Some w2
    ∧ receivers w2 !! R1 = None
    ∧ receivers w2 !! R2 = Some hs
    ∧ ∀ e l, signals w !! e = Some l →
        signals w2 !! e
        = Some (others R1 l ++ ((λ c, duplicate c R2) <$> targets R1 l))
        ∧ ∀ c, c ∈ (λ c, duplicate c R2) <$> targets R1 l → object c = R2.
Proof.
  intros Hwf Hal Hr Hfree.
  assert (R1 ≠ R2) as Hne by congruence.
  destruct (HasSlots_copy_spec R1 R2 w hs Hwf Hr Hfree)
    as (w1 & Hrun & Hrec & _ & Hsig); [by apply aligned_no_alias|].
  assert (wf w1) as Hwf1 by (by apply (wf_HasSlots_copy R1 R2 w)).
  assert (receivers w1 !! R1 = Some hs) as Hr1
    by (by rewrite Hrec, lookup_insert_ne).
  destruct (HasSlots_destroy_spec R1 w1 hs Hwf1 Hr1)
    as (w2 & Hrun2 & Hrec2 & _ & Hsig2).
  exists w1, w2. split_and!; try done.
  - by rewrite Hrec2, lookup_delete_eq.
  - rewrite Hrec2, lookup_delete_ne, Hrec, lookup_insert_eq by done.
    by destruct hs.
  - intros e l Hl.
    assert (∀ c, c ∈ (λ c, duplicate c R2) <$> targets R1 l → object c = R2)
      as Hobj.
    { intros c Hc. apply list_elem_of_fmap in Hc as (c' & -> & Hc').
      apply elem_of_targets in Hc' as [Ho Hc'].
      apply object_duplicate_aligned. by apply (Hal e l c'). }
    split; [|done].
    rewrite Hsig2, Hsig, Hl. case_decide as He; simpl.
    + f_equal. unfold with_copies. rewrite others_app. f_equal.
      apply others_all. apply targets_nil_iff. intros c Hc.
      rewrite (Hobj c Hc). congruence.
    + assert (targets R1 l = []) as Hnil.
      { apply targets_nil_iff. intros c Hc Ho.
        destruct (wf_conn w Hwf e l c Hl Hc) as (hs' & Hhs' & He').
        rewrite Ho, Hr in Hhs'. by injection Hhs' as <-. }
      rewrite Hnil, others_all by done. simpl. by rewrite app_nil_r.
Qed.

(** X11. [HasSlots::disconnectAll] on a receiver that stays alive: the call
    returns, no signal holds a connection to the receiver any more and the
    connections to other receivers keep their order, the receiver lists no
    signal and keeps its flag, no other receiver changes, and no receiver is
    told anything; a second call changes nothing. *)
Theorem X11_receiver_disconnectAll (w : World) (r : Rid) (hs : HasSlots) :
  wf w → receivers w !! r = Some hs →
  ∃ w1, HasSlots_disconnectAll r w = Some w1
    ∧ receivers w1 = <[r:=mkHasSlots ∅ (active hs)]> (receivers w)
    ∧ (∀ e l, signals w !! e = Some l → signals w1 !! e = Some (others r l))
    ∧ (∀ e, signals w !! e = None → signals w1 !! e = None)
    ∧ (∀ r' e, EvSignalDisconnect r' e ∉ since w w1)
    ∧ HasSlots_disconnectAll r w1 = Some w1.
Proof.
  intros Hwf Hr.
  destruct (HasSlots_disconnectAll_spec r w hs Hwf Hr)
    as (w1 & Hrun & Hrec & Htr & Hsig).
  exists w1. split_and!; try done.
  - intros e l Hl. rewrite Hsig, Hl. case_decide as He; [done|]. f_equal.
    symmetry. apply others_all. apply targets_nil_iff. intros c Hc Ho.
    destruct (wf_conn w Hwf e l c Hl Hc) as (hs' & Hhs' & He').
    rewrite Ho, Hr in Hhs'. by injection Hhs' as <-.
  - intros e Hdead. rewrite Hsig, Hdead. by case_decide.
  - intros r' e Hin. rewrite (since_trace _ _ _ Htr) in Hin.
    by apply list_elem_of_fmap in Hin as (i & ? & _).
  - unfold HasSlots_disconnectAll. rewrite Hrec, lookup_insert_eq. simpl.
    rewrite elements_empty. simpl. f_equal.
    destruct w1 as [rs ss tr]. unfold set_receiver. simpl in *. f_equal.
    rewrite Hrec. by rewrite insert_insert_eq.
Qed.

(** ** Emit after a disconnect *)

Lemma eligible_others (w : World) (r : Rid) (l : list Connection) :
  eligible w (others r l) = others r (eligible w l).
Proof.
  unfold eligible, others. induction l as [|c l IH]; [done|].
  rewrite !filter_cons.
  destruct (decide (getDestination c ≠ r));
    destruct (decide (isActive (getDestination c) w = Some true));
    rewrite ?filter_cons, ?decide_True, ?decide_False by done;
    by rewrite IH.
Qed.

Section EmitAfterDisconnect.
Context {Args UState Exn : Type}.
Variable slot_body : Rid → Fid → Args → UState → UState * option Exn.

(** X9. [disconnect] keeps the order of what it leaves.  After
    [disconnect(r)], an emit in which no slot throws calls the slots an emit
    would have called before, without the slots of [r], in the same order. *)
Theorem X9_emit_after_disconnect (w : World) (e : Eid) (r : Rid)
    (l : list Connection) (arguments : Args) (u : UState) :
  wf w → signals w !! e = Some l →
  quiet slot_body arguments (others r (eligible w l)) u →
  ∃ w1 w1', disconnect e r w = Some w1
    ∧ shoot slot_body e arguments w1 u
      = Some (w1', run_slots slot_body arguments (others r (eligible w l)) u,
              None)
    ∧ since w1 w1' = shot <$> others r (eligible w l).
Proof.
  intros Hwf Hl Hq.
  assert (∃ w1, disconnect e r w = Some w1
            ∧ signals w1 !! e = Some (others r l)
            ∧ ∀ r', isActive r' w1 = isActive r' w) as (w1 & Hd & Hl1 & Hact).
  { destruct (disconnect_wf_spec e r w l Hwf Hl)
      as [[Hnil Heq]|(hs & _ & Hr & Heq)].
    - exists w. by rewrite others_all.
    - eexists. split; [done|]. simpl. rewrite lookup_insert_eq.
      split; [done|]. intros r'. unfold isActive. simpl.
      destruct (decide (r = r')) as [<-|Hne].
      + by rewrite lookup_insert_eq, Hr.
      + by rewrite lookup_insert_ne. }
  assert (wf w1) as Hwf1 by (by apply (wf_disconnect e r w)).
  assert (eligible w1 (others r l) = others r (eligible w l)) as Hel.
  { rewrite <- eligible_others. by apply eligible_same. }
  exists w1. eexists. split; [done|]. unfold shoot. rewrite Hl1. simpl.
  rewrite shoot_loop_quiet;
    [|by apply (wf_targets_alive w1 e)|by rewrite Hel].
  rewrite Hel. split; [done|]. by rewrite since_logged.
Qed.
End EmitAfterDisconnect.

(** ** The locks a call takes *)

(** The calls a call of a client makes on other objects: a call on a signal
    calls receivers only, a call on a receiver calls signals only, and the
    calls that open no [LockBlock] call nobody. *)
Lemma call_events (c : Call) (w w' : World) :
  wf w → call c w = Some w' →
  ∃ evs, trace w' = trace w ++ evs
    ∧ match call_lock c with
      | Some (ObjSignal _) =>
          Forall (λ ev, ∃ r, callee ev = Some (ObjReceiver r)) evs
      | Some (ObjReceiver _) =>
          Forall (λ ev, ∃ e, callee ev = Some (ObjSignal e)) evs
      | None => evs = []
      end.
Proof.
  intros Hwf Hrun. destruct c; simpl in *.
  - unfold HasSlots_new in Hrun. destruct (receivers w !! r); [done|].
    injection Hrun as <-. exists []. by rewrite app_nil_r.
  - unfold SignalBaseTyped_new in Hrun. destruct (signals w !! e); [done|].
    injection Hrun as <-. exists []. by rewrite app_nil_r.
  - unfold connect, signalConnect in Hrun.
    destruct (signals w !! e); [|done]. simpl in Hrun.
    destruct (receivers w !! r); [|done]. injection Hrun as <-.
    eexists. split; [done|]. apply Forall_singleton. by eexists.
  - destruct (signals w !! e) as [l|] eqn:Hl;
      [|by unfold disconnect in Hrun; rewrite Hl in Hrun].
    destruct (disconnect_wf_spec e r w l Hwf Hl)
      as [[_ Heq]|(hs & _ & _ & Heq)];
      rewrite Heq in Hrun; injection Hrun as <-.
    + exists []. by rewrite app_nil_r.
    + eexists. split; [done|]. apply Forall_forall. intros ev Hev.
      apply elem_of_replicate in Hev as [-> _]. by eexists.
  - destruct (signals w !! e) as [l|] eqn:Hl;
      [|by unfold SignalBaseTyped_disconnectAll in Hrun; rewrite Hl in Hrun].
    destruct (SignalBaseTyped_disconnectAll_spec e w l Hwf Hl)
      as (w1 & Heq & _ & Htr & _).
    assert (w1 = w') as -> by congruence.
    eexists. split; [done|]. apply Forall_forall. intros ev Hev.
    apply list_elem_of_fmap in Hev as (c & -> & _). by eexists.
  - destruct (receivers w !! r) as [hs|] eqn:Hr;
      [|by unfold HasSlots_disconnectAll in Hrun; rewrite Hr in Hrun].
    destruct (HasSlots_disconnectAll_spec r w hs Hwf Hr)
      as (w1 & Heq & _ & Htr & _).
    assert (w1 = w') as -> by congruence.
    eexists. split; [done|]. apply Forall_forall. intros ev Hev.
    apply list_elem_of_fmap in Hev as (i & -> & _). by eexists.
  - unfold setActive in Hrun. destruct (receivers w !! r); [|done].
    injection Hrun as <-. exists []. by rewrite app_nil_r.
  - destruct (receivers w !! src) as [hs|] eqn:Hr;
      [|by unfold HasSlots_copy in Hrun; rewrite Hr in Hrun].
    destruct (receivers w !! this) as [?|] eqn:Hfree;
      [by unfold HasSlots_copy in Hrun; rewrite Hr in Hrun; simpl in Hrun;
          rewrite Hfree in Hrun|].
    destruct (HasSlots_copy_spec src this w hs Hwf Hr Hfree)
      as (w1 & Heq & _ & Htr & _);
      [by apply (HasSlots_copy_no_alias src this w w')|].
    assert (w1 = w') as -> by congruence.
    eexists. split; [done|]. apply Forall_forall. intros ev Hev.
    apply list_elem_of_fmap in Hev as (i & -> & _). by eexists.
  - destruct (signals w !! src) as [l|] eqn:Hl;
      [|by unfold SignalBaseTyped_copy in Hrun; rewrite Hl in Hrun].
    destruct (signals w !! this) as [?|] eqn:Hfree;
      [by unfold SignalBaseTyped_copy in Hrun; rewrite Hl in Hrun;
          simpl in Hrun; rewrite Hfree in Hrun|].
    destruct (SignalBaseTyped_copy_spec src this w l Hwf Hl Hfree)
      as (w1 & Heq & _ & Htr & _).
    assert (w1 = w') as -> by congruence.
    eexists. split; [done|]. apply Forall_forall. intros ev Hev.
    apply list_elem_of_fmap in Hev as (c & -> & _). by eexists.
  - destruct (receivers w !! r) as [hs|] eqn:Hr;
      [|by unfold HasSlots_destroy, HasSlots_disconnectAll in Hrun;
           rewrite Hr in Hrun].
    destruct (HasSlots_destroy_spec r w hs Hwf Hr) as (w1 & Heq & _ & Htr & _).
    assert (w1 = w') as -> by congruence.
    eexists. split; [done|]. apply Forall_forall. intros ev Hev.
    apply list_elem_of_fmap in Hev as (i & -> & _). by eexists.
  - destruct (signals w !! e) as [l|] eqn:Hl;
      [|by unfold SignalBaseTyped_destroy in Hrun; rewrite Hl in Hrun].
    destruct (SignalBaseTyped_destroy_spec e w l Hwf Hl)
      as (w1 & Heq & _ & Htr & _).
    assert (w1 = w') as -> by congruence.
    eexists. split; [done|]. apply Forall_forall. intros ev Hev.
    apply list_elem_of_fmap in Hev as (c & -> & _). by eexists.
Qed.

(** With a mutex in every object, calls on objects whose mutex is not held
    lock and unlock in turn, and lock nothing twice. *)
Lemma relocks_nested_local (held : list Mutex) (evs : list Event)
    (rest : list LockOp) :
  (∀ ev o, ev ∈ evs → callee ev = Some o → LocalMutex o ∉ held) →
  relocks held (nested_locks MultiThreadedLocal evs ++ rest)
  = relocks held rest.
Proof.
  induction evs as [|ev evs IH]; intros Hfree; [done|].
  assert (relocks held (nested_locks MultiThreadedLocal evs ++ rest)
          = relocks held rest) as IH'.
  { apply IH. intros ev' o Hev'. apply Hfree. by right. }
  unfold nested_locks in *. simpl.
  destruct (callee ev) as [o|] eqn:Hc; [|done]. simpl.
  rewrite bool_decide_eq_false_2 by (apply (Hfree ev); [by left|done]).
  simpl. by rewrite decide_True.
Qed.

(** What is carried out of a sequence that locks no held mutex is the
    sequence. *)
Lemma performed_all (held : list Mutex) (ops : list LockOp) :
  relocks held ops = false → performed held ops = ops.
Proof.
  revert held. induction ops as [|[m|m] ops IH]; intros held Hr; simpl in *.
  - done.
  - apply orb_false_iff in Hr as [Hm Hr]. rewrite Hm. f_equal. by apply IH.
  - f_equal. by apply IH.
Qed.

Lemma nested_locks_single (evs : list Event) :
  nested_locks SingleThreaded evs = [].
Proof.
  unfold nested_locks. induction evs as [|ev evs IH]; [done|].
  simpl. rewrite IH. by destruct (callee ev).
Qed.

Lemma lock_program_single (c : Call) (w w' : World) :
  lock_program SingleThreaded c w w' = [].
Proof.
  unfold lock_program, LockBlock. rewrite nested_locks_single.
  by destruct (call_lock c).
Qed.

Lemma lock_program_local (c : Call) (w w' : World) :
  wf w → call c w = Some w' →
  relocks [] (lock_program MultiThreadedLocal c w w') = false.
Proof.
  intros Hwf Hrun.
  destruct (call_events c w w' Hwf Hrun) as (evs & Htr & Hkind).
  unfold lock_program. rewrite (since_trace _ _ _ Htr).
  destruct (call_lock c) as [[r|e]|].
  - unfold LockBlock. simpl.
    rewrite relocks_nested_local; [done|].
    intros ev o Hev Ho Hheld. apply list_elem_of_singleton in Hheld.
    destruct (proj1 (Forall_forall _ _) Hkind ev Hev) as [e He]. congruence.
  - unfold LockBlock. simpl.
    rewrite relocks_nested_local; [done|].
    intros ev o Hev Ho Hheld. apply list_elem_of_singleton in Hheld.
    destruct (proj1 (Forall_forall _ _) Hkind ev Hev) as [r Hr]. congruence.
  - by rewrite Hkind.
Qed.

(** With the one mutex of the process, a call that calls another object
    stops at the [lock] of the callee, and a call that calls none goes
    through. *)
Lemma lock_program_global (c : Call) (w w' : World) :
  wf w → call c w = Some w' →
  (since w w' = [] →
   relocks [] (lock_program MultiThreadedGlobal c w w') = false)
  ∧ (since w w' ≠ [] →
     call_lock c ≠ None
     ∧ relocks [] (lock_program MultiThreadedGlobal c w w') = true
     ∧ performed [] (lock_program MultiThreadedGlobal c w w')
       = [Lock GlobalMutex; Lock GlobalMutex]).
Proof.
  intros Hwf Hrun.
  destruct (call_events c w w' Hwf Hrun) as (evs & Htr & Hkind).
  unfold lock_program. rewrite (since_trace _ _ _ Htr).
  assert (∀ ev, ev ∈ evs → ∃ o, callee ev = Some o) as Hcallee.
  { intros ev Hev. destruct (call_lock c) as [[r|e]|].
    - destruct (proj1 (Forall_forall _ _) Hkind ev Hev) as [x Hx].
      by eexists.
    - destruct (proj1 (Forall_forall _ _) Hkind ev Hev) as [x Hx].
      by eexists.
    - rewrite Hkind in Hev. by apply elem_of_nil in Hev. }
  destruct evs as [|ev evs].
  - split; [|done]. intros _. by destruct (call_lock c).
  - split; [done|]. intros _.
    destruct (Hcallee ev) as [o Ho]; [by left|].
    destruct (call_lock c) as [o'|]; [|done].
    unfold LockBlock, nested_locks. simpl. by rewrite Ho.
Qed.

(** X12. With [SingleThreaded] a call touches no mutex.  With
    [MultiThreadedLocal] no call of a client locks a mutex that it holds:
    inside its own [LockBlock] a call on a signal only calls receivers, and
    a call on a receiver only calls signals, each locked and unlocked in
    turn. *)
Theorem X12_local_policy_no_relock (c : Call) (w w' : World) :
  wf w → call c w = Some w' →
  locks SingleThreaded c w w' = []
  ∧ relocks [] (locks MultiThreadedLocal c w w') = false.
Proof.
  intros Hwf Hrun. unfold locks. split.
  - by rewrite lock_program_single.
  - pose proof (lock_program_local c w w' Hwf Hrun) as Hl.
    by rewrite (performed_all _ _ Hl).
Qed.

(** X13. With [MultiThreadedGlobal] and the mutex of POSIX threads, a call
    of a client that calls another object never returns: the callee opens
    its [LockBlock] on the mutex of the process inside the [LockBlock] of
    the caller, the mutex is not recursive, and all the call does to it is
    to lock it and to lock it again.  So a call returns exactly when its
    body returns without calling another object, and no [connect] returns,
    as every [connect] calls [signalConnect].  With the two other policies
    a call returns whenever its body does. *)
Theorem X13_global_policy_blocks (c : Call) (w : World) :
  wf w →
  (∀ w', call_under MultiThreadedGlobal c w = Some w'
         ↔ call c w = Some w' ∧ since w w' = [])
  ∧ (∀ w', call c w = Some w' → since w w' ≠ [] →
       locks MultiThreadedGlobal c w w'
       = [Lock GlobalMutex; Lock GlobalMutex])
  ∧ (∀ e r f, c = CallConnect e r f →
       call_under MultiThreadedGlobal c w = None)
  ∧ call_under SingleThreaded c w = call c w
  ∧ call_under MultiThreadedLocal c w = call c w.
Proof.
  intros Hwf.
  assert (∀ w', call_under MultiThreadedGlobal c w = Some w'
                ↔ call c w = Some w' ∧ since w w' = []) as Hiff.
  { intros w'. unfold call_under.
    destruct (call c w) as [w1|] eqn:Hrun; simpl; [|by split; [|intros []]].
    destruct (lock_program_global c w w1 Hwf Hrun) as [Hnone Hsome].
    destruct (since w w1) as [|ev evs] eqn:Hs.
    - rewrite Hnone by done. split.
      + intros [= <-]. by rewrite Hs.
      + by intros [[= <-] _].
    - destruct Hsome as (_ & -> & _); [done|]. split; [done|].
      intros [[= <-] Hnil]. by rewrite Hs in Hnil. }
  split_and!.
  - done.
  - intros w' Hrun Hs. unfold locks.
    by destruct (lock_program_global c w w' Hwf Hrun) as [_ (_ & _ & ?)].
  - intros e r f ->.
    apply eq_None_not_Some. intros [w' Hu].
    apply Hiff in Hu as [Hrun Hs].
    simpl in Hrun. unfold connect, signalConnect in Hrun.
    destruct (signals w !! e); [|done]. simpl in Hrun.
    destruct (receivers w !! r); [|done]. injection Hrun as <-.
    unfold since in Hs. simpl in Hs. rewrite drop_app_length in Hs. done.
  - unfold call_under. destruct (call c w) as [w'|]; [|done]. simpl.
    by rewrite lock_program_single.
  - unfold call_under. destruct (call c w) as [w'|] eqn:Hrun; [|done]. simpl.
    by rewrite (lock_program_local c w w').
Qed.

(** ** The order in which the senders are visited *)

(** X14. The loops of [HasSlots::disconnectAll] and of the copy constructor
    of [HasSlots] visit the senders in the order of the set, which is the
    order of their addresses.  The order makes no difference: visiting the
    same live senders in another order leaves the same lists in all the
    signals, the same receivers and, for the copy, the same sender set (the
    copy loop being one that ends: no copy it makes points at the source). *)
Theorem X14_sender_order_irrelevant (src this : Rid) (it it' : list Eid)
    (w : World) :
  it ≡ₚ it' → NoDup it →
  (∀ i l c, i ∈ it → signals w !! i = Some l → c ∈ l → object c = src →
            object (duplicate c this) ≠ src) →
  (∀ i, i ∈ it → is_Some (signals w !! i)) →
  (∃ w1 w1', HasSlots_disconnectAll_loop this it w = Some w1
     ∧ HasSlots_disconnectAll_loop this it' w = Some w1'
     ∧ signals w1 = signals w1' ∧ receivers w1 = receivers w1')
  ∧ (∃ mine w2 w2', HasSlots_copy_loop src this it ∅ w = Some (mine, w2)
       ∧ HasSlots_copy_loop src this it' ∅ w = Some (mine, w2')
       ∧ signals w2 = signals w2' ∧ receivers w2 = receivers w2').
Proof.
  intros Hperm Hnd Hne Halive.
  assert (∀ i, i ∈ it' → is_Some (signals w !! i)) as Halive'.
  { intros i Hi. apply Halive. by rewrite Hperm. }
  assert (NoDup it') as Hnd' by (by rewrite <- Hperm).
  assert (∀ (A : Type) (e : Eid) (x y : A),
            (if decide (e ∈ it) then x else y)
            = (if decide (e ∈ it') then x else y)) as Hsame.
  { intros A e x y. destruct (decide (e ∈ it)) as [Hin|Hn];
      destruct (decide (e ∈ it')) as [Hin'|Hn']; try done; exfalso.
    - apply Hn'. by rewrite <- Hperm.
    - apply Hn. by rewrite Hperm. }
  split.
  - destruct (HasSlots_disconnectAll_loop_spec this it w Halive)
      as (w1 & H1 & Hrec1 & _ & Hsig1).
    destruct (HasSlots_disconnectAll_loop_spec this it' w Halive')
      as (w1' & H1' & Hrec1' & _ & Hsig1').
    exists w1, w1'. split_and!; try done.
    + apply map_eq. intros e. by rewrite Hsig1, Hsig1', Hsame.
    + by rewrite Hrec1, Hrec1'.
  - assert (∀ i l c, i ∈ it' → signals w !! i = Some l → c ∈ l →
              object c = src → object (duplicate c this) ≠ src) as Hne'.
    { intros i l c Hi. apply Hne. by rewrite Hperm. }
    destruct (HasSlots_copy_loop_spec src this it ∅ w Hne Hnd Halive)
      as (w2 & H2 & Hrec2 & _ & Hsig2).
    destruct (HasSlots_copy_loop_spec src this it' ∅ w Hne' Hnd' Halive')
      as (w2' & H2' & Hrec2' & _ & Hsig2').
    exists (list_to_set it ∪ ∅), w2, w2'. split_and!; try done.
    + rewrite H2'. do 2 f_equal. apply set_eq. intros e.
      rewrite !elem_of_union, !elem_of_list_to_set. by rewrite Hperm.
    + apply map_eq. intros e. by rewrite Hsig2, Hsig2', Hsame.
    + by rewrite Hrec2, Hrec2'.
Qed.

(** ** The same on concrete stores *)

Lemma X1_witness :
  wf world_a
  ∧ ∃ w', run [CallCopyReceiver 1 5; CallDestroySignal 10] world_a = Some w'
      ∧ aligned world_a
      ∧ Forall aligned_call [CallCopyReceiver 1 5; CallDestroySignal 10]
      ∧ wf w' ∧ aligned w'.
Proof.
  split; [exact wf_world_a|].
  assert (is_Some (run [CallCopyReceiver 1 5; CallDestroySignal 10] world_a))
    as [w' Hrun] by (vm_compute; eexists; reflexivity).
  assert (Forall aligned_call [CallCopyReceiver 1 5; CallDestroySignal 10])
    as Hcs by (repeat constructor).
  exists w'. split; [exact Hrun|]. split; [exact aligned_world_a|].
  split; [exact Hcs|].
  exact (proj2 (X1_invariant_kept _ world_a w' wf_world_a Hrun)
           aligned_world_a Hcs).
Defined.

Lemma X2_witness :
  wf world_a
  ∧ call_ready (CallDisconnect 10 99) world_a
  ∧ is_Some (call (CallDisconnect 10 99) world_a)
  ∧ ¬ is_Some (call (CallConnect 10 99 (member 7)) world_a).
Proof.
  assert (call_ready (CallDisconnect 10 99) world_a) as Hready
    by (vm_compute; eexists; reflexivity).
  split; [exact wf_world_a|]. split; [exact Hready|]. split.
  - exact (proj2 (X2_call_returns _ world_a wf_world_a) Hready).
  - intros Hsome.
    destruct (proj1 (X2_call_returns _ world_a wf_world_a) Hsome)
      as [_ [hs Hhs]].
    vm_compute in Hhs. discriminate.
Defined.

Lemma X3_witness :
  signals world_a !! 10
  = Some [mkConnection 1 (member 7); mkConnection 2 (member 8);
          mkConnection 1 (member 9)]
  ∧ duplicateSlot 10 1 1 world_a = None
  ∧ signals world_f !! 10
    = Some [mkConnection 20 (member_at 8 7); mkConnection 2 (member 8)]
  ∧ ∃ w', duplicateSlot 10 20 20 world_f = Some w'
      ∧ signals w' !! 10
        = Some [mkConnection 20 (member_at 8 7); mkConnection 2 (member 8);
                mkConnection 28 (member_at 8 7)].
Proof.
  assert (signals world_a !! 10
          = Some [mkConnection 1 (member 7); mkConnection 2 (member 8);
                  mkConnection 1 (member 9)])
    as Hl by (vm_compute; reflexivity).
  assert (signals world_f !! 10
          = Some [mkConnection 20 (member_at 8 7); mkConnection 2 (member 8)])
    as Hf by (vm_compute; reflexivity).
  split; [exact Hl|].
  destruct (X3_duplicateSlot_termination 10 1 1 world_a _ Hl) as [Hdiv _].
  destruct (X3_duplicateSlot_termination 10 20 20 world_f _ Hf) as (_ & Hret & _).
  split; [|split; [exact Hf|]].
  - apply Hdiv. exists (mkConnection 1 (member 7)).
    split; [apply elem_of_cons; by left|]. split; reflexivity.
  - destruct Hret as (w' & Hrun & Hsig & _).
    + intros c Hc Ho.
      apply elem_of_cons in Hc as [->|Hc]; [discriminate|].
      apply elem_of_cons in Hc as [->|Hc]; [discriminate|].
      by apply elem_of_nil in Hc.
    + exists w'. split; [exact Hrun|]. rewrite Hsig.
      apply lookup_insert_eq.
Defined.

Lemma X4_witness :
  wf world_a
  ∧ signals world_a !! 10
    = Some [mkConnection 1 (member 7); mkConnection 2 (member 8); mkConnection 1 (member 9)]
  ∧ ∃ w1 w2, disconnectSlot 10 1 world_a = Some w1
      ∧ ¬ wf w1
      ∧ SignalBaseTyped_destroy 10 w1 = Some w2
      ∧ HasSlots_destroy 1 w2 = None.
Proof.
  assert (signals world_a !! 10
          = Some [mkConnection 1 (member 7); mkConnection 2 (member 8); mkConnection 1 (member 9)])
    as Hl by (vm_compute; reflexivity).
  split; [exact wf_world_a|]. split; [exact Hl|].
  destruct (X4_disconnectSlot_one_sided world_a 10 1 _ (mkConnection 1 (member 7))
              wf_world_a Hl)
    as (w1 & H1 & _ & _ & Hnwf & w2 & hs & H2 & _ & _ & _ & H3).
  - apply elem_of_cons. by left.
  - reflexivity.
  - exists w1, w2. split; [exact H1|]. split; [exact Hnwf|].
    split; [exact H2|exact H3].
Defined.

Lemma X5_witness :
  wf world_a
  ∧ signals world_a !! 10
    = Some [mkConnection 1 (member 7); mkConnection 2 (member 8); mkConnection 1 (member 9)]
  ∧ receivers world_a !! 4 = Some (mkHasSlots ∅ true)
  ∧ ∃ w1 w2, duplicateSlot 10 1 4 world_a = Some w1
      ∧ ¬ wf w1
      ∧ HasSlots_destroy 4 w1 = Some w2
      ∧ signals w2 !! 10
        = Some [mkConnection 1 (member 7); mkConnection 2 (member 8); mkConnection 1 (member 9);
                mkConnection 4 (member 7); mkConnection 4 (member 9)]
      ∧ shoot recording 10 5 w2 [] = None.
Proof.
  assert (signals world_a !! 10
          = Some [mkConnection 1 (member 7); mkConnection 2 (member 8); mkConnection 1 (member 9)])
    as Hl by (vm_compute; reflexivity).
  assert (receivers world_a !! 4 = Some (mkHasSlots ∅ true)) as Hr
    by (vm_compute; reflexivity).
  split; [exact wf_world_a|]. split; [exact Hl|]. split; [exact Hr|].
  destruct (X5_duplicateSlot_one_sided recording world_a 10 1 4 4 _
              (mkConnection 1 (member 7)) (mkHasSlots ∅ true) wf_world_a Hl)
    as (w1 & H1 & _ & _ & Hnwf & w2 & H2 & _ & Hl2 & _ & Hshoot);
    [apply elem_of_cons; by left|reflexivity|
     intros c' Hc' _; apply object_duplicate_aligned;
     exact (aligned_world_a 10 _ c' Hl Hc')|exact Hr|
     apply not_elem_of_empty|].
  exists w1, w2. split; [exact H1|]. split; [exact Hnwf|].
  split; [exact H2|]. split; [exact Hl2|].
  apply Hshoot. vm_compute. tauto.
Defined.

Lemma X6_witness :
  wf world_c
  ∧ signals world_c !! 10 = Some []
  ∧ receivers world_c !! 1 = Some (mkHasSlots ∅ true)
  ∧ ∃ w1 w2, connect 10 1 (member 7) world_c = Some w1 ∧ disconnect 10 1 w1 = Some w2
      ∧ signals w2 = signals world_c ∧ receivers w2 = receivers world_c.
Proof.
  assert (receivers world_c !! 1 = Some (mkHasSlots ∅ true)) as Hr
    by (vm_compute; reflexivity).
  split; [exact wf_world_c|]. split; [reflexivity|]. split; [exact Hr|].
  destruct (X6_connect_disconnect world_c 10 1 (member 7) [] _ wf_world_c eq_refl Hr)
    as (w1 & w2 & H1 & H2 & _ & _ & Hround).
  exists w1, w2. split; [exact H1|]. split; [exact H2|].
  apply Hround. reflexivity.
Defined.

Lemma X7_witness :
  wf world_a
  ∧ receivers world_a !! 1 = Some (mkHasSlots {[10]} true)
  ∧ receivers world_a !! 5 = None
  ∧ ∃ w1 w2, HasSlots_copy 1 5 world_a = Some w1
      ∧ HasSlots_destroy 5 w1 = Some w2
      ∧ signals w2 = signals world_a ∧ receivers w2 = receivers world_a.
Proof.
  assert (receivers world_a !! 1 = Some (mkHasSlots {[10]} true)) as Hr
    by (vm_compute; reflexivity).
  assert (receivers world_a !! 5 = None) as Hfree by (vm_compute; reflexivity).
  split; [exact wf_world_a|]. split; [exact Hr|]. split; [exact Hfree|].
  exact (X7_receiver_copy_destroy world_a 1 5 _ wf_world_a
           (aligned_aligned_to 1 world_a aligned_world_a) Hr Hfree).
Defined.

Lemma X8_witness :
  wf world_a
  ∧ signals world_a !! 10
    = Some [mkConnection 1 (member 7); mkConnection 2 (member 8); mkConnection 1 (member 9)]
  ∧ signals world_a !! 11 = None
  ∧ ∃ w1 w2, SignalBaseTyped_copy 10 11 world_a = Some w1
      ∧ SignalBaseTyped_destroy 11 w1 = Some w2
      ∧ signals w2 = signals world_a ∧ receivers w2 = receivers world_a.
Proof.
  assert (signals world_a !! 10
          = Some [mkConnection 1 (member 7); mkConnection 2 (member 8); mkConnection 1 (member 9)])
    as Hl by (vm_compute; reflexivity).
  assert (signals world_a !! 11 = None) as Hfree by (vm_compute; reflexivity).
  split; [exact wf_world_a|]. split; [exact Hl|]. split; [exact Hfree|].
  exact (X8_signal_copy_destroy world_a 10 11 _ wf_world_a Hl Hfree).
Defined.

Lemma X9_witness :
  wf world_a
  ∧ signals world_a !! 10
    = Some [mkConnection 1 (member 7); mkConnection 2 (member 8); mkConnection 1 (member 9)]
  ∧ ∃ w1 w1', disconnect 10 2 world_a = Some w1
      ∧ shoot recording 10 5 w1 [] = Some (w1', [(1, 7, 5); (1, 9, 5)], None)
      ∧ since w1 w1' = [EvShoot 1 (member 7); EvShoot 1 (member 9)].
Proof.
  assert (signals world_a !! 10
          = Some [mkConnection 1 (member 7); mkConnection 2 (member 8); mkConnection 1 (member 9)])
    as Hl by (vm_compute; reflexivity).
  split; [exact wf_world_a|]. split; [exact Hl|].
  apply (X9_emit_after_disconnect recording world_a 10 2 _ 5 []
           wf_world_a Hl).
  vm_compute. tauto.
Defined.

Lemma X10_witness :
  wf world_a
  ∧ receivers world_a !! 1 = Some (mkHasSlots {[10]} true)
  ∧ receivers world_a !! 5 = None
  ∧ ∃ w1 w2, HasSlots_copy 1 5 world_a = Some w1
      ∧ HasSlots_destroy 1 w1 = Some w2
      ∧ receivers w2 !! 5 = Some (mkHasSlots {[10]} true)
      ∧ signals w2 !! 10
        = Some [mkConnection 2 (member 8); mkConnection 5 (member 7); mkConnection 5 (member 9)].
Proof.
  assert (receivers world_a !! 1 = Some (mkHasSlots {[10]} true)) as Hr
    by (vm_compute; reflexivity).
  assert (receivers world_a !! 5 = None) as Hfree by (vm_compute; reflexivity).
  split; [exact wf_world_a|]. split; [exact Hr|]. split; [exact Hfree|].
  destruct (X10_copy_then_destroy_source world_a 1 5 _ wf_world_a
              (aligned_aligned_to 1 world_a aligned_world_a) Hr Hfree)
    as (w1 & w2 & H1 & H2 & _ & Hr2 & Hmove).
  exists w1, w2. split; [exact H1|]. split; [exact H2|]. split; [exact Hr2|].
  apply (Hmove 10 [mkConnection 1 (member 7); mkConnection 2 (member 8);
                   mkConnection 1 (member 9)]).
  vm_compute; reflexivity.
Defined.

Lemma X11_witness :
  wf world_a
  ∧ receivers world_a !! 1 = Some (mkHasSlots {[10]} true)
  ∧ ∃ w1, HasSlots_disconnectAll 1 world_a = Some w1
      ∧ signals w1 !! 10 = Some [mkConnection 2 (member 8)]
      ∧ HasSlots_disconnectAll 1 w1 = Some w1.
Proof.
  assert (receivers world_a !! 1 = Some (mkHasSlots {[10]} true)) as Hr
    by (vm_compute; reflexivity).
  split; [exact wf_world_a|]. split; [exact Hr|].
  destruct (X11_receiver_disconnectAll world_a 1 _ wf_world_a Hr)
    as (w1 & H1 & _ & Hsig & _ & _ & Hidem).
  exists w1. split; [exact H1|]. split; [|exact Hidem].
  apply (Hsig 10 [mkConnection 1 (member 7); mkConnection 2 (member 8); mkConnection 1 (member 9)]).
  vm_compute; reflexivity.
Defined.

Lemma X12_witness :
  wf world_a
  ∧ ∃ w', call (CallDestroyReceiver 1) world_a = Some w'
      ∧ locks SingleThreaded (CallDestroyReceiver 1) world_a w' = []
      ∧ relocks [] (locks MultiThreadedLocal (CallDestroyReceiver 1)
                      world_a w') = false.
Proof.
  split; [exact wf_world_a|].
  assert (is_Some (call (CallDestroyReceiver 1) world_a)) as [w' Hrun]
    by (vm_compute; eexists; reflexivity).
  exists w'. split; [exact Hrun|].
  exact (X12_local_policy_no_relock _ world_a w' wf_world_a Hrun).
Defined.

Lemma X13_witness :
  wf world_c
  ∧ call_under MultiThreadedGlobal (CallConnect 10 1 (member 7)) world_c = None
  ∧ call_under MultiThreadedLocal (CallConnect 10 1 (member 7)) world_c
    = call (CallConnect 10 1 (member 7)) world_c
  ∧ ∃ w', call (CallConnect 10 1 (member 7)) world_c = Some w'
      ∧ locks MultiThreadedGlobal (CallConnect 10 1 (member 7)) world_c w'
        = [Lock GlobalMutex; Lock GlobalMutex].
Proof.
  split; [exact wf_world_c|].
  assert (is_Some (call (CallConnect 10 1 (member 7)) world_c)) as [w' Hrun]
    by (vm_compute; eexists; reflexivity).
  destruct (X13_global_policy_blocks (CallConnect 10 1 (member 7)) world_c
              wf_world_c) as (Hiff & Hlocks & Hconnect & _ & Hlocal).
  split; [exact (Hconnect 10 1 (member 7) eq_refl)|].
  split; [exact Hlocal|].
  exists w'. split; [exact Hrun|].
  apply Hlocks; [exact Hrun|].
  intros Hnil. pose proof (proj2 (Hiff w') (conj Hrun Hnil)) as Hret.
  rewrite (Hconnect 10 1 (member 7) eq_refl) in Hret. discriminate.
Defined.

Lemma X14_witness :
  [10; 11] ≡ₚ [11; 10]
  ∧ NoDup [10; 11]
  ∧ (∀ i, i ∈ [10; 11] → is_Some (signals world_e !! i))
  ∧ ∃ w1 w1', HasSlots_disconnectAll_loop 1 [10; 11] world_e = Some w1
      ∧ HasSlots_disconnectAll_loop 1 [11; 10] world_e = Some w1'
      ∧ signals w1 = signals w1' ∧ receivers w1 = receivers w1'.
Proof.
  assert (NoDup [10; 11]) as Hnd.
  { apply NoDup_cons. split.
    - intros Hin. apply list_elem_of_singleton in Hin. discriminate.
    - apply NoDup_singleton. }
  assert (∀ i, i ∈ [10; 11] → is_Some (signals world_e !! i)) as Halive.
  { intros i Hi. repeat (apply elem_of_cons in Hi as [->|Hi]);
      [vm_compute; eexists; reflexivity..|by apply elem_of_nil in Hi]. }
  assert (∀ i l c, i ∈ [10; 11] → signals world_e !! i = Some l → c ∈ l →
            object c = 5 → object (duplicate c 1) ≠ 5) as Hne.
  { intros i l c _ Hl Hc _.
    rewrite object_duplicate_aligned by exact (aligned_world_e i l c Hl Hc).
    discriminate. }
  split; [apply perm_swap|]. split; [exact Hnd|]. split; [exact Halive|].
  exact (proj1 (X14_sender_order_irrelevant 5 1 [10; 11] [11; 10] world_e
                  (perm_swap _ _ _) Hnd Hne Halive)).
Defined.
